(** * TlsDataFlow: the TLS client data-flow adapter of libnekit

    A shallow embedding of [src/data_flow/tls_data_flow.cc].  The flow is a
    callback-driven object: every member function runs to completion on the
    runloop thread, and control only comes back through a closure handed to
    the next hop or posted to the runloop.  The embedding therefore

    - keeps the members of the C++ object in a record [Flow],
    - turns each lambda of the source into a constructor that stores what the
      lambda captures (a [Cancelable], and for the posted read delivery the
      plaintext buffer), together with a function that runs its body,
    - writes every member function in a small state-and-failure monad, and
    - lets the environment (the user of the flow, the next hop and the
      runloop) choose the next [Step].

    User handlers are functions of the user: a call is recorded in the trace
    with the content of the corresponding slot at the moment of the call.
    In the member functions below the handler returns at once; they are
    written once more, further down, with a handler that calls the flow
    before it returns. *)

From stdpp Require Import base tactics option list gmap strings.
From Stdlib Require Import Lia.

(** ** Value types *)

(** [utils::Buffer]: a byte region. *)
Definition Buffer := list Byte.byte.

(** Modelled from the spec: the boolean conversion of [utils::Buffer] used in
    [if (utils::Buffer b = tunnel_.ReadCipherTextData())]; its declaration is
    not part of the sources at hand.  An empty buffer means that there is
    nothing to send. *)
Definition Buffer_bool (b : Buffer) : bool :=
  match b with [] => false | _ :: _ => true end.

Definition bytes (s : string) : Buffer := String.list_byte_of_string s.

(** [utils::Error] is an error code whose boolean conversion tells whether an
    error is present; [{}] is [None]. *)
Inductive ErrorCode :=
| GeneralError                     (* utils::NEKitErrorCode::GeneralError *)
| TransportError (code : nat).     (* anything the next hop reports *)

Definition Error := option ErrorCode.

Definition Error_bool (e : Error) : bool :=
  match e with Some _ => true | None => false end.

Record Endpoint := { host : string; port : nat }.

(** Modelled from the spec: [utils::Cancelable], declared outside the sources
    at hand.  A token is a reference to a shared flag; copies observe the
    same flag; [Cancelable()] makes a new live flag; [Cancel] is idempotent. *)
Definition Cancelable := nat.

(** The identity of a user callback.  A slot of the flow is a
    [std::function], empty or holding a callback; [armed] is its boolean
    conversion. *)
Definition DataEventHandler := nat.
Definition EventHandler := nat.

Definition armed {A} (slot : option A) : bool :=
  match slot with Some _ => true | None => false end.

(** ** FlowStateMachine *)

Module FlowStateMachine.

(** Modelled from the spec: the state machine class is declared and
    implemented outside the sources at hand.  An illegal transition is a
    failed assertion, rendered by [None]. *)
Inductive State :=
| Init | Connecting | Established | Reading | Writing | ReadingWriting
| ReadClosed | WriteClosed | Closed | Errored_.

Definition ConnectBegin (s : State) : option State :=
  match s with Init => Some Connecting | _ => None end.

Definition Connected (s : State) : option State :=
  match s with Connecting => Some Established | _ => None end.

Definition ReadBegin (s : State) : option State :=
  match s with
  | Established => Some Reading
  | Writing => Some ReadingWriting
  | _ => None
  end.

Definition ReadEnd (s : State) : option State :=
  match s with
  | Reading => Some Established
  | ReadingWriting => Some Writing
  | _ => None
  end.

Definition WriteBegin (s : State) : option State :=
  match s with
  | Established => Some Writing
  | Reading => Some ReadingWriting
  | _ => None
  end.

Definition WriteEnd (s : State) : option State :=
  match s with
  | Writing => Some Established
  | ReadingWriting => Some Reading
  | _ => None
  end.

Definition Errored (s : State) : option State := Some Errored_.

Definition IsReading (s : State) : bool :=
  match s with Reading | ReadingWriting => true | _ => false end.

Definition IsWriting (s : State) : bool :=
  match s with Writing | ReadingWriting => true | _ => false end.

End FlowStateMachine.

(** ** TlsTunnel: the consumed interface *)

Module TlsTunnel.

Inductive HandShakeAction := Success | WantIo | Error.

(** The engine is opaque: the flow only uses these operations, so the
    development is parametric in an implementation of them. *)
Class Ops (T : Type) := {
  SetDomain : string -> T -> T;
  HandShake : T -> HandShakeAction * T;
  ReadCipherTextData : T -> Buffer * T;
  WriteCipherTextData : Buffer -> T -> T;
  HasPlainTextDataToRead : T -> bool;
  ReadPlainTextData : T -> Buffer * T;
  WritePlainTextData : Buffer -> T -> T;
  NeedCipherInput : T -> bool;
  FinishWritingCipherData : T -> bool;
  Errored : T -> bool
}.

End TlsTunnel.

(** ** Closures *)

(** The lambda given to [data_flow_->Connect] in [Connect]. *)
Inductive ConnectCallback :=
| ConnectDone (cancelable : Cancelable).

(** The lambdas given to [data_flow_->Read]: the one of [HandShake] captures
    [connect_cancelable_], the one of [TryReadNextHop] [read_cancelable_]. *)
Inductive ReadCallback :=
| HandShakeRead (cancelable : Cancelable)
| NextHopRead (cancelable : Cancelable).

(** The lambdas given to [data_flow_->Write]: the two of [HandShake] have the
    same body and capture [connect_cancelable_], the one of
    [TryWriteNextHop] captures [write_cancelable_]. *)
Inductive WriteCallback :=
| HandShakeWrite (cancelable : Cancelable)
| NextHopWrite (cancelable : Cancelable).

(** The lambdas given to [GetRunloop()->Post]. *)
Inductive Posted :=
| DeliverRead (buffer : Buffer) (cancelable : Cancelable)
| DeliverWrite (cancelable : Cancelable).

(** ** The next hop *)

(** Modelled from the spec: the inner data flow is an interface whose
    implementation is not part of the sources at hand.  It keeps the
    operations it has accepted and not yet completed, each with the token it
    returned; nothing in it limits how many it accepts. *)
Record PendingRead :=
  { pr_capacity : N; pr_callback : ReadCallback; pr_token : Cancelable }.
Record PendingWrite :=
  { pw_buffer : Buffer; pw_callback : WriteCallback; pw_token : Cancelable }.
Record PendingConnect :=
  { pc_endpoint : Endpoint; pc_callback : ConnectCallback; pc_token : Cancelable }.

Record NextHop := {
  connects : list PendingConnect;
  reads : list PendingRead;
  writes : list PendingWrite
}.

(** [data_flow_->StateMachine().IsReading()] and [IsWriting()]. *)
Definition NextHop_IsReading (n : NextHop) : bool :=
  match reads n with [] => false | _ => true end.
Definition NextHop_IsWriting (n : NextHop) : bool :=
  match writes n with [] => false | _ => true end.

(** ** Observable events *)

(** A call of a user handler; [held] is the content of the flow's slot for
    that handler while the call runs. *)
Inductive Event :=
| ReadHandlerCalled (h : DataEventHandler) (buffer : Buffer) (error : Error)
    (held : option DataEventHandler)
| WriteHandlerCalled (h : EventHandler) (error : Error)
    (held : option EventHandler)
| ConnectHandlerCalled (h : EventHandler) (error : Error)
    (held : option EventHandler).

Inductive Failure :=
| AssertionFailure      (* assert, BOOST_ASSERT, an illegal transition *)
| BadFunctionCall       (* a call of an empty std::function *)
| NotEnabled.           (* the environment cannot take this step now *)

Section Flow.

Context {T : Type} `{TlsTunnel.Ops T}.

(** ** The members of [TlsDataFlow] *)

Record Flow := {
  tunnel_ : T;
  state_machine_ : FlowStateMachine.State;
  connect_to_ : option Endpoint;
  read_handler_ : option DataEventHandler;
  write_handler_ : option EventHandler;
  connect_handler_ : option EventHandler;
  read_cancelable_ : Cancelable;
  write_cancelable_ : Cancelable;
  connect_cancelable_ : Cancelable;
  next_read_cancelable_ : Cancelable;
  next_write_cancelable_ : Cancelable;
  pending_error_ : Error;
  error_reported_ : bool
}.

Definition set_tunnel_ v (f : Flow) : Flow :=
  {| tunnel_ := v; state_machine_ := state_machine_ f;
     connect_to_ := connect_to_ f; read_handler_ := read_handler_ f;
     write_handler_ := write_handler_ f;
     connect_handler_ := connect_handler_ f;
     read_cancelable_ := read_cancelable_ f;
     write_cancelable_ := write_cancelable_ f;
     connect_cancelable_ := connect_cancelable_ f;
     next_read_cancelable_ := next_read_cancelable_ f;
     next_write_cancelable_ := next_write_cancelable_ f;
     pending_error_ := pending_error_ f;
     error_reported_ := error_reported_ f |}.

Definition set_state_machine_ v (f : Flow) : Flow :=
  {| tunnel_ := tunnel_ f; state_machine_ := v;
     connect_to_ := connect_to_ f; read_handler_ := read_handler_ f;
     write_handler_ := write_handler_ f;
     connect_handler_ := connect_handler_ f;
     read_cancelable_ := read_cancelable_ f;
     write_cancelable_ := write_cancelable_ f;
     connect_cancelable_ := connect_cancelable_ f;
     next_read_cancelable_ := next_read_cancelable_ f;
     next_write_cancelable_ := next_write_cancelable_ f;
     pending_error_ := pending_error_ f;
     error_reported_ := error_reported_ f |}.

Definition set_connect_to_ v (f : Flow) : Flow :=
  {| tunnel_ := tunnel_ f; state_machine_ := state_machine_ f;
     connect_to_ := v; read_handler_ := read_handler_ f;
     write_handler_ := write_handler_ f;
     connect_handler_ := connect_handler_ f;
     read_cancelable_ := read_cancelable_ f;
     write_cancelable_ := write_cancelable_ f;
     connect_cancelable_ := connect_cancelable_ f;
     next_read_cancelable_ := next_read_cancelable_ f;
     next_write_cancelable_ := next_write_cancelable_ f;
     pending_error_ := pending_error_ f;
     error_reported_ := error_reported_ f |}.

Definition set_read_handler_ v (f : Flow) : Flow :=
  {| tunnel_ := tunnel_ f; state_machine_ := state_machine_ f;
     connect_to_ := connect_to_ f; read_handler_ := v;
     write_handler_ := write_handler_ f;
     connect_handler_ := connect_handler_ f;
     read_cancelable_ := read_cancelable_ f;
     write_cancelable_ := write_cancelable_ f;
     connect_cancelable_ := connect_cancelable_ f;
     next_read_cancelable_ := next_read_cancelable_ f;
     next_write_cancelable_ := next_write_cancelable_ f;
     pending_error_ := pending_error_ f;
     error_reported_ := error_reported_ f |}.

Definition set_write_handler_ v (f : Flow) : Flow :=
  {| tunnel_ := tunnel_ f; state_machine_ := state_machine_ f;
     connect_to_ := connect_to_ f; read_handler_ := read_handler_ f;
     write_handler_ := v;
     connect_handler_ := connect_handler_ f;
     read_cancelable_ := read_cancelable_ f;
     write_cancelable_ := write_cancelable_ f;
     connect_cancelable_ := connect_cancelable_ f;
     next_read_cancelable_ := next_read_cancelable_ f;
     next_write_cancelable_ := next_write_cancelable_ f;
     pending_error_ := pending_error_ f;
     error_reported_ := error_reported_ f |}.

Definition set_connect_handler_ v (f : Flow) : Flow :=
  {| tunnel_ := tunnel_ f; state_machine_ := state_machine_ f;
     connect_to_ := connect_to_ f; read_handler_ := read_handler_ f;
     write_handler_ := write_handler_ f;
     connect_handler_ := v;
     read_cancelable_ := read_cancelable_ f;
     write_cancelable_ := write_cancelable_ f;
     connect_cancelable_ := connect_cancelable_ f;
     next_read_cancelable_ := next_read_cancelable_ f;
     next_write_cancelable_ := next_write_cancelable_ f;
     pending_error_ := pending_error_ f;
     error_reported_ := error_reported_ f |}.

Definition set_read_cancelable_ v (f : Flow) : Flow :=
  {| tunnel_ := tunnel_ f; state_machine_ := state_machine_ f;
     connect_to_ := connect_to_ f; read_handler_ := read_handler_ f;
     write_handler_ := write_handler_ f;
     connect_handler_ := connect_handler_ f;
     read_cancelable_ := v;
     write_cancelable_ := write_cancelable_ f;
     connect_cancelable_ := connect_cancelable_ f;
     next_read_cancelable_ := next_read_cancelable_ f;
     next_write_cancelable_ := next_write_cancelable_ f;
     pending_error_ := pending_error_ f;
     error_reported_ := error_reported_ f |}.

Definition set_write_cancelable_ v (f : Flow) : Flow :=
  {| tunnel_ := tunnel_ f; state_machine_ := state_machine_ f;
     connect_to_ := connect_to_ f; read_handler_ := read_handler_ f;
     write_handler_ := write_handler_ f;
     connect_handler_ := connect_handler_ f;
     read_cancelable_ := read_cancelable_ f;
     write_cancelable_ := v;
     connect_cancelable_ := connect_cancelable_ f;
     next_read_cancelable_ := next_read_cancelable_ f;
     next_write_cancelable_ := next_write_cancelable_ f;
     pending_error_ := pending_error_ f;
     error_reported_ := error_reported_ f |}.

Definition set_connect_cancelable_ v (f : Flow) : Flow :=
  {| tunnel_ := tunnel_ f; state_machine_ := state_machine_ f;
     connect_to_ := connect_to_ f; read_handler_ := read_handler_ f;
     write_handler_ := write_handler_ f;
     connect_handler_ := connect_handler_ f;
     read_cancelable_ := read_cancelable_ f;
     write_cancelable_ := write_cancelable_ f;
     connect_cancelable_ := v;
     next_read_cancelable_ := next_read_cancelable_ f;
     next_write_cancelable_ := next_write_cancelable_ f;
     pending_error_ := pending_error_ f;
     error_reported_ := error_reported_ f |}.

Definition set_next_read_cancelable_ v (f : Flow) : Flow :=
  {| tunnel_ := tunnel_ f; state_machine_ := state_machine_ f;
     connect_to_ := connect_to_ f; read_handler_ := read_handler_ f;
     write_handler_ := write_handler_ f;
     connect_handler_ := connect_handler_ f;
     read_cancelable_ := read_cancelable_ f;
     write_cancelable_ := write_cancelable_ f;
     connect_cancelable_ := connect_cancelable_ f;
     next_read_cancelable_ := v;
     next_write_cancelable_ := next_write_cancelable_ f;
     pending_error_ := pending_error_ f;
     error_reported_ := error_reported_ f |}.

Definition set_next_write_cancelable_ v (f : Flow) : Flow :=
  {| tunnel_ := tunnel_ f; state_machine_ := state_machine_ f;
     connect_to_ := connect_to_ f; read_handler_ := read_handler_ f;
     write_handler_ := write_handler_ f;
     connect_handler_ := connect_handler_ f;
     read_cancelable_ := read_cancelable_ f;
     write_cancelable_ := write_cancelable_ f;
     connect_cancelable_ := connect_cancelable_ f;
     next_read_cancelable_ := next_read_cancelable_ f;
     next_write_cancelable_ := v;
     pending_error_ := pending_error_ f;
     error_reported_ := error_reported_ f |}.

Definition set_pending_error_ v (f : Flow) : Flow :=
  {| tunnel_ := tunnel_ f; state_machine_ := state_machine_ f;
     connect_to_ := connect_to_ f; read_handler_ := read_handler_ f;
     write_handler_ := write_handler_ f;
     connect_handler_ := connect_handler_ f;
     read_cancelable_ := read_cancelable_ f;
     write_cancelable_ := write_cancelable_ f;
     connect_cancelable_ := connect_cancelable_ f;
     next_read_cancelable_ := next_read_cancelable_ f;
     next_write_cancelable_ := next_write_cancelable_ f;
     pending_error_ := v;
     error_reported_ := error_reported_ f |}.

Definition set_error_reported_ v (f : Flow) : Flow :=
  {| tunnel_ := tunnel_ f; state_machine_ := state_machine_ f;
     connect_to_ := connect_to_ f; read_handler_ := read_handler_ f;
     write_handler_ := write_handler_ f;
     connect_handler_ := connect_handler_ f;
     read_cancelable_ := read_cancelable_ f;
     write_cancelable_ := write_cancelable_ f;
     connect_cancelable_ := connect_cancelable_ f;
     next_read_cancelable_ := next_read_cancelable_ f;
     next_write_cancelable_ := next_write_cancelable_ f;
     pending_error_ := pending_error_ f;
     error_reported_ := v |}.

(** ** The world the flow runs in *)

Record World := {
  flow : Flow;                      (* the TlsDataFlow object *)
  data_flow_ : NextHop;             (* the next hop it owns *)
  runloop : list Posted;            (* closures posted and not yet run *)
  canceled : gset Cancelable;       (* the tokens whose flag is set *)
  fresh : Cancelable;               (* the next token to hand out *)
  trace : list Event                (* handler calls, oldest first *)
}.

Definition set_flow v (w : World) : World :=
  {| flow := v; data_flow_ := data_flow_ w; runloop := runloop w;
     canceled := canceled w; fresh := fresh w; trace := trace w |}.
Definition set_data_flow_ v (w : World) : World :=
  {| flow := flow w; data_flow_ := v; runloop := runloop w;
     canceled := canceled w; fresh := fresh w; trace := trace w |}.
Definition set_runloop v (w : World) : World :=
  {| flow := flow w; data_flow_ := data_flow_ w; runloop := v;
     canceled := canceled w; fresh := fresh w; trace := trace w |}.
Definition set_canceled v (w : World) : World :=
  {| flow := flow w; data_flow_ := data_flow_ w; runloop := runloop w;
     canceled := v; fresh := fresh w; trace := trace w |}.
Definition set_fresh v (w : World) : World :=
  {| flow := flow w; data_flow_ := data_flow_ w; runloop := runloop w;
     canceled := canceled w; fresh := v; trace := trace w |}.
Definition set_trace v (w : World) : World :=
  {| flow := flow w; data_flow_ := data_flow_ w; runloop := runloop w;
     canceled := canceled w; fresh := fresh w; trace := v |}.

(** ** The monad of member functions *)

Inductive Result (A : Type) :=
| Done (a : A) (w : World)
| Abort (f : Failure).
Arguments Done {A} a w.
Arguments Abort {A} f.

Definition M (A : Type) := World -> Result A.

Definition ret {A} (a : A) : M A := fun w => Done a w.

Definition bind {A B} (m : M A) (k : A -> M B) : M B :=
  fun w => match m w with Done a w' => k a w' | Abort f => Abort f end.

Definition abort {A} (f : Failure) : M A := fun _ => Abort f.

Notation "x <- m ;; k" := (bind m (fun x => k))
  (at level 100, m at next level, right associativity).
Notation "m ;; k" := (bind m (fun _ => k))
  (at level 100, right associativity).

Definition get {A} (p : Flow -> A) : M A := fun w => Done (p (flow w)) w.

Definition modify (g : Flow -> Flow) : M unit :=
  fun w => Done tt (set_flow (g (flow w)) w).

Definition BOOST_ASSERT (b : bool) : M unit :=
  if b then ret tt else abort AssertionFailure.

(** A transition of [state_machine_]. *)
Definition transition
    (t : FlowStateMachine.State -> option FlowStateMachine.State) : M unit :=
  s <- get state_machine_ ;;
  match t s with
  | Some s' => modify (set_state_machine_ s')
  | None => abort AssertionFailure
  end.

(** [utils::Cancelable()], [Cancel()] and [canceled()]. *)
Definition new_Cancelable : M Cancelable :=
  fun w => Done (fresh w) (set_fresh (S (fresh w)) w).

Definition Cancel (c : Cancelable) : M unit :=
  fun w => Done tt (set_canceled ({[c]} ∪ canceled w) w).

Definition is_canceled (c : Cancelable) : M bool :=
  fun w => Done (bool_decide (c ∈ canceled w)) w.

(** Calls of user handlers: an empty [std::function] throws. *)
Definition emit (e : Event) : M unit :=
  fun w => Done tt (set_trace (trace w ++ [e]) w).

Definition call_read_handler (handler : option DataEventHandler)
    (buffer : Buffer) (error : Error) : M unit :=
  match handler with
  | None => abort BadFunctionCall
  | Some h =>
      held <- get read_handler_ ;; emit (ReadHandlerCalled h buffer error held)
  end.

Definition call_write_handler (handler : option EventHandler)
    (error : Error) : M unit :=
  match handler with
  | None => abort BadFunctionCall
  | Some h => held <- get write_handler_ ;; emit (WriteHandlerCalled h error held)
  end.

Definition call_connect_handler (handler : option EventHandler)
    (error : Error) : M unit :=
  match handler with
  | None => abort BadFunctionCall
  | Some h =>
      held <- get connect_handler_ ;; emit (ConnectHandlerCalled h error held)
  end.

(** The tunnel's operations on the member [tunnel_]. *)
Definition tunnel_query {A} (q : T -> A) : M A := get (fun f => q (tunnel_ f)).

Definition tunnel_call {A} (op : T -> A * T) : M A :=
  t <- get tunnel_ ;;
  let '(a, t') := op t in
  modify (set_tunnel_ t') ;; ret a.

Definition tunnel_update (op : T -> T) : M unit :=
  t <- get tunnel_ ;; modify (set_tunnel_ (op t)).

(** The next hop's operations: each accepts the request, keeps its callback
    and returns a new token.  [GetRunloop()->Post] appends to the queue. *)
Definition next_hop_Connect (endpoint : Endpoint) (k : ConnectCallback)
    : M Cancelable :=
  c <- new_Cancelable ;;
  fun w =>
    let n := data_flow_ w in
    Done c (set_data_flow_
              {| connects := connects n ++
                   [{| pc_endpoint := endpoint; pc_callback := k; pc_token := c |}];
                 reads := reads n; writes := writes n |} w).

Definition next_hop_Read (capacity : N) (k : ReadCallback) : M Cancelable :=
  c <- new_Cancelable ;;
  fun w =>
    let n := data_flow_ w in
    Done c (set_data_flow_
              {| connects := connects n;
                 reads := reads n ++
                   [{| pr_capacity := capacity; pr_callback := k; pr_token := c |}];
                 writes := writes n |} w).

Definition next_hop_Write (buffer : Buffer) (k : WriteCallback) : M Cancelable :=
  c <- new_Cancelable ;;
  fun w =>
    let n := data_flow_ w in
    Done c (set_data_flow_
              {| connects := connects n; reads := reads n;
                 writes := writes n ++
                   [{| pw_buffer := buffer; pw_callback := k; pw_token := c |}] |} w).

Definition next_hop_query {A} (q : NextHop -> A) : M A :=
  fun w => Done (q (data_flow_ w)) w.

Definition Post (p : Posted) : M unit :=
  fun w => Done tt (set_runloop (runloop w ++ [p]) w).

(** ** The member functions of [TlsDataFlow] *)

(** [ReadReportError] and [WriteReportError]: the handler is copied, called,
    and the slot is emptied afterwards. *)
Definition ReadReportError (error : Error) : M bool :=
  slot <- get read_handler_ ;;
  if armed slot then
    let handler := slot in
    call_read_handler handler [] error ;;
    modify (set_read_handler_ None) ;;
    ret true
  else ret false.

Definition WriteReportError (error : Error) : M bool :=
  slot <- get write_handler_ ;;
  if armed slot then
    let handler := slot in
    call_write_handler handler error ;;
    modify (set_write_handler_ None) ;;
    ret true
  else ret false.

Definition ReportError (error : Error) (try_read_first : bool) : M bool :=
  first <- (if try_read_first then ReadReportError error
            else WriteReportError error) ;;
  if first then ret true
  else if try_read_first then WriteReportError error
       else ReadReportError error.

Definition TryReadNextHop : M unit :=
  reading <- next_hop_query NextHop_IsReading ;;
  if reading then ret tt
  else
    cancelable <- get read_cancelable_ ;;
    c <- next_hop_Read 8192%N (NextHopRead cancelable) ;;
    modify (set_next_read_cancelable_ c).

Definition TryWriteNextHop : M unit :=
  writing <- next_hop_query NextHop_IsWriting ;;
  if writing then ret tt
  else
    finished <- tunnel_query TlsTunnel.FinishWritingCipherData ;;
    if finished then ret tt
    else
      b <- tunnel_call TlsTunnel.ReadCipherTextData ;;
      cancelable <- get write_cancelable_ ;;
      c <- next_hop_Write b (NextHopWrite cancelable) ;;
      modify (set_next_write_cancelable_ c).

Definition TryRead : M unit :=
  slot <- get read_handler_ ;;
  if armed slot then
    has_plain <- tunnel_query TlsTunnel.HasPlainTextDataToRead ;;
    if has_plain then
      buffer <- tunnel_call TlsTunnel.ReadPlainTextData ;;
      cancelable <- get read_cancelable_ ;;
      Post (DeliverRead buffer cancelable) ;;
      need <- tunnel_query TlsTunnel.NeedCipherInput ;;
      if need then TryReadNextHop else ret tt
    else TryReadNextHop
  else
    need <- tunnel_query TlsTunnel.NeedCipherInput ;;
    if need then TryReadNextHop else ret tt.

Definition TryWrite : M unit :=
  finished <- tunnel_query TlsTunnel.FinishWritingCipherData ;;
  slot <- get write_handler_ ;;
  if finished && armed slot then
    cancelable <- get write_cancelable_ ;;
    Post (DeliverWrite cancelable)
  else
    finished' <- tunnel_query TlsTunnel.FinishWritingCipherData ;;
    if negb finished' then TryWriteNextHop else ret tt.

Definition Process : M unit :=
  reported <- get error_reported_ ;;
  if reported then ret tt
  else
    pending <- get pending_error_ ;;
    if Error_bool pending then
      delivered <- ReportError pending true ;;
      if delivered then modify (set_error_reported_ true) else ret tt
    else
      TryRead ;; TryWrite.

Definition HandShake : M unit :=
  action <- tunnel_call TlsTunnel.HandShake ;;
  match action with
  | TlsTunnel.Success =>
      b <- tunnel_call TlsTunnel.ReadCipherTextData ;;
      if Buffer_bool b then
        cancelable <- get connect_cancelable_ ;;
        c <- next_hop_Write b (HandShakeWrite cancelable) ;;
        modify (set_write_cancelable_ c)
      else
        transition FlowStateMachine.Connected ;;
        handler <- get connect_handler_ ;;
        call_connect_handler handler None ;;
        modify (set_connect_handler_ None)
  | TlsTunnel.WantIo =>
      b <- tunnel_call TlsTunnel.ReadCipherTextData ;;
      if Buffer_bool b then
        cancelable <- get connect_cancelable_ ;;
        c <- next_hop_Write b (HandShakeWrite cancelable) ;;
        modify (set_write_cancelable_ c)
      else
        cancelable <- get connect_cancelable_ ;;
        c <- next_hop_Read 8192%N (HandShakeRead cancelable) ;;
        modify (set_read_cancelable_ c)
  | TlsTunnel.Error =>
      transition FlowStateMachine.Errored ;;
      handler <- get connect_handler_ ;;
      call_connect_handler handler (Some GeneralError)
  end.

Definition Read (buffer : Buffer) (handler : DataEventHandler) : M Cancelable :=
  reported <- get error_reported_ ;;
  BOOST_ASSERT (negb reported) ;;
  c <- new_Cancelable ;;
  modify (set_read_cancelable_ c) ;;
  modify (set_read_handler_ (Some handler)) ;;
  transition FlowStateMachine.ReadBegin ;;
  Process ;;
  get read_cancelable_.

Definition Write (buffer : Buffer) (handler : EventHandler) : M Cancelable :=
  reported <- get error_reported_ ;;
  BOOST_ASSERT (negb reported) ;;
  c <- new_Cancelable ;;
  modify (set_write_cancelable_ c) ;;
  modify (set_write_handler_ (Some handler)) ;;
  transition FlowStateMachine.WriteBegin ;;
  tunnel_update (TlsTunnel.WritePlainTextData buffer) ;;
  Process ;;
  get write_cancelable_.

Definition CloseWrite (handler : EventHandler) : M Cancelable :=
  get write_cancelable_.

Definition Connect (endpoint : Endpoint) (handler : EventHandler)
    : M Cancelable :=
  c <- new_Cancelable ;;
  modify (set_connect_cancelable_ c) ;;
  modify (set_connect_to_ (Some endpoint)) ;;
  tunnel_update (TlsTunnel.SetDomain (host endpoint)) ;;
  modify (set_connect_handler_ (Some handler)) ;;
  transition FlowStateMachine.ConnectBegin ;;
  cancelable <- get connect_cancelable_ ;;
  next_hop_Connect endpoint (ConnectDone cancelable) ;;
  get connect_cancelable_.

(** [~TlsDataFlow]. *)
Definition Destructor : M unit :=
  c <- get read_cancelable_ ;; Cancel c ;;
  c <- get write_cancelable_ ;; Cancel c ;;
  c <- get connect_cancelable_ ;; Cancel c ;;
  c <- get next_read_cancelable_ ;; Cancel c ;;
  c <- get next_write_cancelable_ ;; Cancel c.

(** ** The bodies of the closures *)

Definition run_ConnectCallback (k : ConnectCallback) (error : Error) : M unit :=
  match k with
  | ConnectDone cancelable =>
      stale <- is_canceled cancelable ;;
      if stale then ret tt
      else if Error_bool error then
        handler <- get connect_handler_ ;;
        call_connect_handler handler error
      else HandShake
  end.

Definition run_WriteCallback (k : WriteCallback) (error : Error) : M unit :=
  match k with
  | HandShakeWrite cancelable =>
      stale <- is_canceled cancelable ;;
      if stale then ret tt
      else if Error_bool error then
        transition FlowStateMachine.Errored ;;
        handler <- get connect_handler_ ;;
        call_connect_handler handler error
      else HandShake
  | NextHopWrite cancelable =>
      stale <- is_canceled cancelable ;;
      if stale then ret tt
      else if Error_bool error then
        delivered <- ReportError error false ;;
        if negb delivered then modify (set_pending_error_ error)
        else modify (set_error_reported_ true)
      else Process
  end.

Definition run_ReadCallback (k : ReadCallback) (buffer : Buffer)
    (error : Error) : M unit :=
  match k with
  | HandShakeRead cancelable =>
      stale <- is_canceled cancelable ;;
      if stale then ret tt
      else if Error_bool error then
        transition FlowStateMachine.Errored ;;
        handler <- get connect_handler_ ;;
        call_connect_handler handler error
      else
        tunnel_update (TlsTunnel.WriteCipherTextData buffer) ;;
        errored <- tunnel_query TlsTunnel.Errored ;;
        BOOST_ASSERT (negb errored) ;;     (* NE_TLS_TUNNEL_CHECK_ERROR *)
        HandShake
  | NextHopRead cancelable =>
      stale <- is_canceled cancelable ;;
      if stale then ret tt
      else if Error_bool error then
        delivered <- ReportError error true ;;
        if negb delivered then modify (set_pending_error_ error)
        else modify (set_error_reported_ true)
      else
        tunnel_update (TlsTunnel.WriteCipherTextData buffer) ;;
        Process
  end.

Definition run_Posted (p : Posted) : M unit :=
  match p with
  | DeliverRead buffer cancelable =>
      stale <- is_canceled cancelable ;;
      if stale then ret tt
      else
        transition FlowStateMachine.ReadEnd ;;
        handler <- get read_handler_ ;;
        modify (set_read_handler_ None) ;;
        call_read_handler handler buffer None
  | DeliverWrite cancelable =>
      stale <- is_canceled cancelable ;;
      if stale then ret tt
      else
        transition FlowStateMachine.WriteEnd ;;
        handler <- get write_handler_ ;;
        modify (set_write_handler_ None) ;;
        call_write_handler handler None
  end.

(** ** The environment *)

(** What can happen next: a call by the user of the flow, a turn of the
    runloop that runs the oldest posted closure, or the completion of the
    oldest operation of one kind at the next hop.  A completion whose own
    token was canceled is absorbed by the next hop. *)
Inductive Step :=
| CallConnect (endpoint : Endpoint) (handler : EventHandler)
| CallRead (buffer : Buffer) (handler : DataEventHandler)
| CallWrite (buffer : Buffer) (handler : EventHandler)
| CallCloseWrite (handler : EventHandler)
| CallCancel (c : Cancelable)
| Destroy
| RunloopTurn
| ConnectCompletes (error : Error)
| ReadCompletes (buffer : Buffer) (error : Error)
| WriteCompletes (error : Error).

Definition take_posted : M Posted :=
  fun w =>
    match runloop w with
    | [] => Abort NotEnabled
    | p :: rest => Done p (set_runloop rest w)
    end.

Definition take_connect : M PendingConnect :=
  fun w =>
    let n := data_flow_ w in
    match connects n with
    | [] => Abort NotEnabled
    | p :: rest =>
        Done p (set_data_flow_
                  {| connects := rest; reads := reads n; writes := writes n |} w)
    end.

Definition take_read : M PendingRead :=
  fun w =>
    let n := data_flow_ w in
    match reads n with
    | [] => Abort NotEnabled
    | p :: rest =>
        Done p (set_data_flow_
                  {| connects := connects n; reads := rest; writes := writes n |} w)
    end.

Definition take_write : M PendingWrite :=
  fun w =>
    let n := data_flow_ w in
    match writes n with
    | [] => Abort NotEnabled
    | p :: rest =>
        Done p (set_data_flow_
                  {| connects := connects n; reads := reads n; writes := rest |} w)
    end.

Definition exec (s : Step) : M unit :=
  match s with
  | CallConnect endpoint handler => Connect endpoint handler ;; ret tt
  | CallRead buffer handler => Read buffer handler ;; ret tt
  | CallWrite buffer handler => Write buffer handler ;; ret tt
  | CallCloseWrite handler => CloseWrite handler ;; ret tt
  | CallCancel c => Cancel c
  | Destroy => Destructor
  | RunloopTurn => p <- take_posted ;; run_Posted p
  | ConnectCompletes error =>
      p <- take_connect ;;
      absorbed <- is_canceled (pc_token p) ;;
      if absorbed then ret tt else run_ConnectCallback (pc_callback p) error
  | ReadCompletes buffer error =>
      p <- take_read ;;
      if negb (N.of_nat (length buffer) <=? pr_capacity p)%N then abort NotEnabled
      else
        absorbed <- is_canceled (pr_token p) ;;
        if absorbed then ret tt
        else run_ReadCallback (pr_callback p) buffer error
  | WriteCompletes error =>
      p <- take_write ;;
      absorbed <- is_canceled (pw_token p) ;;
      if absorbed then ret tt else run_WriteCallback (pw_callback p) error
  end.

Fixpoint run (script : list Step) : M unit :=
  match script with
  | [] => ret tt
  | s :: rest => exec s ;; run rest
  end.

(** A flow right after its constructor: five live default tokens, empty
    slots, nothing pending anywhere. *)
Definition initial (t : T) : World :=
  {| flow :=
       {| tunnel_ := t; state_machine_ := FlowStateMachine.Init;
          connect_to_ := None; read_handler_ := None; write_handler_ := None;
          connect_handler_ := None;
          read_cancelable_ := 0; write_cancelable_ := 1;
          connect_cancelable_ := 2; next_read_cancelable_ := 3;
          next_write_cancelable_ := 4;
          pending_error_ := None; error_reported_ := false |};
     data_flow_ := {| connects := []; reads := []; writes := [] |};
     runloop := []; canceled := ∅; fresh := 5; trace := [] |}.

End Flow.

Arguments Flow T : clear implicits.
Arguments World T : clear implicits.
Arguments Result T A : clear implicits.
Arguments M T A : clear implicits.
Arguments Done {T A} a w.
Arguments Abort {T A} f.

(** ** A scripted tunnel *)

(** A small engine for running the flow on concrete inputs: the handshake
    follows a script of results, each with the ciphertext it leaves in the
    out-queue; ciphering adds one to every byte; a record that starts with
    the alert content type (21) puts the engine in its failure state. *)
Module ScriptedTunnel.

Record t := {
  domain : string;
  script : list (TlsTunnel.HandShakeAction * Buffer);
  cipher_out : Buffer;
  plain_in : Buffer;
  need_input : bool;
  failed : bool
}.

Definition shift (d : N) (b : Byte.byte) : Byte.byte :=
  match Byte.of_N ((Byte.to_N b + d) mod 256) with
  | Some b' => b'
  | None => b
  end.

Definition cipher (b : Buffer) : Buffer := map (shift 1) b.
Definition decipher (b : Buffer) : Buffer := map (shift 255) b.

Definition is_alert (b : Buffer) : bool :=
  match b with
  | x :: _ => (Byte.to_N x =? 21)%N
  | [] => false
  end.

Definition SetDomain (d : string) (e : t) : t :=
  {| domain := d; script := script e; cipher_out := cipher_out e;
     plain_in := plain_in e; need_input := need_input e; failed := failed e |}.

Definition HandShake (e : t) : TlsTunnel.HandShakeAction * t :=
  match script e with
  | [] => (TlsTunnel.Success, e)
  | (a, c) :: rest =>
      (a, {| domain := domain e; script := rest;
             cipher_out := cipher_out e ++ c; plain_in := plain_in e;
             need_input := need_input e; failed := failed e |})
  end.

Definition ReadCipherTextData (e : t) : Buffer * t :=
  (cipher_out e,
   {| domain := domain e; script := script e; cipher_out := [];
      plain_in := plain_in e; need_input := need_input e;
      failed := failed e |}).

Definition WriteCipherTextData (b : Buffer) (e : t) : t :=
  {| domain := domain e; script := script e; cipher_out := cipher_out e;
     plain_in := match script e with
                 | [] => plain_in e ++ decipher b
                 | _ :: _ => plain_in e
                 end;
     need_input := need_input e;
     failed := failed e || is_alert b |}.

Definition ReadPlainTextData (e : t) : Buffer * t :=
  (plain_in e,
   {| domain := domain e; script := script e; cipher_out := cipher_out e;
      plain_in := []; need_input := need_input e; failed := failed e |}).

Definition WritePlainTextData (b : Buffer) (e : t) : t :=
  {| domain := domain e; script := script e;
     cipher_out := cipher_out e ++ cipher b; plain_in := plain_in e;
     need_input := need_input e; failed := failed e |}.

#[global] Instance ops : TlsTunnel.Ops t := {|
  TlsTunnel.SetDomain := SetDomain;
  TlsTunnel.HandShake := HandShake;
  TlsTunnel.ReadCipherTextData := ReadCipherTextData;
  TlsTunnel.WriteCipherTextData := WriteCipherTextData;
  TlsTunnel.HasPlainTextDataToRead := fun e => Buffer_bool (plain_in e);
  TlsTunnel.ReadPlainTextData := ReadPlainTextData;
  TlsTunnel.WritePlainTextData := WritePlainTextData;
  TlsTunnel.NeedCipherInput := need_input;
  TlsTunnel.FinishWritingCipherData := fun e => negb (Buffer_bool (cipher_out e));
  TlsTunnel.Errored := failed
|}.

(** An engine that has not started, with the given handshake script and
    the given answer to [NeedCipherInput]. *)
Definition make (s : list (TlsTunnel.HandShakeAction * Buffer))
    (need : bool) : t :=
  {| domain := EmptyString; script := s; cipher_out := []; plain_in := [];
     need_input := need; failed := false |}.

End ScriptedTunnel.

(** ** Concrete runs *)

Module Scenario.

Definition example_endpoint : Endpoint :=
  {| host := "example.org"; port := 443 |}.

Definition reset : Error := Some (TransportError 104).
Definition broken_pipe : Error := Some (TransportError 32).

(** A tunnel whose handshake needs no exchange, asked for ciphertext input
    only when [need] holds. *)
Definition quick (need : bool) : ScriptedTunnel.t := ScriptedTunnel.make [] need.

(** The handshake of the spec's first scenario. *)
Definition hello : ScriptedTunnel.t :=
  ScriptedTunnel.make
    [(TlsTunnel.WantIo, bytes "CH"); (TlsTunnel.WantIo, bytes "CKE");
     (TlsTunnel.Success, [])] false.

(** A tunnel that waits for the server's first flight. *)
Definition waiting : ScriptedTunnel.t :=
  ScriptedTunnel.make [(TlsTunnel.WantIo, [])] false.

(** An alert record: content type 21, then the version. *)
Definition alert : Buffer := [Byte.x15; Byte.x03; Byte.x03].

(** Connect (handler 7) and let the next hop connect. *)
Definition connect : list Step :=
  [CallConnect example_endpoint 7; ConnectCompletes None].

(** A read (handler 10) is served with "hello"; the tunnel keeps asking for
    input, so a next-hop read that captured the token of that read is still
    in flight when the user reads again (handler 11). *)
Definition second_read : list Step :=
  connect ++
  [CallRead [] 10; ReadCompletes (bytes "ifmmp") None; RunloopTurn].

(** A read (handler 10) and a write (handler 11) are armed, both with an
    operation in flight at the next hop; the read fails first. *)
Definition read_fails_first : list Step :=
  connect ++
  [CallRead [] 10; CallWrite (bytes "x") 11; ReadCompletes [] reset].

(** A read (handler 10) and a write (handler 11) are armed; the next hop
    delivers "hi", so both deliveries are posted; then the write that is
    still in flight fails before the runloop runs them. *)
Definition write_fails_before_posted_delivery : list Step :=
  connect ++
  [CallRead [] 10; CallWrite (bytes "x") 11;
   ReadCompletes (bytes "ij") None; WriteCompletes broken_pipe].

(** Plaintext "hello" is buffered, no read is armed, and a next-hop read
    issued to keep draining fails: the error is kept in [pending_error_]. *)
Definition error_kept_with_plaintext_buffered : list Step :=
  second_read ++ [ReadCompletes (bytes "ifmmp") None; ReadCompletes [] reset].

(** The world that a script leaves behind, the initial one if the run
    fails. *)
Definition after (script : list Step) (t : ScriptedTunnel.t)
    : World ScriptedTunnel.t :=
  match run script (initial t) with
  | Done _ w => w
  | Abort _ => initial t
  end.

(** The world that a member function leaves behind. *)
Definition then_ {A} (m : M ScriptedTunnel.t A) (w : World ScriptedTunnel.t)
    : World ScriptedTunnel.t :=
  match m w with
  | Done _ w' => w'
  | Abort _ => w
  end.

End Scenario.

(** ** Vocabulary of the properties *)

(** The handlers called so far, oldest first, by kind. *)
Definition read_calls (evs : list Event) : list DataEventHandler :=
  omap (fun e => match e with ReadHandlerCalled h _ _ _ => Some h | _ => None end) evs.
Definition write_calls (evs : list Event) : list EventHandler :=
  omap (fun e => match e with WriteHandlerCalled h _ _ => Some h | _ => None end) evs.
Definition connect_calls (evs : list Event) : list EventHandler :=
  omap (fun e => match e with ConnectHandlerCalled h _ _ => Some h | _ => None end) evs.

(** The handlers a script arms, in order. *)
Definition read_armings (script : list Step) : list DataEventHandler :=
  omap (fun s => match s with CallRead _ h => Some h | _ => None end) script.
Definition write_armings (script : list Step) : list EventHandler :=
  omap (fun s => match s with CallWrite _ h => Some h | _ => None end) script.

Definition is_handshake_read (p : PendingRead) : bool :=
  match pr_callback p with HandShakeRead _ => true | NextHopRead _ => false end.
Definition is_handshake_write (p : PendingWrite) : bool :=
  match pw_callback p with HandShakeWrite _ => true | NextHopWrite _ => false end.

(** The states in which the handshake is over. *)
Definition running (s : FlowStateMachine.State) : bool :=
  match s with
  | FlowStateMachine.Init | FlowStateMachine.Connecting => false
  | _ => true
  end.

(** What the properties below look at in a world. *)
Record View := {
  v_state : FlowStateMachine.State;
  v_next : NextHop;
  v_read : option DataEventHandler;
  v_write : option EventHandler;
  v_trace : list Event
}.

Definition view {T} (w : World T) : View :=
  {| v_state := state_machine_ (flow w); v_next := data_flow_ w;
     v_read := read_handler_ (flow w); v_write := write_handler_ (flow w);
     v_trace := trace w |}.

(** A slot and the calls of its kind: either nothing happened, or the
    handler in the slot was called and the slot is empty. *)
Definition slot_moved {A} (slot slot' : option A) (called called' : list A)
    : Prop :=
  (slot' = slot ∧ called' = called) ∨
  (∃ h, slot = Some h ∧ slot' = None ∧ called' = called ++ [h]).

(** The pending operations of one kind at the next hop: either unchanged, or
    there was none and one was issued by [TryReadNextHop] (resp.
    [TryWriteNextHop]). *)
Definition issued_read (l l' : list PendingRead) : Prop :=
  l' = l ∨ (l = [] ∧ ∃ c t,
    l' = [{| pr_capacity := 8192; pr_callback := NextHopRead c; pr_token := t |}]).
Definition issued_write (l l' : list PendingWrite) : Prop :=
  l' = l ∨ (l = [] ∧ ∃ b c t,
    l' = [{| pw_buffer := b; pw_callback := NextHopWrite c; pw_token := t |}]).

(** What the steady-state pump may do. *)
Definition steady (v v' : View) : Prop :=
  v_state v' = v_state v ∧
  connects (v_next v') = connects (v_next v) ∧
  issued_read (reads (v_next v)) (reads (v_next v')) ∧
  issued_write (writes (v_next v)) (writes (v_next v')) ∧
  slot_moved (v_read v) (v_read v')
    (read_calls (v_trace v)) (read_calls (v_trace v')) ∧
  slot_moved (v_write v) (v_write v')
    (write_calls (v_trace v)) (write_calls (v_trace v')) ∧
  connect_calls (v_trace v') = connect_calls (v_trace v).

(** What one cycle of the handshake driver, or the error path of one of its
    callbacks, may do: issue one handshake operation, or call the connect
    handler and stop. *)
Definition handshaking (v v' : View) : Prop :=
  v_read v' = v_read v ∧ v_write v' = v_write v ∧
  read_calls (v_trace v') = read_calls (v_trace v) ∧
  write_calls (v_trace v') = write_calls (v_trace v) ∧
  connects (v_next v') = connects (v_next v) ∧
  ((v_state v' = v_state v ∧
    connect_calls (v_trace v') = connect_calls (v_trace v) ∧
    ((writes (v_next v') = writes (v_next v) ∧
      ∃ c t, reads (v_next v') = reads (v_next v) ++
        [{| pr_capacity := 8192; pr_callback := HandShakeRead c; pr_token := t |}])
     ∨
     (reads (v_next v') = reads (v_next v) ∧
      ∃ b c t, writes (v_next v') = writes (v_next v) ++
        [{| pw_buffer := b; pw_callback := HandShakeWrite c; pw_token := t |}])))
   ∨
   (reads (v_next v') = reads (v_next v) ∧
    writes (v_next v') = writes (v_next v) ∧
    (∃ h, connect_calls (v_trace v') = connect_calls (v_trace v) ++ [h]) ∧
    (v_state v' = v_state v ∨ running (v_state v') = true))).

(** The view once the next hop has taken its oldest pending operation. *)
Definition drop_connect (v : View) : View :=
  {| v_state := v_state v;
     v_next := {| connects := tail (connects (v_next v));
                  reads := reads (v_next v); writes := writes (v_next v) |};
     v_read := v_read v; v_write := v_write v; v_trace := v_trace v |}.
Definition drop_read (v : View) : View :=
  {| v_state := v_state v;
     v_next := {| connects := connects (v_next v);
                  reads := tail (reads (v_next v)); writes := writes (v_next v) |};
     v_read := v_read v; v_write := v_write v; v_trace := v_trace v |}.
Definition drop_write (v : View) : View :=
  {| v_state := v_state v;
     v_next := {| connects := connects (v_next v);
                  reads := reads (v_next v); writes := tail (writes (v_next v)) |};
     v_read := v_read v; v_write := v_write v; v_trace := v_trace v |}.

(** What each step of the environment may do to the view. *)
Definition step_effect (s : Step) (v v' : View) : Prop :=
  match s with
  | CallConnect endpoint _ =>
      v_state v = FlowStateMachine.Init ∧
      v_state v' = FlowStateMachine.Connecting ∧
      (∃ p, connects (v_next v') = connects (v_next v) ++ [p]) ∧
      reads (v_next v') = reads (v_next v) ∧
      writes (v_next v') = writes (v_next v) ∧
      v_read v' = v_read v ∧ v_write v' = v_write v ∧ v_trace v' = v_trace v
  | CallRead _ h =>
      ∃ s1, FlowStateMachine.ReadBegin (v_state v) = Some s1 ∧
        steady {| v_state := s1; v_next := v_next v; v_read := Some h;
                  v_write := v_write v; v_trace := v_trace v |} v'
  | CallWrite _ h =>
      ∃ s1, FlowStateMachine.WriteBegin (v_state v) = Some s1 ∧
        steady {| v_state := s1; v_next := v_next v; v_read := v_read v;
                  v_write := Some h; v_trace := v_trace v |} v'
  | CallCloseWrite _ | CallCancel _ | Destroy => v' = v
  | RunloopTurn =>
      v' = v ∨
      (∃ h, v_read v = Some h ∧
            FlowStateMachine.ReadEnd (v_state v) = Some (v_state v') ∧
            v_next v' = v_next v ∧ v_read v' = None ∧ v_write v' = v_write v ∧
            ∃ b, v_trace v' = v_trace v ++ [ReadHandlerCalled h b None None]) ∨
      (∃ h, v_write v = Some h ∧
            FlowStateMachine.WriteEnd (v_state v) = Some (v_state v') ∧
            v_next v' = v_next v ∧ v_write v' = None ∧ v_read v' = v_read v ∧
            v_trace v' = v_trace v ++ [WriteHandlerCalled h None None])
  | ConnectCompletes _ =>
      match connects (v_next v) with
      | [] => False
      | _ :: _ => v' = drop_connect v ∨ handshaking (drop_connect v) v'
      end
  | ReadCompletes _ _ =>
      match reads (v_next v) with
      | [] => False
      | p :: _ =>
          v' = drop_read v ∨
          if is_handshake_read p then handshaking (drop_read v) v'
          else steady (drop_read v) v'
      end
  | WriteCompletes _ =>
      match writes (v_next v) with
      | [] => False
      | p :: _ =>
          v' = drop_write v ∨
          if is_handshake_write p then handshaking (drop_write v) v'
          else steady (drop_write v) v'
      end
  end.

(** The shape of the next hop's queues in each phase of the flow. *)
Definition shape (v : View) : Prop :=
  let n := v_next v in
  match v_state v with
  | FlowStateMachine.Init =>
      connects n = [] ∧ reads n = [] ∧ writes n = [] ∧
      connect_calls (v_trace v) = []
  | FlowStateMachine.Connecting =>
      forallb is_handshake_read (reads n) = true ∧
      forallb is_handshake_write (writes n) = true ∧
      length (connects n) + length (reads n) + length (writes n) +
        length (connect_calls (v_trace v)) ≤ 1
  | _ =>
      connects n = [] ∧
      forallb (λ p, negb (is_handshake_read p)) (reads n) = true ∧
      forallb (λ p, negb (is_handshake_write p)) (writes n) = true ∧
      length (reads n) ≤ 1 ∧ length (writes n) ≤ 1 ∧
      length (connect_calls (v_trace v)) ≤ 1
  end.

(** The handlers of one kind: the one in the slot and those called so far
    are pairwise distinct and were all armed. *)
Definition ledger {A} (slot : option A) (called armed_so_far : list A) : Prop :=
  NoDup (option_list slot ++ called) ∧
  ∀ h, h ∈ option_list slot ++ called → h ∈ armed_so_far.

(** ** Statements of the specification that the code does not meet *)

Section Claims.

Context {T : Type} `{TlsTunnel.Ops T}.
Implicit Types w : World T.

(** Nothing is left that could call a handler without a further call by the
    user: no operation is in flight at the next hop, no closure is posted. *)
Definition quiescent w : Prop :=
  data_flow_ w = {| connects := []; reads := []; writes := [] |} ∧
  runloop w = [].

(** "The handler is invoked exactly once", for a write: when the run has
    come to rest and the token returned was not canceled, the handler has
    been called. *)
Definition armed_write_is_delivered (t : T) : Prop :=
  ∀ pre post buffer handler c w0 w1 w2,
    run pre (initial t) = Done tt w0 →
    Write buffer handler w0 = Done c w1 →
    run post w1 = Done tt w2 →
    quiescent w2 → c ∉ canceled w2 →
    handler ∈ write_calls (trace w2).

(** "If the operation's returned Cancelable is canceled before delivery, the
    handler is invoked zero times", for a read. *)
Definition canceled_read_is_never_delivered (t : T) : Prop :=
  ∀ pre post buffer handler c w0 w1 w2,
    run pre (initial t) = Done tt w0 →
    Read buffer handler w0 = Done c w1 →
    handler ∉ read_calls (trace w1) →
    run (CallCancel c :: post) w1 = Done tt w2 →
    handler ∉ read_calls (trace w2).

(** "A tunnel error after feeding aborts with the general TLS error": when
    the read that the handshake driver issued completes without error and
    the bytes put the tunnel in its failure state, the connect handler
    receives the general error. *)
Definition tunnel_error_after_feeding_is_reported (t : T) : Prop :=
  ∀ script buffer w p rest cancelable h,
    run script (initial t) = Done tt w →
    reads (data_flow_ w) = p :: rest →
    pr_callback p = HandShakeRead cancelable →
    cancelable ∉ canceled w → pr_token p ∉ canceled w →
    (N.of_nat (length buffer) ≤ pr_capacity p)%N →
    connect_handler_ (flow w) = Some h →
    TlsTunnel.Errored
      (TlsTunnel.WriteCipherTextData buffer (tunnel_ (flow w))) = true →
    ∃ w' held,
      exec (ReadCompletes buffer None) w = Done tt w' ∧
      trace w' = trace w ++ [ConnectHandlerCalled h (Some GeneralError) held].

(** "When a user read handler is registered and the tunnel has no plaintext
    available, an inner read is issued only if the tunnel needs ciphertext
    input." *)
Definition inner_read_only_when_needed : Prop :=
  ∀ w w',
    armed (read_handler_ (flow w)) = true →
    TlsTunnel.HasPlainTextDataToRead (tunnel_ (flow w)) = false →
    TryRead w = Done tt w' →
    reads (data_flow_ w') ≠ reads (data_flow_ w) →
    TlsTunnel.NeedCipherInput (tunnel_ (flow w)) = true.

(** "When no user read handler is registered, an inner read is issued
    opportunistically exactly when the tunnel still needs ciphertext
    input." *)
Definition opportunistic_read_exactly_when_needed : Prop :=
  ∀ w w',
    armed (read_handler_ (flow w)) = false →
    TryRead w = Done tt w' →
    (reads (data_flow_ w') ≠ reads (data_flow_ w) ↔
     TlsTunnel.NeedCipherInput (tunnel_ (flow w)) = true).

(** "If a user Read is issued while plaintext is already buffered in the
    tunnel, the read handler is never invoked inline within the Read call." *)
Definition read_is_never_delivered_inline (t : T) : Prop :=
  ∀ script buffer handler c w w',
    run script (initial t) = Done tt w →
    TlsTunnel.HasPlainTextDataToRead (tunnel_ (flow w)) = true →
    Read buffer handler w = Done c w' →
    trace w' = trace w.

(** ** Further vocabulary *)

(** The operations that [TryReadNextHop] and [TryWriteNextHop] hand to the
    next hop in a given world. *)
Definition next_hop_read_of w : PendingRead :=
  {| pr_capacity := 8192;
     pr_callback := NextHopRead (read_cancelable_ (flow w));
     pr_token := fresh w |}.

Definition next_hop_write_of w : PendingWrite :=
  {| pw_buffer := fst (TlsTunnel.ReadCipherTextData (tunnel_ (flow w)));
     pw_callback := NextHopWrite (write_cancelable_ (flow w));
     pw_token := fresh w |}.

(** A world in which the two next-hop tokens are forgotten. *)
Definition forget_next w : World T :=
  set_flow (set_next_read_cancelable_ 0
              (set_next_write_cancelable_ 0 (flow w))) w.

Definition forget_next_result {A} (r : Result T A) : Result T A :=
  match r with
  | Done a w => Done a (forget_next w)
  | Abort f => Abort f
  end.

(** The world in which [Read] calls [Process]: the handler is in its slot,
    the token is new and the state machine has begun the read. *)
Definition armed_for_read (handler : DataEventHandler)
    (s : FlowStateMachine.State) w : World T :=
  set_fresh (S (fresh w))
    (set_flow
       (set_state_machine_ s
          (set_read_handler_ (Some handler)
             (set_read_cancelable_ (fresh w) (flow w)))) w).

End Claims.

Section Deliveries.

Context {T : Type}.
Implicit Types w : World T.

(** The world after [ReadReportError] (resp. [WriteReportError]) has passed
    an error to the handler found in the slot. *)
Definition read_error_delivered (h : DataEventHandler) (error : Error) w
    : World T :=
  set_flow (set_read_handler_ None (flow w))
    (set_trace (trace w ++ [ReadHandlerCalled h [] error (Some h)]) w).

Definition write_error_delivered (h : EventHandler) (error : Error) w
    : World T :=
  set_flow (set_write_handler_ None (flow w))
    (set_trace (trace w ++ [WriteHandlerCalled h error (Some h)]) w).

End Deliveries.

(** ** The rest of the interface *)

Section Accessors.

Context {T : Type}.

(** [StateMachine()] and [ConnectingTo()]: the state machine of the flow,
    and the endpoint given to [Connect], null before. *)
Definition StateMachine : M T FlowStateMachine.State := get state_machine_.

Definition ConnectingTo : M T (option Endpoint) := get connect_to_.

End Accessors.

(** ** Vocabulary of the properties of whole runs *)

(** What the environment sees of one cycle of the handshake driver: the
    tunnel had a flight to send, or it waited for bytes of the peer. *)
Inductive Round :=
| Send
| Receive (buffer : Buffer).

(** How a handshake ends: the tunnel succeeds, the tunnel fails, or the next
    hop fails the write or the read that the driver has in flight. *)
Inductive Ending :=
| Succeeds
| TunnelFails
| WriteFails (e : ErrorCode)
| ReadFails (e : ErrorCode).

Definition round_step (r : Round) : Step :=
  match r with
  | Send => WriteCompletes None
  | Receive buffer => ReadCompletes buffer None
  end.

Definition ending_steps (ending : Ending) : list Step :=
  match ending with
  | Succeeds | TunnelFails => []
  | WriteFails e => [WriteCompletes (Some e)]
  | ReadFails e => [ReadCompletes [] (Some e)]
  end.

(** The completions at the next hop that take the driver through the rounds
    and to the ending. *)
Definition handshake_script (plan : list Round) (ending : Ending) : list Step :=
  map round_step plan ++ ending_steps ending.

Definition ending_state (ending : Ending) : FlowStateMachine.State :=
  match ending with
  | Succeeds => FlowStateMachine.Established
  | _ => FlowStateMachine.Errored_
  end.

Definition ending_error (ending : Ending) : Error :=
  match ending with
  | Succeeds => None
  | TunnelFails => Some GeneralError
  | WriteFails e | ReadFails e => Some e
  end.

(** The steps by which the user starts a transfer, and those by which the
    next hop completes an operation. *)
Definition is_user_transfer (s : Step) : bool :=
  match s with CallRead _ _ | CallWrite _ _ => true | _ => false end.

Definition is_completion (s : Step) : bool :=
  match s with
  | ConnectCompletes _ | ReadCompletes _ _ | WriteCompletes _ => true
  | _ => false
  end.

(** The endpoints a script connects to, in order. *)
Definition connect_endpoints (script : list Step) : list Endpoint :=
  omap (fun s => match s with CallConnect e _ => Some e | _ => None end) script.

(** An armed slot goes with a transfer that the state machine has begun. *)
Definition slots_follow (v : View) : Prop :=
  (armed (v_read v) = true → FlowStateMachine.IsReading (v_state v) = true) ∧
  (armed (v_write v) = true → FlowStateMachine.IsWriting (v_state v) = true).

(** What the driver has in flight in a round: one operation of the kind of
    the round, a write of ciphertext [c] or a read of capacity 8192, whose
    continuation captures [cancelable]. *)
Definition in_flight (r : Round) (c : Buffer) (cancelable : Cancelable)
    (n : NextHop) : Prop :=
  connects n = [] ∧
  match r with
  | Send =>
      reads n = [] ∧ map pw_buffer (writes n) = [c] ∧
      map pw_callback (writes n) = [HandShakeWrite cancelable]
  | Receive _ =>
      writes n = [] ∧ map pr_capacity (reads n) = [8192%N] ∧
      map pr_callback (reads n) = [HandShakeRead cancelable]
  end.

Section Handshakes.

Context {T : Type} `{TlsTunnel.Ops T}.
Implicit Types w : World T.

(** The answer of the tunnel in the last cycle of a handshake with the given
    ending. *)
Definition ends_with (ending : Ending) (t : T) : bool :=
  let '(action, t1) := TlsTunnel.HandShake t in
  let c := fst (TlsTunnel.ReadCipherTextData t1) in
  match ending, action with
  | Succeeds, TlsTunnel.Success => negb (Buffer_bool c)
  | TunnelFails, TlsTunnel.Error => true
  | WriteFails _, (TlsTunnel.Success | TlsTunnel.WantIo) => Buffer_bool c
  | ReadFails _, TlsTunnel.WantIo => negb (Buffer_bool c)
  | _, _ => false
  end.

(** The tunnel goes through the rounds of the plan, and to the ending, when
    it is called as [HandShake] and its continuations call it and is fed
    what the plan receives: in a [Send] round it leaves ciphertext, in a
    [Receive] round it wants input, leaves none, and takes the bytes (at
    most 8192) without failing. *)
Fixpoint follows (plan : list Round) (ending : Ending) (t : T) : bool :=
  match plan with
  | [] => ends_with ending t
  | round :: rest =>
      let '(action, t1) := TlsTunnel.HandShake t in
      let '(c, t2) := TlsTunnel.ReadCipherTextData t1 in
      match round, action with
      | Send, (TlsTunnel.Success | TlsTunnel.WantIo) =>
          Buffer_bool c && follows rest ending t2
      | Receive buffer, TlsTunnel.WantIo =>
          let fed := TlsTunnel.WriteCipherTextData buffer t2 in
          negb (Buffer_bool c) && (N.of_nat (length buffer) <=? 8192)%N &&
          negb (TlsTunnel.Errored fed) && follows rest ending fed
      | _, _ => false
      end
  end.

(** The ciphertext that the tunnel hands out in its next cycle, and the
    tunnel after a round. *)
Definition flight (t : T) : Buffer :=
  fst (TlsTunnel.ReadCipherTextData (snd (TlsTunnel.HandShake t))).

Definition after_round (t : T) (r : Round) : T :=
  let t2 := snd (TlsTunnel.ReadCipherTextData (snd (TlsTunnel.HandShake t))) in
  match r with
  | Send => t2
  | Receive buffer => TlsTunnel.WriteCipherTextData buffer t2
  end.

Definition after_rounds (plan : list Round) (t : T) : T :=
  fold_left after_round plan t.

(** The world once [Connect] has run on a new flow and the next hop has
    taken the connect request out of its queue to complete it. *)
Definition connecting (endpoint : Endpoint) (handler : EventHandler) (t : T)
    : World T :=
  {| flow :=
       {| tunnel_ := TlsTunnel.SetDomain (host endpoint) t;
          state_machine_ := FlowStateMachine.Connecting;
          connect_to_ := Some endpoint;
          read_handler_ := None; write_handler_ := None;
          connect_handler_ := Some handler;
          read_cancelable_ := 0; write_cancelable_ := 1;
          connect_cancelable_ := 5; next_read_cancelable_ := 3;
          next_write_cancelable_ := 4;
          pending_error_ := None; error_reported_ := false |};
     data_flow_ := {| connects := []; reads := []; writes := [] |};
     runloop := []; canceled := ∅; fresh := 7; trace := [] |}.

(** The flow keeps the token of every operation it has in flight: the
    continuation of the connect captures [connect_cancelable_]; the token of
    a read or write of the handshake is in [read_cancelable_] or
    [write_cancelable_], the token of a read or write of the steady state in
    [next_read_cancelable_] or [next_write_cancelable_]. *)
Definition kept_connect (f : Flow T) (p : PendingConnect) : Prop :=
  pc_callback p = ConnectDone (connect_cancelable_ f).

Definition kept_read (f : Flow T) (p : PendingRead) : Prop :=
  pr_token p =
  if is_handshake_read p then read_cancelable_ f else next_read_cancelable_ f.

Definition kept_write (f : Flow T) (p : PendingWrite) : Prop :=
  pw_token p =
  if is_handshake_write p then write_cancelable_ f
  else next_write_cancelable_ f.

Definition tokens_kept w : Prop :=
  Forall (kept_connect (flow w)) (connects (data_flow_ w)) ∧
  Forall (kept_read (flow w)) (reads (data_flow_ w)) ∧
  Forall (kept_write (flow w)) (writes (data_flow_ w)).

(** Every operation in flight is canceled: the token captured by the
    continuation of a connect, the own token of a read or a write. *)
Definition all_canceled w : Prop :=
  Forall (λ p, ∃ c, pc_callback p = ConnectDone c ∧ c ∈ canceled w)
    (connects (data_flow_ w)) ∧
  Forall (λ p, pr_token p ∈ canceled w) (reads (data_flow_ w)) ∧
  Forall (λ p, pw_token p ∈ canceled w) (writes (data_flow_ w)).

End Handshakes.

(** A tunnel that sends its first flight, waits for the answer of the peer
    and is then done. *)
Definition exchange : ScriptedTunnel.t :=
  ScriptedTunnel.make
    [(TlsTunnel.WantIo, bytes "CH"); (TlsTunnel.WantIo, []);
     (TlsTunnel.Success, [])] false.

(** ** Vocabulary of the handlers of a run *)

(** The connect handlers a script arms. *)
Definition connect_armings (script : list Step) : list EventHandler :=
  omap (fun s => match s with CallConnect _ h => Some h | _ => None end) script.

Definition is_read_delivery (p : Posted) : bool :=
  match p with DeliverRead _ _ => true | DeliverWrite _ => false end.
Definition is_write_delivery (p : Posted) : bool :=
  match p with DeliverWrite _ => true | DeliverRead _ _ => false end.

(** The calls into the flow that a handler may make before it returns. *)
Definition in_callback (s : Step) : bool :=
  match s with
  | CallRead _ _ | CallWrite _ _ | CallCloseWrite _ | CallCancel _ => true
  | _ => false
  end.

Section Answers.

Context {T : Type} `{TlsTunnel.Ops T}.
Implicit Types w : World T.

(** While no error has been reported, the answer to an armed handler is on
    its way: no error is kept for later, and a delivery is posted or an
    operation is in flight at the next hop. *)
Definition answer_on_its_way w : Prop :=
  error_reported_ (flow w) = false →
  (armed (read_handler_ (flow w)) = true →
   pending_error_ (flow w) = None ∧
   (existsb is_read_delivery (runloop w) = true ∨ reads (data_flow_ w) ≠ [])) ∧
  (armed (write_handler_ (flow w)) = true →
   pending_error_ (flow w) = None ∧
   (existsb is_write_delivery (runloop w) = true ∨ writes (data_flow_ w) ≠ [])).

(** The connect handler has been called once the handshake is over; while
    the handshake lasts, either the handler has been called or one operation
    of the handshake is in flight. *)
Definition connect_on_its_way w : Prop :=
  (running (state_machine_ (flow w)) = true →
   length (connect_calls (trace w)) = 1) ∧
  (state_machine_ (flow w) = FlowStateMachine.Connecting →
   length (connects (data_flow_ w)) + length (reads (data_flow_ w)) +
   length (writes (data_flow_ w)) + length (connect_calls (trace w)) = 1).

(** The steps that may pass an error to a read or write handler: a transfer
    that finds an error kept in [pending_error_], and the completion of an
    operation of the steady state that fails or finds one. *)
Definition may_deliver_error (s : Step) w : bool :=
  running (state_machine_ (flow w)) &&
  match s with
  | CallRead _ _ | CallWrite _ _ => Error_bool (pending_error_ (flow w))
  | ReadCompletes _ e | WriteCompletes e =>
      Error_bool e ||
      (Error_bool (pending_error_ (flow w)) && negb (error_reported_ (flow w)))
  | _ => false
  end.

(** What a handler does commutes with the emptying of the slot of the
    connect handler. *)
Definition leaves_connect_slot (body : M T unit) : Prop :=
  ∀ w, bind body (λ _, modify (set_connect_handler_ None)) w =
       bind (modify (set_connect_handler_ None)) (λ _, body) w.

End Answers.

(** ** Handlers that call the flow *)

(** A user handler is a function of the user: it may call the flow before
    it returns.  The member functions and closure bodies that call a handler
    are written here once more, with the handler running [body] before it
    returns; the functions above are the case of a handler that returns at
    once. *)
Section Reentrancy.

Context {T : Type} `{TlsTunnel.Ops T}.

Local Notation "x <- m ;; k" := (bind m (fun x => k))
  (at level 100, m at next level, right associativity).
Local Notation "m ;; k" := (bind m (fun _ => k))
  (at level 100, right associativity).

Variable body : M T unit.

Definition ReadReportError_calling (error : Error) : M T bool :=
  slot <- get read_handler_ ;;
  if armed slot then
    let handler := slot in
    call_read_handler handler [] error ;; body ;;
    modify (set_read_handler_ None) ;;
    ret true
  else ret false.

Definition WriteReportError_calling (error : Error) : M T bool :=
  slot <- get write_handler_ ;;
  if armed slot then
    let handler := slot in
    call_write_handler handler error ;; body ;;
    modify (set_write_handler_ None) ;;
    ret true
  else ret false.

Definition ReportError_calling (error : Error) (try_read_first : bool)
    : M T bool :=
  first <- (if try_read_first then ReadReportError_calling error
            else WriteReportError_calling error) ;;
  if first then ret true
  else if try_read_first then WriteReportError_calling error
       else ReadReportError_calling error.

Definition Process_calling : M T unit :=
  reported <- get error_reported_ ;;
  if reported then ret tt
  else
    pending <- get pending_error_ ;;
    if Error_bool pending then
      delivered <- ReportError_calling pending true ;;
      if delivered then modify (set_error_reported_ true) else ret tt
    else
      TryRead ;; TryWrite.

Definition HandShake_calling : M T unit :=
  action <- tunnel_call TlsTunnel.HandShake ;;
  match action with
  | TlsTunnel.Success =>
      b <- tunnel_call TlsTunnel.ReadCipherTextData ;;
      if Buffer_bool b then
        cancelable <- get connect_cancelable_ ;;
        c <- next_hop_Write b (HandShakeWrite cancelable) ;;
        modify (set_write_cancelable_ c)
      else
        transition FlowStateMachine.Connected ;;
        handler <- get connect_handler_ ;;
        call_connect_handler handler None ;; body ;;
        modify (set_connect_handler_ None)
  | TlsTunnel.WantIo =>
      b <- tunnel_call TlsTunnel.ReadCipherTextData ;;
      if Buffer_bool b then
        cancelable <- get connect_cancelable_ ;;
        c <- next_hop_Write b (HandShakeWrite cancelable) ;;
        modify (set_write_cancelable_ c)
      else
        cancelable <- get connect_cancelable_ ;;
        c <- next_hop_Read 8192%N (HandShakeRead cancelable) ;;
        modify (set_read_cancelable_ c)
  | TlsTunnel.Error =>
      transition FlowStateMachine.Errored ;;
      handler <- get connect_handler_ ;;
      call_connect_handler handler (Some GeneralError) ;; body
  end.

Definition Read_calling (buffer : Buffer) (handler : DataEventHandler)
    : M T Cancelable :=
  reported <- get error_reported_ ;;
  BOOST_ASSERT (negb reported) ;;
  c <- new_Cancelable ;;
  modify (set_read_cancelable_ c) ;;
  modify (set_read_handler_ (Some handler)) ;;
  transition FlowStateMachine.ReadBegin ;;
  Process_calling ;;
  get read_cancelable_.

Definition Write_calling (buffer : Buffer) (handler : EventHandler)
    : M T Cancelable :=
  reported <- get error_reported_ ;;
  BOOST_ASSERT (negb reported) ;;
  c <- new_Cancelable ;;
  modify (set_write_cancelable_ c) ;;
  modify (set_write_handler_ (Some handler)) ;;
  transition FlowStateMachine.WriteBegin ;;
  tunnel_update (TlsTunnel.WritePlainTextData buffer) ;;
  Process_calling ;;
  get write_cancelable_.

Definition run_ConnectCallback_calling (k : ConnectCallback) (error : Error)
    : M T unit :=
  match k with
  | ConnectDone cancelable =>
      stale <- is_canceled cancelable ;;
      if stale then ret tt
      else if Error_bool error then
        handler <- get connect_handler_ ;;
        call_connect_handler handler error ;; body
      else HandShake_calling
  end.

Definition run_WriteCallback_calling (k : WriteCallback) (error : Error)
    : M T unit :=
  match k with
  | HandShakeWrite cancelable =>
      stale <- is_canceled cancelable ;;
      if stale then ret tt
      else if Error_bool error then
        transition FlowStateMachine.Errored ;;
        handler <- get connect_handler_ ;;
        call_connect_handler handler error ;; body
      else HandShake_calling
  | NextHopWrite cancelable =>
      stale <- is_canceled cancelable ;;
      if stale then ret tt
      else if Error_bool error then
        delivered <- ReportError_calling error false ;;
        if negb delivered then modify (set_pending_error_ error)
        else modify (set_error_reported_ true)
      else Process_calling
  end.

Definition run_ReadCallback_calling (k : ReadCallback) (buffer : Buffer)
    (error : Error) : M T unit :=
  match k with
  | HandShakeRead cancelable =>
      stale <- is_canceled cancelable ;;
      if stale then ret tt
      else if Error_bool error then
        transition FlowStateMachine.Errored ;;
        handler <- get connect_handler_ ;;
        call_connect_handler handler error ;; body
      else
        tunnel_update (TlsTunnel.WriteCipherTextData buffer) ;;
        errored <- tunnel_query TlsTunnel.Errored ;;
        BOOST_ASSERT (negb errored) ;;     (* NE_TLS_TUNNEL_CHECK_ERROR *)
        HandShake_calling
  | NextHopRead cancelable =>
      stale <- is_canceled cancelable ;;
      if stale then ret tt
      else if Error_bool error then
        delivered <- ReportError_calling error true ;;
        if negb delivered then modify (set_pending_error_ error)
        else modify (set_error_reported_ true)
      else
        tunnel_update (TlsTunnel.WriteCipherTextData buffer) ;;
        Process_calling
  end.

Definition run_Posted_calling (p : Posted) : M T unit :=
  match p with
  | DeliverRead buffer cancelable =>
      stale <- is_canceled cancelable ;;
      if stale then ret tt
      else
        transition FlowStateMachine.ReadEnd ;;
        handler <- get read_handler_ ;;
        modify (set_read_handler_ None) ;;
        call_read_handler handler buffer None ;; body
  | DeliverWrite cancelable =>
      stale <- is_canceled cancelable ;;
      if stale then ret tt
      else
        transition FlowStateMachine.WriteEnd ;;
        handler <- get write_handler_ ;;
        modify (set_write_handler_ None) ;;
        call_write_handler handler None ;; body
  end.

(** A step of the environment in which the handlers run [body]. *)
Definition exec_calling (s : Step) : M T unit :=
  match s with
  | CallConnect endpoint handler => Connect endpoint handler ;; ret tt
  | CallRead buffer handler => Read_calling buffer handler ;; ret tt
  | CallWrite buffer handler => Write_calling buffer handler ;; ret tt
  | CallCloseWrite handler => CloseWrite handler ;; ret tt
  | CallCancel c => Cancel c
  | Destroy => Destructor
  | RunloopTurn => p <- take_posted ;; run_Posted_calling p
  | ConnectCompletes error =>
      p <- take_connect ;;
      absorbed <- is_canceled (pc_token p) ;;
      if absorbed then ret tt
      else run_ConnectCallback_calling (pc_callback p) error
  | ReadCompletes buffer error =>
      p <- take_read ;;
      if negb (N.of_nat (length buffer) <=? pr_capacity p)%N then abort NotEnabled
      else
        absorbed <- is_canceled (pr_token p) ;;
        if absorbed then ret tt
        else run_ReadCallback_calling (pr_callback p) buffer error
  | WriteCompletes error =>
      p <- take_write ;;
      absorbed <- is_canceled (pw_token p) ;;
      if absorbed then ret tt
      else run_WriteCallback_calling (pw_callback p) error
  end.

(** [m], and then [body] if [m] has called a handler. *)
Definition and_when_called (m : M T unit) : M T unit :=
  fun w =>
    match m w with
    | Done _ w' =>
        if (length (trace w') =? length (trace w))%nat then Done tt w'
        else body w'
    | Abort f => Abort f
    end.

End Reentrancy.

Section ReentrantRuns.

Context {T : Type} `{TlsTunnel.Ops T}.
Implicit Types w : World T.

(** A run in which handlers call the flow: each step of the environment
    comes with the calls that the handler it invokes makes before it
    returns. *)
Fixpoint run_calling (script : list (Step * list Step)) : M T unit :=
  match script with
  | [] => ret tt
  | (s, calls) :: rest =>
      bind (exec_calling (run calls) s) (λ _, run_calling rest)
  end.

(** The calls are calls that a handler may make, and they are made outside
    of the steps that may deliver an error to a read or write handler. *)
Fixpoint outside_error_deliveries (script : list (Step * list Step)) w
    : Prop :=
  match script with
  | [] => True
  | (s, calls) :: rest =>
      Forall (λ c, in_callback c = true) calls ∧
      (calls = [] ∨ may_deliver_error s w = false) ∧
      ∀ w', exec_calling (run calls) s w = Done tt w' →
            outside_error_deliveries rest w'
  end.

(** The steps and the calls in the order in which they run, given for each
    step whether it calls a handler. *)
Definition played (script : list (Step * list Step)) (called : list bool)
    : list Step :=
  concat (zip_with (λ r (b : bool), r.1 :: if b then r.2 else []) script called).

End ReentrantRuns.

(** ** Further statements of the specification that the code does not meet *)

Section FurtherClaims.

Context {T : Type} `{TlsTunnel.Ops T}.
Implicit Types w : World T.

(** "The handler is invoked exactly once", for a read whose own token is
    live: when the run has come to rest with no error reported, the handler
    has been called. *)
Definition armed_read_is_delivered (t : T) : Prop :=
  ∀ pre post buffer handler c w0 w1 w2,
    run pre (initial t) = Done tt w0 →
    Read buffer handler w0 = Done c w1 →
    run post w1 = Done tt w2 →
    quiescent w2 → c ∉ canceled w2 → error_reported_ (flow w2) = false →
    handler ∈ read_calls (trace w2).

(** "The handler is invoked exactly once", for a read handler that calls the
    flow before it returns: within the [Read] call it is not called
    twice. *)
Definition calling_read_handler_is_called_once (t : T) : Prop :=
  ∀ script calls buffer handler c w w',
    run script (initial t) = Done tt w →
    Forall (λ s, in_callback s = true) calls →
    handler ∉ read_calls (trace w) →
    Read_calling (run calls) buffer handler w = Done c w' →
    length (filter (eq handler) (read_calls (trace w'))) ≤ 1.

End FurtherClaims.

(** ** A build without assertions *)

Section Release.

Context {T : Type} `{TlsTunnel.Ops T}.

Local Notation "x <- m ;; k" := (bind m (fun x => k))
  (at level 100, m at next level, right associativity).
Local Notation "m ;; k" := (bind m (fun _ => k))
  (at level 100, right associativity).

(** The continuation of the read of [HandShake] in a build with [NDEBUG]:
    [NE_TLS_TUNNEL_CHECK_ERROR] is an [assert] and expands to nothing. *)
Definition run_HandShakeRead_NDEBUG (cancelable : Cancelable) (buffer : Buffer)
    (error : Error) : M T unit :=
  stale <- is_canceled cancelable ;;
  if stale then ret tt
  else if Error_bool error then
    transition FlowStateMachine.Errored ;;
    handler <- get connect_handler_ ;;
    call_connect_handler handler error
  else
    tunnel_update (TlsTunnel.WriteCipherTextData buffer) ;;
    HandShake.

End Release.

(** A tunnel that waits for the server's first flight and answers with an
    error in the next cycle, as an engine does that has been fed an alert. *)
Definition rejecting : ScriptedTunnel.t :=
  ScriptedTunnel.make [(TlsTunnel.WantIo, []); (TlsTunnel.Error, [])] false.

(** A tunnel whose engine has a step of its own left after the handshake:
    the bytes it is fed give it no plaintext to hand out. *)
Definition lingering : ScriptedTunnel.t :=
  ScriptedTunnel.make [(TlsTunnel.Success, []); (TlsTunnel.Success, [])] false.

(** ** Tactics *)

(** Unfolding of the monad and of the primitive operations. *)
Ltac unfold_prims :=
  unfold call_read_handler, call_write_handler, call_connect_handler,
    tunnel_query, tunnel_call, tunnel_update,
    next_hop_query, next_hop_Connect, next_hop_Read, next_hop_Write,
    NextHop_IsReading, NextHop_IsWriting, Post, emit, new_Cancelable,
    is_canceled, transition, BOOST_ASSERT, armed, Error_bool,
    FlowStateMachine.ConnectBegin, FlowStateMachine.Connected,
    FlowStateMachine.ReadBegin, FlowStateMachine.ReadEnd,
    FlowStateMachine.WriteBegin, FlowStateMachine.WriteEnd,
    FlowStateMachine.Errored,
    bind, get, modify, ret, abort in *.

(** Unfolding of every member function, closure body and step. *)
Ltac unfold_flow :=
  unfold exec, Connect, Read, Write, CloseWrite, Destructor, Cancel,
    run_Posted, run_ConnectCallback, run_ReadCallback, run_WriteCallback,
    take_posted, take_connect, take_read, take_write,
    HandShake, Process, ReportError, ReadReportError, WriteReportError,
    TryRead, TryWrite, TryReadNextHop, TryWriteNextHop in *;
  unfold_prims.

Ltac open_world w := destruct w as [[] [] ? ? ? ?].

(** Case analysis along every path of a run: on what a hypothesis or the
    goal branches on, innermost first in the goal. *)
Ltac run_all :=
  repeat (simpl in *;
    match goal with
    | H : context [match ?x with _ => _ end] |- _ => destruct x eqn:?; simplify_eq
    | |- context [match ?x with _ => _ end] => destruct x eqn:?; simplify_eq
    end);
  simplify_eq.

Ltac split_matches :=
  repeat (simpl;
    match goal with
    | |- context [match ?x with _ => _ end] =>
        lazymatch x with
        | context [match _ with _ => _ end] => fail
        | _ => destruct x eqn:?
        end
    end);
  simpl.

Ltac by_computation := vm_compute; repeat split; reflexivity.
Ltac decide_by_computation :=
  apply (bool_decide_unpack _); vm_compute; exact I.

(** ** What the steps do to the view *)

Section Effects.
Context {T : Type} `{TlsTunnel.Ops T}.
Implicit Types w : World T.

Lemma read_calls_snoc evs e :
  read_calls (evs ++ [e]) =
  read_calls evs ++ match e with ReadHandlerCalled h _ _ _ => [h] | _ => [] end.
Proof. unfold read_calls. rewrite omap_app. simpl. by destruct e. Qed.

Lemma write_calls_snoc evs e :
  write_calls (evs ++ [e]) =
  write_calls evs ++ match e with WriteHandlerCalled h _ _ => [h] | _ => [] end.
Proof. unfold write_calls. rewrite omap_app. simpl. by destruct e. Qed.

Lemma connect_calls_snoc evs e :
  connect_calls (evs ++ [e]) =
  connect_calls evs ++ match e with ConnectHandlerCalled h _ _ => [h] | _ => [] end.
Proof. unfold connect_calls. rewrite omap_app. simpl. by destruct e. Qed.

(** The goals left at the end of a path: conjunctions, disjunctions and
    existentials of equations, closed by what the run has established. *)
Ltac eff :=
  lazymatch goal with
  | |- _ ∧ _ => split; eff
  | |- _ ∨ _ => first [ solve [left; eff] | solve [right; eff] ]
  | |- ∃ _, _ => eexists; eff
  | |- steady _ _ =>
      first [ eassumption
            | unfold steady, slot_moved, issued_read, issued_write; simpl;
              rewrite ?read_calls_snoc, ?write_calls_snoc, ?connect_calls_snoc;
              simpl; rewrite ?app_nil_r; eff ]
  | |- handshaking _ _ =>
      first [ eassumption
            | unfold handshaking; simpl;
              rewrite ?read_calls_snoc, ?write_calls_snoc, ?connect_calls_snoc;
              simpl; rewrite ?app_nil_r; eff ]
  | |- _ => solve [reflexivity | eassumption | lia | congruence]
  end.

(** The effect to prove and the facts of the path, in normal form. *)
Ltac unfold_effects :=
  unfold step_effect, view, drop_connect, drop_read, drop_write,
    FlowStateMachine.ReadBegin, FlowStateMachine.WriteBegin,
    FlowStateMachine.ReadEnd, FlowStateMachine.WriteEnd in *;
  simpl in *; subst; simpl in *;
  unfold is_handshake_read, is_handshake_write in *;
  repeat match goal with
  | H : pr_callback ?a = _, H' : context [pr_callback ?a] |- _ =>
      rewrite H in H'
  | H : pw_callback ?a = _, H' : context [pw_callback ?a] |- _ =>
      rewrite H in H'
  end;
  try discriminate.

Lemma ReportError_steady error first w d w' :
  ReportError error first w = Done d w' → steady (view w) (view w').
Proof.
  open_world w.
  unfold ReportError, ReadReportError, WriteReportError; unfold_prims.
  intros Hrun. run_all; unfold_effects; eff.
Qed.

Lemma Process_steady w a w' : Process w = Done a w' → steady (view w) (view w').
Proof.
  open_world w.
  unfold Process, ReportError, ReadReportError, WriteReportError,
    TryRead, TryWrite, TryReadNextHop, TryWriteNextHop; unfold_prims.
  intros Hrun. run_all; unfold_effects; eff.
Qed.

Lemma HandShake_handshaking w a w' :
  HandShake w = Done a w' → handshaking (view w) (view w').
Proof.
  open_world w. unfold HandShake; unfold_prims.
  intros Hrun. run_all; unfold_effects; eff.
Qed.

(** From here on the three functions are used through their summaries. *)
Local Opaque Process HandShake ReportError.

Ltac use_summaries :=
  repeat match goal with
  | H : Process _ = Done _ _ |- _ => apply Process_steady in H
  | H : HandShake _ = Done _ _ |- _ => apply HandShake_handshaking in H
  | H : ReportError _ _ _ = Done _ _ |- _ => apply ReportError_steady in H
  end.

Lemma exec_effect s w w' :
  exec s w = Done tt w' → step_effect s (view w) (view w').
Proof.
  destruct s; open_world w; intros Hrun;
    unfold exec, Connect, Read, Write, CloseWrite, Destructor, Cancel,
      run_Posted, run_ConnectCallback, run_ReadCallback, run_WriteCallback,
      take_posted, take_connect, take_read, take_write in *;
    unfold_prims.
  all: run_all; use_summaries; unfold_effects; eff.
Qed.

(** *** The shape of the queues is invariant *)

Lemma shape_running v :
  running (v_state v) = true →
  shape v ↔
    connects (v_next v) = [] ∧
    forallb (λ p, negb (is_handshake_read p)) (reads (v_next v)) = true ∧
    forallb (λ p, negb (is_handshake_write p)) (writes (v_next v)) = true ∧
    length (reads (v_next v)) ≤ 1 ∧ length (writes (v_next v)) ≤ 1 ∧
    length (connect_calls (v_trace v)) ≤ 1.
Proof. unfold shape. by destruct (v_state v). Qed.

Lemma steady_shape v v' :
  steady v v' → running (v_state v) = true → shape v → shape v'.
Proof.
  intros (Hs & Hc & Hr & Hw & _ & _ & Hcc) Hrun Hv.
  apply shape_running in Hv; [|done].
  apply shape_running; [by rewrite Hs|].
  destruct Hv as (? & ? & ? & ? & ? & ?).
  rewrite Hc, Hcc.
  destruct Hr as [Hr | [_ (c & t & Hr)]], Hw as [Hw | [_ (b & c' & t' & Hw)]];
    rewrite Hr, Hw; simpl; repeat split; try done; lia.
Qed.

Lemma handshaking_shape v v' :
  handshaking v v' →
  v_state v = FlowStateMachine.Connecting →
  connects (v_next v) = [] → reads (v_next v) = [] → writes (v_next v) = [] →
  connect_calls (v_trace v) = [] →
  shape v'.
Proof.
  destruct v as [st [cs rs ws] rd wr evs], v' as [st' [cs' rs' ws'] rd' wr' evs'].
  unfold handshaking, shape; simpl.
  intros (_ & _ & _ & _ & -> & Hcases) -> -> -> -> Hcc.
  destruct Hcases as
    [(-> & -> & [(-> & c & t & ->) | (-> & b & c & t & ->)])
    | (-> & -> & (h & ->) & [-> | Hs'])];
    rewrite ?Hcc; simpl; try (repeat split; try done; lia).
  destruct st'; try done; simpl; repeat split; try done; lia.
Qed.

Lemma shape_step s v v' : step_effect s v v' → shape v → shape v'.
Proof.
  destruct v as [st [cs rs ws] rd wr evs], v' as [st' [cs' rs' ws'] rd' wr' evs'].
  destruct s; simpl.
  - (* Connect *)
    intros (-> & -> & (p & ->) & -> & -> & _ & _ & ->).
    unfold shape; simpl. intros (-> & -> & -> & ->). simpl.
    repeat split; try done; lia.
  - (* Read *)
    intros (s1 & Hb & Hst) Hv.
    assert (running st = true ∧ running s1 = true) as [Hr Hr1].
    { destruct st; simplify_eq/=; done. }
    eapply steady_shape; [exact Hst|done|].
    apply shape_running; [done|]. by apply shape_running in Hv.
  - (* Write *)
    intros (s1 & Hb & Hst) Hv.
    assert (running st = true ∧ running s1 = true) as [Hr Hr1].
    { destruct st; simplify_eq/=; done. }
    eapply steady_shape; [exact Hst|done|].
    apply shape_running; [done|]. by apply shape_running in Hv.
  - by intros ->.
  - by intros ->.
  - by intros ->.
  - (* a turn of the runloop *)
    intros [-> | [(h & -> & He & Hn & -> & -> & b & ->)
                 | (h & -> & He & Hn & -> & -> & ->)]] Hv; [done|..].
    + assert (running st = true ∧ running st' = true) as [Hr Hr1].
      { destruct st; simplify_eq/=; done. }
      apply shape_running; [done|]. apply shape_running in Hv; [|done].
      simpl in *. rewrite connect_calls_snoc, app_nil_r. by simplify_eq.
    + assert (running st = true ∧ running st' = true) as [Hr Hr1].
      { destruct st; simplify_eq/=; done. }
      apply shape_running; [done|]. apply shape_running in Hv; [|done].
      simpl in *. rewrite connect_calls_snoc, app_nil_r. by simplify_eq.
  - (* the connect completes *)
    destruct cs as [|p cs]; [done|]. intros Heff Hv.
    assert (st = FlowStateMachine.Connecting ∧ cs = [] ∧ rs = [] ∧ ws = [] ∧
            connect_calls evs = []) as (-> & -> & -> & -> & Hcc).
    { unfold shape in Hv; simpl in Hv. destruct st; try (by destruct Hv).
      destruct Hv as (_ & _ & Hle). simpl in Hle.
      destruct cs, rs, ws, (connect_calls evs); simpl in *; try lia. done. }
    destruct Heff as [Heq | Hhs].
    + unfold drop_connect in Heq; simplify_eq/=.
      unfold shape; simpl. rewrite Hcc. simpl. repeat split; try done; lia.
    + eapply handshaking_shape; [exact Hhs|done..].
  - (* a read completes *)
    destruct rs as [|p rs]; [done|]. intros Heff Hv.
    destruct (running st) eqn:Hr.
    + apply shape_running in Hv; [|done]. simpl in Hv.
      destruct Hv as (-> & Hk & ? & Hle & ? & ?).
      apply andb_prop in Hk as [Hk _]. apply negb_true_iff in Hk.
      rewrite Hk in Heff.
      assert (rs = []) as -> by (destruct rs; simpl in *; [done|lia]).
      assert (shape (drop_read
        {| v_state := st;
           v_next := {| connects := []; reads := [p]; writes := ws |};
           v_read := rd; v_write := wr; v_trace := evs |})) as Hd.
      { apply shape_running; [done|]. simpl. repeat split; try done; lia. }
      destruct Heff as [-> | Hst]; [done|].
      eapply steady_shape; [exact Hst|done|done].
    + assert (st = FlowStateMachine.Connecting ∧ cs = [] ∧ rs = [] ∧ ws = [] ∧
              connect_calls evs = [] ∧ is_handshake_read p = true)
        as (-> & -> & -> & -> & Hcc & Hk).
      { unfold shape in Hv; simpl in Hv. destruct st; try done.
        - by destruct Hv as (_ & ? & _).
        - destruct Hv as (Hk & _ & Hle). simpl in Hle.
          apply andb_prop in Hk as [Hk _].
          destruct cs, rs, ws, (connect_calls evs); simpl in *; try lia. done. }
      rewrite Hk in Heff. destruct Heff as [Heq | Hhs].
      * unfold drop_read in Heq; simplify_eq/=.
        unfold shape; simpl. rewrite Hcc. simpl. repeat split; try done; lia.
      * eapply handshaking_shape; [exact Hhs|done..].
  - (* a write completes *)
    destruct ws as [|p ws]; [done|]. intros Heff Hv.
    destruct (running st) eqn:Hr.
    + apply shape_running in Hv; [|done]. simpl in Hv.
      destruct Hv as (-> & ? & Hk & ? & Hle & ?).
      apply andb_prop in Hk as [Hk _]. apply negb_true_iff in Hk.
      rewrite Hk in Heff.
      assert (ws = []) as -> by (destruct ws; simpl in *; [done|lia]).
      assert (shape (drop_write
        {| v_state := st;
           v_next := {| connects := []; reads := rs; writes := [p] |};
           v_read := rd; v_write := wr; v_trace := evs |})) as Hd.
      { apply shape_running; [done|]. simpl. repeat split; try done; lia. }
      destruct Heff as [-> | Hst]; [done|].
      eapply steady_shape; [exact Hst|done|done].
    + assert (st = FlowStateMachine.Connecting ∧ cs = [] ∧ rs = [] ∧ ws = [] ∧
              connect_calls evs = [] ∧ is_handshake_write p = true)
        as (-> & -> & -> & -> & Hcc & Hk).
      { unfold shape in Hv; simpl in Hv. destruct st; try done.
        - by destruct Hv as (_ & _ & ? & _).
        - destruct Hv as (_ & Hk & Hle). simpl in Hle.
          apply andb_prop in Hk as [Hk _].
          destruct cs, rs, ws, (connect_calls evs); simpl in *; try lia. done. }
      rewrite Hk in Heff. destruct Heff as [Heq | Hhs].
      * unfold drop_write in Heq; simplify_eq/=.
        unfold shape; simpl. rewrite Hcc. simpl. repeat split; try done; lia.
      * eapply handshaking_shape; [exact Hhs|done..].
Qed.

(** *** One call for each handler armed *)

Lemma ledger_weaken {A} (slot : option A) called B C :
  ledger slot called B → ledger slot called (B ++ C).
Proof.
  intros [? Hin]. split; [done|].
  intros h Hh. rewrite elem_of_app. left. by apply Hin.
Qed.

Lemma slot_moved_ledger {A} (slot slot' : option A) called called' B :
  slot_moved slot slot' called called' →
  ledger slot called B → ledger slot' called' B.
Proof.
  intros [[-> ->] | (h & -> & -> & ->)] [Hnd Hin]; [done|].
  simpl in *. split.
  - by rewrite <-Permutation_cons_append.
  - intros x Hx. apply Hin.
    simpl in Hx. rewrite elem_of_app, list_elem_of_singleton in Hx.
    rewrite elem_of_cons. tauto.
Qed.

Lemma ledger_arm {A} (slot : option A) h called B :
  ledger slot called B → NoDup (B ++ [h]) → ledger (Some h) called (B ++ [h]).
Proof.
  intros [Hnd Hin] HB. apply NoDup_app in Hnd as (_ & _ & Hnd).
  apply NoDup_app in HB as (_ & Hfresh & _).
  assert (∀ x, x ∈ called → x ∈ B) as Hcalled.
  { intros x Hx. apply Hin. rewrite elem_of_app. by right. }
  split; simpl.
  - apply NoDup_cons. split; [|done].
    intros Hh. apply (Hfresh h); [by apply Hcalled|].
    by rewrite list_elem_of_singleton.
  - intros x Hx. rewrite elem_of_cons in Hx.
    rewrite elem_of_app, list_elem_of_singleton.
    destruct Hx as [->|Hx]; [by right|left; by apply Hcalled].
Qed.

Lemma steady_read_ledger v v' B :
  steady v v' →
  ledger (v_read v) (read_calls (v_trace v)) B →
  ledger (v_read v') (read_calls (v_trace v')) B.
Proof. intros (_ & _ & _ & _ & Hm & _). by apply slot_moved_ledger. Qed.

Lemma steady_write_ledger v v' B :
  steady v v' →
  ledger (v_write v) (write_calls (v_trace v)) B →
  ledger (v_write v') (write_calls (v_trace v')) B.
Proof. intros (_ & _ & _ & _ & _ & Hm & _). by apply slot_moved_ledger. Qed.

Lemma handshaking_read_ledger v v' B :
  handshaking v v' →
  ledger (v_read v) (read_calls (v_trace v)) B →
  ledger (v_read v') (read_calls (v_trace v')) B.
Proof. intros (-> & _ & -> & _). done. Qed.

Lemma handshaking_write_ledger v v' B :
  handshaking v v' →
  ledger (v_write v) (write_calls (v_trace v)) B →
  ledger (v_write v') (write_calls (v_trace v')) B.
Proof. intros (_ & -> & _ & -> & _). done. Qed.

Lemma read_ledger_step s v v' B :
  step_effect s v v' →
  ledger (v_read v) (read_calls (v_trace v)) B →
  NoDup (B ++ read_armings [s]) →
  ledger (v_read v') (read_calls (v_trace v')) (B ++ read_armings [s]).
Proof.
  destruct s; simpl; rewrite ?app_nil_r.
  - intros (_ & _ & _ & _ & _ & -> & _ & ->). done.
  - intros (s1 & _ & Hst) Hl HB.
    apply (steady_read_ledger _ _ _ Hst). simpl. by eapply ledger_arm.
  - intros (s1 & _ & Hst) Hl _. by apply (steady_read_ledger _ _ _ Hst).
  - by intros ->.
  - by intros ->.
  - by intros ->.
  - intros [-> | [(h & Hh & _ & _ & -> & _ & b & ->)
                 | (h & _ & _ & _ & _ & -> & ->)]] Hl _; [done|..].
    + eapply slot_moved_ledger; [|exact Hl].
      right. exists h. by rewrite read_calls_snoc.
    + by rewrite read_calls_snoc, app_nil_r.
  - destruct (connects (v_next v)); [done|].
    intros [-> | Hhs] Hl _; [done|]. by apply (handshaking_read_ledger _ _ _ Hhs).
  - destruct (reads (v_next v)) as [|p ?]; [done|].
    intros [-> | Heff] Hl _; [done|]. destruct (is_handshake_read p).
    + by apply (handshaking_read_ledger _ _ _ Heff).
    + by apply (steady_read_ledger _ _ _ Heff).
  - destruct (writes (v_next v)) as [|p ?]; [done|].
    intros [-> | Heff] Hl _; [done|]. destruct (is_handshake_write p).
    + by apply (handshaking_read_ledger _ _ _ Heff).
    + by apply (steady_read_ledger _ _ _ Heff).
Qed.

Lemma write_ledger_step s v v' B :
  step_effect s v v' →
  ledger (v_write v) (write_calls (v_trace v)) B →
  NoDup (B ++ write_armings [s]) →
  ledger (v_write v') (write_calls (v_trace v')) (B ++ write_armings [s]).
Proof.
  destruct s; simpl; rewrite ?app_nil_r.
  - intros (_ & _ & _ & _ & _ & _ & -> & ->). done.
  - intros (s1 & _ & Hst) Hl _. by apply (steady_write_ledger _ _ _ Hst).
  - intros (s1 & _ & Hst) Hl HB.
    apply (steady_write_ledger _ _ _ Hst). simpl. by eapply ledger_arm.
  - by intros ->.
  - by intros ->.
  - by intros ->.
  - intros [-> | [(h & _ & _ & _ & _ & -> & b & ->)
                 | (h & Hh & _ & _ & -> & _ & ->)]] Hl _; [done|..].
    + by rewrite write_calls_snoc, app_nil_r.
    + eapply slot_moved_ledger; [|exact Hl].
      right. exists h. by rewrite write_calls_snoc.
  - destruct (connects (v_next v)); [done|].
    intros [-> | Hhs] Hl _; [done|]. by apply (handshaking_write_ledger _ _ _ Hhs).
  - destruct (reads (v_next v)) as [|p ?]; [done|].
    intros [-> | Heff] Hl _; [done|]. destruct (is_handshake_read p).
    + by apply (handshaking_write_ledger _ _ _ Heff).
    + by apply (steady_write_ledger _ _ _ Heff).
  - destruct (writes (v_next v)) as [|p ?]; [done|].
    intros [-> | Heff] Hl _; [done|]. destruct (is_handshake_write p).
    + by apply (handshaking_write_ledger _ _ _ Heff).
    + by apply (steady_write_ledger _ _ _ Heff).
Qed.

(** *** The invariant along a run *)

Lemma run_cons s rest w w' :
  run (s :: rest) w = Done tt w' →
  ∃ w1, exec s w = Done tt w1 ∧ run rest w1 = Done tt w'.
Proof.
  simpl. unfold bind. destruct (exec s w) as [[] w1|]; [|done]. eauto.
Qed.

Lemma run_app pre post w w' :
  run (pre ++ post) w = Done tt w' →
  ∃ w1, run pre w = Done tt w1 ∧ run post w1 = Done tt w'.
Proof.
  revert w. induction pre as [|s pre IH]; intros w Hrun.
  - exists w. done.
  - rewrite <-app_comm_cons in Hrun. apply run_cons in Hrun as (w1 & Hs & Hrest).
    apply IH in Hrest as (w2 & Hpre & Hpost). exists w2. split; [|done].
    simpl. unfold bind. by rewrite Hs.
Qed.

Lemma run_invariant script : ∀ w w' Br Bw,
  run script w = Done tt w' →
  shape (view w) →
  ledger (read_handler_ (flow w)) (read_calls (trace w)) Br →
  ledger (write_handler_ (flow w)) (write_calls (trace w)) Bw →
  NoDup (Br ++ read_armings script) →
  NoDup (Bw ++ write_armings script) →
  shape (view w') ∧
  ledger (read_handler_ (flow w')) (read_calls (trace w'))
    (Br ++ read_armings script) ∧
  ledger (write_handler_ (flow w')) (write_calls (trace w'))
    (Bw ++ write_armings script).
Proof.
  induction script as [|s rest IH]; intros w w' Br Bw Hrun Hshape Hr Hw HBr HBw.
  - simpl in Hrun. unfold ret in Hrun. simplify_eq. simpl.
    rewrite !app_nil_r. done.
  - apply run_cons in Hrun as (w1 & Hs & Hrest).
    apply exec_effect in Hs.
    assert (read_armings (s :: rest) = read_armings [s] ++ read_armings rest)
      as Er by (by destruct s).
    assert (write_armings (s :: rest) = write_armings [s] ++ write_armings rest)
      as Ew by (by destruct s).
    rewrite Er, Ew in *. rewrite !app_assoc in *.
    eapply IH; [exact Hrest|..|done|done].
    + by eapply shape_step.
    + eapply (read_ledger_step _ _ _ _ Hs); [done|].
      by apply NoDup_app in HBr as (? & _ & _).
    + eapply (write_ledger_step _ _ _ _ Hs); [done|].
      by apply NoDup_app in HBw as (? & _ & _).
Qed.

Lemma initial_invariant (t : T) :
  shape (view (initial t)) ∧
  ledger (read_handler_ (flow (initial t))) (read_calls (trace (initial t))) [] ∧
  ledger (write_handler_ (flow (initial t))) (write_calls (trace (initial t))) [].
Proof.
  repeat split; simpl; try done; try apply NoDup_nil_2.
Qed.

End Effects.

(** ** The properties *)

Section Properties.

Context {T : Type} `{TlsTunnel.Ops T}.
Implicit Types w : World T.

(** A closure whose captured token is canceled returns at once. *)
Lemma stale_closure_returns w c :
  c ∈ canceled w →
  (∀ b, run_Posted (DeliverRead b c) w = Done tt w) ∧
  run_Posted (DeliverWrite c) w = Done tt w ∧
  (∀ e, run_ConnectCallback (ConnectDone c) e w = Done tt w) ∧
  (∀ b e, run_ReadCallback (HandShakeRead c) b e w = Done tt w) ∧
  (∀ b e, run_ReadCallback (NextHopRead c) b e w = Done tt w) ∧
  (∀ e, run_WriteCallback (HandShakeWrite c) e w = Done tt w) ∧
  (∀ e, run_WriteCallback (NextHopWrite c) e w = Done tt w).
Proof.
  intros Hc.
  unfold run_Posted, run_ConnectCallback, run_ReadCallback, run_WriteCallback,
    is_canceled, bind, ret.
  rewrite bool_decide_eq_true_2 by done. done.
Qed.

Lemma shape_bounds v :
  shape v →
  length (reads (v_next v)) ≤ 1 ∧ length (writes (v_next v)) ≤ 1 ∧
  length (connect_calls (v_trace v)) ≤ 1.
Proof.
  unfold shape. destruct (v_state v); simpl; intros Hv;
    try (destruct Hv as (_ & _ & _ & ? & ? & ?); done).
  - destruct Hv as (_ & -> & -> & ->). simpl. lia.
  - destruct Hv as (_ & _ & ?). lia.
Qed.

(** C8.  In every run from a new flow, at every instant, the next hop has at
    most one read and at most one write of the flow in flight; and
    [TryReadNextHop] (resp. [TryWriteNextHop]) does nothing when the next
    hop's state machine says that a read (resp. a write) is in flight. *)
Theorem at_most_one_inner_read_and_one_inner_write (t : T) script w :
  run script (initial t) = Done tt w →
  length (reads (data_flow_ w)) ≤ 1 ∧
  length (writes (data_flow_ w)) ≤ 1 ∧
  (NextHop_IsReading (data_flow_ w) = true → TryReadNextHop w = Done tt w) ∧
  (NextHop_IsWriting (data_flow_ w) = true → TryWriteNextHop w = Done tt w).
Proof.
  intros Hrun.
  destruct (initial_invariant t) as (Hs0 & Hr0 & Hw0).
  assert (shape (view w)) as Hs.
  { revert Hrun Hs0. generalize (initial t). clear Hr0 Hw0.
    induction script as [|s rest IH]; intros w0 Hrun Hs0.
    - simpl in Hrun. unfold ret in Hrun. by simplify_eq.
    - apply run_cons in Hrun as (w1 & Hs & Hrest).
      apply (IH w1); [done|]. eapply shape_step; [|done]. by apply exec_effect. }
  apply shape_bounds in Hs as (? & ? & _). simpl in *.
  split_and!; try done.
  - intros Hreading. unfold TryReadNextHop, next_hop_query, bind, ret.
    by rewrite Hreading.
  - intros Hwriting. unfold TryWriteNextHop, next_hop_query, bind, ret.
    by rewrite Hwriting.
Qed.

(** C9.  [CloseWrite] returns the current write cancelable and leaves the
    world as it is: no handler is called, nothing changes in the flow, the
    tunnel or the next hop. *)
Theorem CloseWrite_is_a_placeholder (handler : EventHandler) w :
  CloseWrite handler w = Done (write_cancelable_ (flow w)) w ∧
  exec (CallCloseWrite handler) w = Done tt w.
Proof. done. Qed.

(** C2.  [ReportError] tries the preferred side first: a read handler is
    called with an empty buffer and the error, a write handler with the
    error; the slot of the handler called is emptied and the result is
    [true]; with no handler on the preferred side the other side is tried in
    the same way; with no handler at all the result is [false] and nothing
    changes.  A completion at the next hop that finds no handler stores the
    error in [pending_error_], and the next [Read] or [Write] makes [Process]
    pass it to the handler just armed and set [error_reported_]. *)
Theorem ReportError_policy w (e : ErrorCode) :
  (∀ try_read_first,
     ReportError (Some e) try_read_first w =
     if try_read_first then
       match read_handler_ (flow w), write_handler_ (flow w) with
       | Some h, _ => Done true (read_error_delivered h (Some e) w)
       | None, Some h => Done true (write_error_delivered h (Some e) w)
       | None, None => Done false w
       end
     else
       match write_handler_ (flow w), read_handler_ (flow w) with
       | Some h, _ => Done true (write_error_delivered h (Some e) w)
       | None, Some h => Done true (read_error_delivered h (Some e) w)
       | None, None => Done false w
       end) ∧
  (read_handler_ (flow w) = None → write_handler_ (flow w) = None →
   ∀ c, c ∉ canceled w →
     (∀ b, run_ReadCallback (NextHopRead c) b (Some e) w =
           Done tt (set_flow (set_pending_error_ (Some e) (flow w)) w)) ∧
     run_WriteCallback (NextHopWrite c) (Some e) w =
       Done tt (set_flow (set_pending_error_ (Some e) (flow w)) w)) ∧
  (pending_error_ (flow w) = Some e → error_reported_ (flow w) = false →
   (∀ b h s1,
      FlowStateMachine.ReadBegin (state_machine_ (flow w)) = Some s1 →
      ∃ w', Read b h w = Done (fresh w) w' ∧
            trace w' = trace w ++ [ReadHandlerCalled h [] (Some e) (Some h)] ∧
            read_handler_ (flow w') = None ∧
            error_reported_ (flow w') = true) ∧
   (∀ b h s1,
      read_handler_ (flow w) = None →
      FlowStateMachine.WriteBegin (state_machine_ (flow w)) = Some s1 →
      ∃ w', Write b h w = Done (fresh w) w' ∧
            trace w' = trace w ++ [WriteHandlerCalled h (Some e) (Some h)] ∧
            write_handler_ (flow w') = None ∧
            error_reported_ (flow w') = true)).
Proof.
  split_and!.
  - intros [];
      unfold ReportError, ReadReportError, WriteReportError; unfold_prims;
      simpl; destruct (read_handler_ (flow w)) eqn:Er,
               (write_handler_ (flow w)) eqn:Ew; simpl;
      rewrite ?Er, ?Ew; simpl; rewrite ?Er, ?Ew; done.
  - intros Er Ew c Hc.
    unfold run_ReadCallback, run_WriteCallback, ReportError, ReadReportError,
      WriteReportError; unfold_prims.
    rewrite bool_decide_eq_false_2 by done. simpl.
    rewrite Er, Ew. simpl. rewrite Er. done.
  - destruct w as [[] ? ? ? ? ?]; simpl. intros -> ->. split.
    + intros b h s1 Hb. eexists.
      unfold Read, Process, ReportError, ReadReportError; unfold_prims.
      simpl. rewrite Hb. simpl. split_and!; reflexivity.
    + intros b h s1 -> Hb. eexists.
      unfold Write, Process, ReportError, ReadReportError, WriteReportError;
        unfold_prims.
      simpl. rewrite Hb. simpl. split_and!; reflexivity.
Qed.

(** No step of the environment other than the destructor looks at
    [next_read_cancelable_] or [next_write_cancelable_]. *)
Lemma next_tokens_are_never_read s w :
  s ≠ Destroy →
  forget_next_result (exec s (forget_next w)) = forget_next_result (exec s w).
Proof.
  intros Hs. destruct s; try done; destruct w as [[] [] ? ? ? ?];
    unfold forget_next_result, forget_next; unfold_flow.
  all: split_matches; reflexivity.
Qed.

(** C10.  The continuation that [TryReadNextHop] gives to the next hop
    captures [read_cancelable_] and the one of [TryWriteNextHop] captures
    [write_cancelable_]; the tokens that the next hop returns are stored in
    [next_read_cancelable_] and [next_write_cancelable_], which no step other
    than the destructor looks at and which the destructor cancels.  Once the
    captured token is canceled, a completion that arrives returns at once:
    the tunnel is not fed, no error is recorded, [Process] is not called. *)
Theorem next_hop_callbacks_guard_on_user_tokens w :
  (NextHop_IsReading (data_flow_ w) = false →
   ∃ w', TryReadNextHop w = Done tt w' ∧
         reads (data_flow_ w') = [next_hop_read_of w] ∧
         next_read_cancelable_ (flow w') = pr_token (next_hop_read_of w)) ∧
  (NextHop_IsWriting (data_flow_ w) = false →
   TlsTunnel.FinishWritingCipherData (tunnel_ (flow w)) = false →
   ∃ w', TryWriteNextHop w = Done tt w' ∧
         writes (data_flow_ w') = [next_hop_write_of w] ∧
         next_write_cancelable_ (flow w') = pw_token (next_hop_write_of w)) ∧
  (∀ c, c ∈ canceled w →
     (∀ b e, run_ReadCallback (NextHopRead c) b e w = Done tt w) ∧
     (∀ e, run_WriteCallback (NextHopWrite c) e w = Done tt w)) ∧
  (∀ s, s ≠ Destroy →
     forget_next_result (exec s (forget_next w)) =
     forget_next_result (exec s w)) ∧
  (∃ w', Destructor w = Done tt w' ∧
         next_read_cancelable_ (flow w) ∈ canceled w' ∧
         next_write_cancelable_ (flow w) ∈ canceled w').
Proof.
  split_and!.
  - unfold NextHop_IsReading. destruct (reads (data_flow_ w)) eqn:Er; [|done].
    intros _. eexists. unfold TryReadNextHop; unfold_prims. simpl.
    rewrite Er. simpl. split; [reflexivity|]. simpl. by rewrite Er.
  - unfold NextHop_IsWriting. destruct (writes (data_flow_ w)) eqn:Ew; [|done].
    intros _ Hf. unfold next_hop_write_of.
    destruct (TlsTunnel.ReadCipherTextData (tunnel_ (flow w))) as [b t'] eqn:Eb.
    eexists. unfold TryWriteNextHop; unfold_prims. simpl.
    rewrite Ew, Hf. simpl. rewrite Eb. simpl.
    split; [reflexivity|]. simpl. by rewrite Ew.
  - intros c Hc.
    destruct (stale_closure_returns w c Hc) as (_ & _ & _ & _ & ? & _ & ?).
    done.
  - intros s Hs. by apply next_tokens_are_never_read.
  - eexists. unfold Destructor, Cancel; unfold_prims. simpl.
    split_and!; [reflexivity|set_solver..].
Qed.

(** One cycle of the handshake driver, by what [tunnel_.HandShake()]
    answers and what ciphertext it leaves.  On Success or WantIo with
    ciphertext, one inner write of that ciphertext is issued with a
    continuation that captures [connect_cancelable_]; on Success with none,
    the state becomes Established and the connect handler is called with no
    error, then its slot is emptied; on WantIo with none, one inner read of
    capacity 8192 is issued; on Error the state becomes Errored and the
    connect handler is called with the general error.  A continuation that
    runs with a live token and no error re-enters the driver; the one of the
    read first feeds the bytes into the tunnel and asserts that the tunnel
    is not in its failure state. *)
Lemma handshake_driver_cycle w action t1 b t2 :
  TlsTunnel.HandShake (tunnel_ (flow w)) = (action, t1) →
  TlsTunnel.ReadCipherTextData t1 = (b, t2) →
  match action with
  | TlsTunnel.Success =>
      if Buffer_bool b then
        ∃ w', HandShake w = Done tt w' ∧
              writes (data_flow_ w') = writes (data_flow_ w) ++
                [{| pw_buffer := b;
                    pw_callback := HandShakeWrite (connect_cancelable_ (flow w));
                    pw_token := fresh w |}] ∧
              reads (data_flow_ w') = reads (data_flow_ w) ∧
              state_machine_ (flow w') = state_machine_ (flow w) ∧
              trace w' = trace w
      else
        ∀ h, connect_handler_ (flow w) = Some h →
             state_machine_ (flow w) = FlowStateMachine.Connecting →
        ∃ w', HandShake w = Done tt w' ∧
              state_machine_ (flow w') = FlowStateMachine.Established ∧
              trace w' = trace w ++ [ConnectHandlerCalled h None (Some h)] ∧
              connect_handler_ (flow w') = None ∧
              data_flow_ w' = data_flow_ w
  | TlsTunnel.WantIo =>
      if Buffer_bool b then
        ∃ w', HandShake w = Done tt w' ∧
              writes (data_flow_ w') = writes (data_flow_ w) ++
                [{| pw_buffer := b;
                    pw_callback := HandShakeWrite (connect_cancelable_ (flow w));
                    pw_token := fresh w |}] ∧
              reads (data_flow_ w') = reads (data_flow_ w) ∧
              state_machine_ (flow w') = state_machine_ (flow w) ∧
              trace w' = trace w
      else
        ∃ w', HandShake w = Done tt w' ∧
              reads (data_flow_ w') = reads (data_flow_ w) ++
                [{| pr_capacity := 8192;
                    pr_callback := HandShakeRead (connect_cancelable_ (flow w));
                    pr_token := fresh w |}] ∧
              writes (data_flow_ w') = writes (data_flow_ w) ∧
              state_machine_ (flow w') = state_machine_ (flow w) ∧
              trace w' = trace w
  | TlsTunnel.Error =>
      ∀ h, connect_handler_ (flow w) = Some h →
      ∃ w', HandShake w = Done tt w' ∧
            state_machine_ (flow w') = FlowStateMachine.Errored_ ∧
            trace w' =
              trace w ++ [ConnectHandlerCalled h (Some GeneralError) (Some h)] ∧
            data_flow_ w' = data_flow_ w
  end ∧
  (∀ c, c ∉ canceled w →
     run_WriteCallback (HandShakeWrite c) None w = HandShake w) ∧
  (∀ c buffer, c ∉ canceled w →
     run_ReadCallback (HandShakeRead c) buffer None w =
     let fed :=
       set_flow (set_tunnel_
                   (TlsTunnel.WriteCipherTextData buffer (tunnel_ (flow w)))
                   (flow w)) w in
     if TlsTunnel.Errored (tunnel_ (flow fed)) then Abort AssertionFailure
     else HandShake fed).
Proof.
  intros Hhs Hct. split_and!.
  - destruct w as [[] [] ? ? ? ?]; simpl in *.
    destruct action; [destruct (Buffer_bool b) eqn:Hb..|].
    + eexists. unfold HandShake; unfold_prims. simpl.
      rewrite Hhs. simpl. rewrite Hct. simpl. rewrite Hb. simpl.
      split_and!; reflexivity.
    + intros h -> ->. eexists. unfold HandShake; unfold_prims. simpl.
      rewrite Hhs. simpl. rewrite Hct. simpl. rewrite Hb. simpl.
      split_and!; reflexivity.
    + eexists. unfold HandShake; unfold_prims. simpl.
      rewrite Hhs. simpl. rewrite Hct. simpl. rewrite Hb. simpl.
      split_and!; reflexivity.
    + eexists. unfold HandShake; unfold_prims. simpl.
      rewrite Hhs. simpl. rewrite Hct. simpl. rewrite Hb. simpl.
      split_and!; reflexivity.
    + intros h ->. eexists. unfold HandShake; unfold_prims. simpl.
      rewrite Hhs. simpl. split_and!; reflexivity.
  - intros c Hc. unfold run_WriteCallback, is_canceled, bind.
    rewrite bool_decide_eq_false_2 by done. done.
  - intros c buffer Hc.
    unfold run_ReadCallback, is_canceled, tunnel_update, tunnel_query,
      BOOST_ASSERT, bind, get, modify, ret, abort.
    rewrite bool_decide_eq_false_2 by done. simpl.
    by destruct (TlsTunnel.Errored _).
Qed.

(** C6 (as amended).  In [TryRead], when a read handler is registered and the
    tunnel has no plaintext, an inner read is issued whenever the next hop is
    not already reading, whether or not the tunnel needs ciphertext input;
    when no read handler is registered, an inner read is issued exactly when
    the tunnel needs ciphertext input and the next hop is not already
    reading. *)
Theorem TryRead_issues_inner_read w :
  (armed (read_handler_ (flow w)) = true →
   TlsTunnel.HasPlainTextDataToRead (tunnel_ (flow w)) = false →
   ∃ w', TryRead w = Done tt w' ∧
         reads (data_flow_ w') =
           reads (data_flow_ w) ++
           (if NextHop_IsReading (data_flow_ w) then []
            else [next_hop_read_of w])) ∧
  (armed (read_handler_ (flow w)) = false →
   ∃ w', TryRead w = Done tt w' ∧
         reads (data_flow_ w') =
           reads (data_flow_ w) ++
           (if TlsTunnel.NeedCipherInput (tunnel_ (flow w)) &&
               negb (NextHop_IsReading (data_flow_ w))
            then [next_hop_read_of w] else [])).
Proof.
  split.
  - intros Ha Hp. unfold TryRead, TryReadNextHop; unfold_prims. simpl.
    unfold armed in Ha. rewrite Ha, Hp. simpl.
    destruct (reads (data_flow_ w)) eqn:Er; simpl; eexists;
      (split; [reflexivity|]); simpl; by rewrite ?Er, ?app_nil_r.
  - intros Ha. unfold TryRead, TryReadNextHop; unfold_prims. simpl.
    unfold armed in Ha. rewrite Ha.
    destruct (TlsTunnel.NeedCipherInput (tunnel_ (flow w))); simpl;
      [|eexists; split; [reflexivity|by rewrite app_nil_r]].
    destruct (reads (data_flow_ w)) eqn:Er; simpl; eexists;
      (split; [reflexivity|]); simpl; by rewrite ?Er, ?app_nil_r.
Qed.

(** C7 (as amended).  If a user Read is issued while plaintext is buffered in
    the tunnel and no error is pending, the read handler is not called within
    the Read call: the call leaves the trace as it is and posts to the
    runloop a delivery of the plaintext that captures the token it returns
    (followed, if a write is ready to complete, by the delivery of that);
    the handler is called when a later turn of the runloop runs that
    delivery, provided the token is still live. *)
Theorem Read_with_plaintext_posts_the_delivery w buffer handler s1 :
  error_reported_ (flow w) = false →
  pending_error_ (flow w) = None →
  TlsTunnel.HasPlainTextDataToRead (tunnel_ (flow w)) = true →
  FlowStateMachine.ReadBegin (state_machine_ (flow w)) = Some s1 →
  ∃ w',
    Read buffer handler w = Done (fresh w) w' ∧
    trace w' = trace w ∧
    read_handler_ (flow w') = Some handler ∧
    (∃ more,
       runloop w' =
         runloop w ++
         DeliverRead (fst (TlsTunnel.ReadPlainTextData (tunnel_ (flow w))))
           (fresh w) :: more) ∧
    (fresh w ∉ canceled w' →
     ∃ w'', run_Posted
              (DeliverRead
                 (fst (TlsTunnel.ReadPlainTextData (tunnel_ (flow w))))
                 (fresh w)) w' = Done tt w'' ∧
            trace w'' =
              trace w ++
              [ReadHandlerCalled handler
                 (fst (TlsTunnel.ReadPlainTextData (tunnel_ (flow w))))
                 None None]).
Proof.
  destruct w as [[] [] ? ? ? ?]; simpl. intros -> -> Hp Hb.
  unfold Read, Process, TryRead, TryWrite, TryReadNextHop, TryWriteNextHop,
    run_Posted; unfold_prims.
  simpl. rewrite Hb. simpl. rewrite Hp. simpl.
  destruct (TlsTunnel.ReadPlainTextData tunnel_0) as [plain t'] eqn:Ep. simpl.
  assert (∃ s2, FlowStateMachine.ReadEnd s1 = Some s2) as [s2 He].
  { destruct state_machine_0; simplify_eq/=; eauto. }
  unfold FlowStateMachine.ReadEnd in He.
  split_matches; eexists;
    (split_and!;
       [reflexivity..
       |simpl; rewrite <-?app_assoc; simpl; eexists; reflexivity|]);
    simpl; intros Hlive; rewrite bool_decide_eq_false_2 by done; simpl;
    rewrite He; simpl; eexists; split; reflexivity.
Qed.

(** Where the latch is consulted: [Process] does nothing once
    [error_reported_] is set. *)
Lemma Process_returns_once_error_reported w :
  error_reported_ (flow w) = true → Process w = Done tt w.
Proof. intros He. unfold Process, bind, get, ret. by rewrite He. Qed.

(** A delivery posted by [TryRead] or [TryWrite] that runs with a live token
    empties the slot before it calls the handler. *)
Lemma posted_delivery_empties_the_slot_first w p w' :
  run_Posted p w = Done tt w' →
  w' = w ∨
  (∃ h b, read_handler_ (flow w) = Some h ∧ read_handler_ (flow w') = None ∧
          trace w' = trace w ++ [ReadHandlerCalled h b None None]) ∨
  (∃ h, write_handler_ (flow w) = Some h ∧ write_handler_ (flow w') = None ∧
        trace w' = trace w ++ [WriteHandlerCalled h None None]).
Proof.
  open_world w. destruct p; unfold run_Posted; unfold_prims; intros Hrun;
    run_all; eauto 10.
Qed.

(** [armed_for_read] is the world in which [Read] calls [Process]. *)
Lemma Read_calls_Process_once_armed w buffer handler s1 :
  error_reported_ (flow w) = false →
  FlowStateMachine.ReadBegin (state_machine_ (flow w)) = Some s1 →
  Read buffer handler w =
  bind Process (λ _, get read_cancelable_) (armed_for_read handler s1 w).
Proof.
  destruct w as [[] [] ? ? ? ?]; simpl. intros -> Hb.
  unfold Read, armed_for_read, transition, new_Cancelable, BOOST_ASSERT.
  unfold bind at 1 2 3 4 5 6 7. unfold get at 1 2, modify, ret. simpl.
  rewrite Hb. reflexivity.
Qed.

End Properties.

(** ** The flow on concrete inputs *)

Section Concrete.

Import Scenario.

(** The spec's first scenario: the two flights are written in order, then
    the connect handler is called once, with no error. *)
Example happy_handshake :
  let w1 := after [CallConnect example_endpoint 7; ConnectCompletes None] hello in
  let w2 := after [CallConnect example_endpoint 7; ConnectCompletes None;
                   WriteCompletes None] hello in
  let w3 := after [CallConnect example_endpoint 7; ConnectCompletes None;
                   WriteCompletes None; WriteCompletes None] hello in
  map pw_buffer (writes (data_flow_ w1)) = [bytes "CH"] ∧
  map pw_buffer (writes (data_flow_ w2)) = [bytes "CKE"] ∧
  trace w2 = [] ∧
  trace w3 = [ConnectHandlerCalled 7 None (Some 7)] ∧
  state_machine_ (flow w3) = FlowStateMachine.Established.
Proof. by_computation. Qed.

(** The second and third scenarios: "hello" goes out ciphered, and ciphered
    input comes back as "hello" on a later turn of the runloop. *)
Example plaintext_echo :
  let w1 := after (connect ++ [CallWrite (bytes "hello") 9]) (quick false) in
  let w2 := after (connect ++ [CallWrite (bytes "hello") 9;
                               WriteCompletes None; RunloopTurn]) (quick false) in
  map pw_buffer (writes (data_flow_ w1)) = [bytes "ifmmp"] ∧
  trace w2 = [ConnectHandlerCalled 7 None (Some 7); WriteHandlerCalled 9 None None].
Proof. by_computation. Qed.

Example incoming_read :
  let w1 := after (connect ++ [CallRead [] 9; ReadCompletes (bytes "ifmmp") None])
              (quick false) in
  let w2 := after (connect ++ [CallRead [] 9; ReadCompletes (bytes "ifmmp") None;
                               RunloopTurn]) (quick false) in
  trace w1 = [ConnectHandlerCalled 7 None (Some 7)] ∧
  trace w2 = [ConnectHandlerCalled 7 None (Some 7);
              ReadHandlerCalled 9 (bytes "hello") None None].
Proof. by_computation. Qed.

(** C3, the code at a failing input.  A read (handler 10) and a write
    (handler 11) are armed, each with an operation in flight at the next hop.
    The inner read fails: handler 10 receives the error and
    [error_reported_] is set.  The inner write fails next: its continuation
    does not look at [error_reported_], and handler 11 receives a second
    error.  Likewise a delivery posted before the error is run after it:
    with both deliveries posted and the inner write failing first, handler
    11 receives the error, [error_reported_] is set, and the next turn of
    the runloop calls handler 10 with the plaintext. *)
Theorem handlers_are_called_after_error_reported :
  let w1 := after read_fails_first (quick false) in
  let w2 := after (read_fails_first ++ [WriteCompletes broken_pipe]) (quick false) in
  let v1 := after write_fails_before_posted_delivery (quick false) in
  let v2 := after (write_fails_before_posted_delivery ++ [RunloopTurn])
              (quick false) in
  run read_fails_first (initial (quick false)) = Done tt w1 ∧
  error_reported_ (flow w1) = true ∧
  trace w1 = [ConnectHandlerCalled 7 None (Some 7);
              ReadHandlerCalled 10 [] reset (Some 10)] ∧
  exec (WriteCompletes broken_pipe) w1 = Done tt w2 ∧
  trace w2 = trace w1 ++ [WriteHandlerCalled 11 broken_pipe (Some 11)] ∧
  run write_fails_before_posted_delivery (initial (quick false)) = Done tt v1 ∧
  error_reported_ (flow v1) = true ∧
  trace v1 = [ConnectHandlerCalled 7 None (Some 7);
              WriteHandlerCalled 11 broken_pipe (Some 11)] ∧
  exec RunloopTurn v1 = Done tt v2 ∧
  trace v2 = trace v1 ++ [ReadHandlerCalled 10 (bytes "hi") None None].
Proof. by_computation. Qed.

(** C4, the code at a failing input.  A read (handler 10) is armed and the
    inner read fails: [ReadReportError] calls the handler while the slot
    still holds it, and empties the slot afterwards.  The same holds for
    [WriteReportError] and for the connect handler on success; a delivery
    posted by [TryRead] empties the slot before the call. *)
Theorem error_delivery_calls_the_handler_before_clearing_the_slot :
  let w0 := after connect (quick false) in
  let w1 := after (connect ++ [CallRead [] 10]) (quick false) in
  let w2 := after (connect ++ [CallRead [] 10; ReadCompletes [] reset])
              (quick false) in
  let u1 := after (connect ++ [CallWrite (bytes "x") 11]) (quick false) in
  let u2 := after (connect ++ [CallWrite (bytes "x") 11;
                               WriteCompletes broken_pipe]) (quick false) in
  let d2 := after (connect ++ [CallRead [] 10; ReadCompletes (bytes "ij") None;
                               RunloopTurn]) (quick false) in
  trace w0 = [ConnectHandlerCalled 7 None (Some 7)] ∧
  read_handler_ (flow w1) = Some 10 ∧
  exec (ReadCompletes [] reset) w1 = Done tt w2 ∧
  trace w2 = trace w1 ++ [ReadHandlerCalled 10 [] reset (Some 10)] ∧
  read_handler_ (flow w2) = None ∧
  exec (WriteCompletes broken_pipe) u1 = Done tt u2 ∧
  trace u2 = trace u1 ++ [WriteHandlerCalled 11 broken_pipe (Some 11)] ∧
  write_handler_ (flow u2) = None ∧
  trace d2 = trace w1 ++ [ReadHandlerCalled 10 (bytes "hi") None None].
Proof. by_computation. Qed.

(** C5, the code at a failing input.  The tunnel wants input, so the driver
    has a read in flight; the next hop delivers an alert record, which puts
    the tunnel in its failure state.  The continuation feeds the bytes and
    runs into [NE_TLS_TUNNEL_CHECK_ERROR], an [assert]: the step fails, and
    the connect handler is not called.  In a build with [NDEBUG] the
    assertion is gone: the continuation re-enters [HandShake], the tunnel
    answers Error, the state becomes Errored and the connect handler
    receives the general error. *)
Theorem alert_during_the_handshake_fails_the_assertion :
  let w := after connect rejecting in
  let taken := then_ take_read w in
  let released := then_ (run_HandShakeRead_NDEBUG 5 alert None) taken in
  ¬ tunnel_error_after_feeding_is_reported rejecting ∧
  run connect (initial rejecting) = Done tt w ∧
  reads (data_flow_ w) =
    [{| pr_capacity := 8192; pr_callback := HandShakeRead 5; pr_token := 7 |}] ∧
  connect_handler_ (flow w) = Some 7 ∧
  canceled w = ∅ ∧
  trace w = [] ∧
  TlsTunnel.Errored
    (TlsTunnel.WriteCipherTextData alert (tunnel_ (flow w))) = true ∧
  exec (ReadCompletes alert None) w = Abort AssertionFailure ∧
  run_ReadCallback (HandShakeRead 5) alert None taken = Abort AssertionFailure ∧
  run_HandShakeRead_NDEBUG 5 alert None taken = Done tt released ∧
  trace released = [ConnectHandlerCalled 7 (Some GeneralError) (Some 7)] ∧
  state_machine_ (flow released) = FlowStateMachine.Errored_.
Proof.
  intros w taken released. split; [|by_computation].
  intros Hclaim.
  destruct (Hclaim connect alert w
              {| pr_capacity := 8192; pr_callback := HandShakeRead 5;
                 pr_token := 7 |} [] 5 7)
    as (w' & held & Hrun & _).
  - by_computation.
  - by_computation.
  - by_computation.
  - decide_by_computation.
  - decide_by_computation.
  - by vm_compute.
  - by_computation.
  - by_computation.
  - vm_compute in Hrun. discriminate.
Qed.

(** C6, a counterexample in two parts.
    With a handler: the flow is established and idle, the tunnel has no
    plaintext and does not need input.  In the world in which [Read] calls
    [Process], [TryRead] issues an inner read all the same.
    Without a handler: a read has been served, the tunnel needs input and the
    read issued for it is in flight.  [TryRead] calls [TryReadNextHop], which
    finds the next hop reading and issues nothing. *)
Lemma inner_read_does_not_follow_the_need_for_input :
  ¬ inner_read_only_when_needed (T := ScriptedTunnel.t) ∧
  ¬ opportunistic_read_exactly_when_needed (T := ScriptedTunnel.t).
Proof.
  split.
  - intros Hclaim.
    pose (w := armed_for_read 10 FlowStateMachine.Reading
                 (after connect (quick false))).
    assert (TlsTunnel.NeedCipherInput (tunnel_ (flow w)) = true) as Hneed.
    { apply (Hclaim w (then_ TryRead w)).
      - by_computation.
      - by_computation.
      - by_computation.
      - vm_compute. discriminate. }
    vm_compute in Hneed. discriminate.
  - intros Hclaim.
    pose (w := after second_read (quick true)).
    assert (reads (data_flow_ (then_ TryRead w)) ≠ reads (data_flow_ w))
      as Hissued.
    { apply (Hclaim w (then_ TryRead w)).
      - by_computation.
      - by_computation.
      - by_computation. }
    apply Hissued. by_computation.
Qed.

(** C7, a counterexample.  Plaintext "hello" is buffered in the tunnel and an
    error is kept in [pending_error_].  The user reads (handler 11):
    [Process] passes the error to the handler within the call. *)
Lemma read_is_delivered_the_pending_error_inline :
  ¬ read_is_never_delivered_inline (quick true).
Proof.
  intros Hclaim.
  pose (w := after error_kept_with_plaintext_buffered (quick true)).
  pose (w' := then_ (Read [] 11) w).
  assert (trace w' = trace w) as Hsame.
  { apply (Hclaim error_kept_with_plaintext_buffered [] 11 11 w w').
    - by_computation.
    - by_computation.
    - by_computation. }
  vm_compute in Hsame. discriminate.
Qed.

(** *** The theorems at concrete inputs *)

Lemma at_most_one_inner_read_and_one_inner_write_witness :
  let script := connect ++ [CallRead [] 10; CallWrite (bytes "x") 11] in
  let w := after script (quick false) in
  run script (initial (quick false)) = Done tt w ∧
  length (reads (data_flow_ w)) = 1 ∧
  length (writes (data_flow_ w)) = 1 ∧
  TryReadNextHop w = Done tt w ∧
  TryWriteNextHop w = Done tt w.
Proof.
  intros script w.
  assert (run script (initial (quick false)) = Done tt w) as H1
    by by_computation.
  destruct (at_most_one_inner_read_and_one_inner_write (quick false) script w H1)
    as (_ & _ & Hr & Hw).
  split_and!; [exact H1|by_computation|by_computation|..].
  - apply Hr. by_computation.
  - apply Hw. by_computation.
Defined.

Lemma ReportError_policy_witness :
  let w := after error_kept_with_plaintext_buffered (quick true) in
  pending_error_ (flow w) = Some (TransportError 104) ∧
  error_reported_ (flow w) = false ∧
  FlowStateMachine.ReadBegin (state_machine_ (flow w)) =
    Some FlowStateMachine.Reading ∧
  ∃ w', Read [] 11 w = Done (fresh w) w' ∧
        trace w' = trace w ++ [ReadHandlerCalled 11 [] reset (Some 11)] ∧
        read_handler_ (flow w') = None ∧
        error_reported_ (flow w') = true.
Proof.
  intros w.
  assert (pending_error_ (flow w) = Some (TransportError 104)) as H1
    by by_computation.
  assert (error_reported_ (flow w) = false) as H2 by by_computation.
  assert (FlowStateMachine.ReadBegin (state_machine_ (flow w)) =
          Some FlowStateMachine.Reading) as H3 by by_computation.
  destruct (ReportError_policy w (TransportError 104)) as (_ & _ & Hnext).
  destruct (Hnext H1 H2) as (Hread & _).
  split_and!; [exact H1|exact H2|exact H3|].
  exact (Hread [] 11 _ H3).
Defined.

Lemma handshake_driver_cycle_witness :
  let w := after [CallConnect example_endpoint 7] hello in
  let t1 := snd (TlsTunnel.HandShake (tunnel_ (flow w))) in
  let t2 := snd (TlsTunnel.ReadCipherTextData t1) in
  TlsTunnel.HandShake (tunnel_ (flow w)) = (TlsTunnel.WantIo, t1) ∧
  TlsTunnel.ReadCipherTextData t1 = (bytes "CH", t2) ∧
  ∃ w', HandShake w = Done tt w' ∧
        writes (data_flow_ w') =
          writes (data_flow_ w) ++
          [{| pw_buffer := bytes "CH";
              pw_callback := HandShakeWrite (connect_cancelable_ (flow w));
              pw_token := fresh w |}].
Proof.
  intros w t1 t2.
  assert (TlsTunnel.HandShake (tunnel_ (flow w)) = (TlsTunnel.WantIo, t1))
    as H1 by by_computation.
  assert (TlsTunnel.ReadCipherTextData t1 = (bytes "CH", t2)) as H2
    by by_computation.
  destruct (handshake_driver_cycle w _ _ _ _ H1 H2) as (Hcycle & _).
  split_and!; [exact H1|exact H2|].
  destruct Hcycle as (w' & Hrun & Hw & _).
  exists w'. split; [exact Hrun|exact Hw].
Defined.

Lemma TryRead_issues_inner_read_witness :
  let w := armed_for_read 10 FlowStateMachine.Reading
             (after connect (quick false)) in
  armed (read_handler_ (flow w)) = true ∧
  TlsTunnel.HasPlainTextDataToRead (tunnel_ (flow w)) = false ∧
  TlsTunnel.NeedCipherInput (tunnel_ (flow w)) = false ∧
  ∃ w', TryRead w = Done tt w' ∧ reads (data_flow_ w') = [next_hop_read_of w].
Proof.
  intros w.
  assert (armed (read_handler_ (flow w)) = true) as H1 by by_computation.
  assert (TlsTunnel.HasPlainTextDataToRead (tunnel_ (flow w)) = false) as H2
    by by_computation.
  destruct (TryRead_issues_inner_read w) as (Harmed & _).
  destruct (Harmed H1 H2) as (w' & Hrun & Hreads).
  split_and!; [exact H1|exact H2|by_computation|].
  exists w'. split; [exact Hrun|]. rewrite Hreads. by_computation.
Defined.

Lemma Read_with_plaintext_posts_the_delivery_witness :
  let w := after (second_read ++ [ReadCompletes (bytes "ifmmp") None])
             (quick true) in
  error_reported_ (flow w) = false ∧
  pending_error_ (flow w) = None ∧
  TlsTunnel.HasPlainTextDataToRead (tunnel_ (flow w)) = true ∧
  FlowStateMachine.ReadBegin (state_machine_ (flow w)) =
    Some FlowStateMachine.Reading ∧
  ∃ w', Read [] 11 w = Done (fresh w) w' ∧
        trace w' = trace w ∧
        read_handler_ (flow w') = Some 11.
Proof.
  intros w.
  assert (error_reported_ (flow w) = false) as H1 by by_computation.
  assert (pending_error_ (flow w) = None) as H2 by by_computation.
  assert (TlsTunnel.HasPlainTextDataToRead (tunnel_ (flow w)) = true) as H3
    by by_computation.
  assert (FlowStateMachine.ReadBegin (state_machine_ (flow w)) =
          Some FlowStateMachine.Reading) as H4 by by_computation.
  destruct (Read_with_plaintext_posts_the_delivery w [] 11 _ H1 H2 H3 H4)
    as (w' & Hrun & Htrace & Hslot & _).
  split_and!; [exact H1|exact H2|exact H3|exact H4|].
  exists w'. split_and!; [exact Hrun|exact Htrace|exact Hslot].
Defined.

Lemma next_hop_callbacks_guard_on_user_tokens_witness :
  let w := after (connect ++ [CallRead [] 10; ReadCompletes [] None;
                              CallCancel 7]) (quick false) in
  let idle := after connect (quick false) in
  NextHop_IsReading (data_flow_ idle) = false ∧
  (∃ w', TryReadNextHop idle = Done tt w' ∧
         reads (data_flow_ w') = [next_hop_read_of idle]) ∧
  map pr_callback (reads (data_flow_ w)) = [NextHopRead 7] ∧
  7 ∈ canceled w ∧
  exec (ReadCompletes (bytes "ifmmp") None) w =
    Done tt (then_ take_read w).
Proof.
  intros w idle.
  assert (NextHop_IsReading (data_flow_ idle) = false) as H1 by by_computation.
  assert (7 ∈ canceled w) as H2 by decide_by_computation.
  destruct (next_hop_callbacks_guard_on_user_tokens idle) as (Hissue & _).
  destruct (Hissue H1) as (w' & Hrun & Hreads & _).
  destruct (next_hop_callbacks_guard_on_user_tokens (then_ take_read w))
    as (_ & _ & Hstale & _).
  assert (7 ∈ canceled (then_ take_read w)) as H3 by decide_by_computation.
  destruct (Hstale 7 H3) as (Hread & _).
  split_and!;
    [exact H1
    |exists w'; split; [exact Hrun|exact Hreads]
    |by_computation|exact H2|].
  transitivity (run_ReadCallback (NextHopRead 7) (bytes "ifmmp") None
                  (then_ take_read w)); [by_computation|exact (Hread _ _)].
Defined.

End Concrete.

(** ** Properties of whole runs *)

Section Runs.

Context {T : Type} `{TlsTunnel.Ops T}.
Implicit Types w : World T.

Lemma run_nil w w' : run [] w = Done tt w' → w' = w.
Proof. simpl. unfold ret. by intros [= ->]. Qed.

Lemma run_shape script : ∀ w w',
  run script w = Done tt w' → shape (view w) → shape (view w').
Proof.
  induction script as [|s rest IH]; intros w w' Hrun Hs.
  - apply run_nil in Hrun. by subst.
  - apply run_cons in Hrun as (w1 & Hstep & Hrest).
    apply (IH w1); [done|]. eapply shape_step; [|done]. by apply exec_effect.
Qed.

Lemma initial_shape (t : T) : shape (view (initial t)).
Proof. by destruct (initial_invariant t). Qed.

(** The queues of the next hop in each phase, one form at a time. *)
Lemma shape_forms v :
  shape v →
  match v_state v with
  | FlowStateMachine.Init =>
      v_next v = {| connects := []; reads := []; writes := [] |}
  | FlowStateMachine.Connecting =>
      v_next v = {| connects := []; reads := []; writes := [] |} ∨
      (∃ p, v_next v = {| connects := [p]; reads := []; writes := [] |}) ∨
      (∃ n c t, v_next v =
         {| connects := [];
            reads := [{| pr_capacity := n; pr_callback := HandShakeRead c;
                         pr_token := t |}];
            writes := [] |}) ∨
      (∃ b c t, v_next v =
         {| connects := []; reads := [];
            writes := [{| pw_buffer := b; pw_callback := HandShakeWrite c;
                          pw_token := t |}] |})
  | _ =>
      ∃ rs ws,
        v_next v = {| connects := []; reads := rs; writes := ws |} ∧
        (rs = [] ∨ ∃ n c t,
           rs = [{| pr_capacity := n; pr_callback := NextHopRead c;
                    pr_token := t |}]) ∧
        (ws = [] ∨ ∃ b c t,
           ws = [{| pw_buffer := b; pw_callback := NextHopWrite c;
                    pw_token := t |}])
  end.
Proof.
  destruct v as [st [cs rs ws] rd wr evs]. unfold shape; simpl.
  assert (∀ rs, forallb (λ p, negb (is_handshake_read p)) rs = true →
                length rs ≤ 1 →
                rs = [] ∨ ∃ n c t,
                  rs = [{| pr_capacity := n; pr_callback := NextHopRead c;
                           pr_token := t |}]) as Hrs.
  { intros [|[n [c|c] t] [|? ?]]; simpl; intros Hk Hl;
      try discriminate; try lia; eauto. }
  assert (∀ ws, forallb (λ p, negb (is_handshake_write p)) ws = true →
                length ws ≤ 1 →
                ws = [] ∨ ∃ b c t,
                  ws = [{| pw_buffer := b; pw_callback := NextHopWrite c;
                           pw_token := t |}]) as Hws.
  { intros [|[b [c|c] t] [|? ?]]; simpl; intros Hk Hl;
      try discriminate; try lia; eauto. }
  destruct st;
    try (intros (-> & Hr & Hw & Hlr & Hlw & _); exists rs, ws;
         split_and!; [done|by apply Hrs|by apply Hws]).
  - by intros (-> & -> & -> & _).
  - intros (Hr & Hw & Hl).
    destruct cs as [|p [|? ?]], rs as [|[n [c|c] t] [|? ?]],
      ws as [|[b [c'|c'] t'] [|? ?]];
      simpl in *; try discriminate; try lia; eauto 10.
Qed.

(** *** What no step undoes *)

(** On every path of every step: [connect_to_] is written by [Connect]
    only; [error_reported_] is never reset, and [Read] and [Write] fail
    once it is set; [pending_error_] is never emptied; and once either is
    set nothing is posted to the runloop. *)
Lemma exec_latches s w w' :
  exec s w = Done tt w' →
  connect_to_ (flow w') =
    match s with
    | CallConnect endpoint _ => Some endpoint
    | _ => connect_to_ (flow w)
    end ∧
  (error_reported_ (flow w) = true →
   error_reported_ (flow w') = true ∧ is_user_transfer s = false ∧
   suffix (runloop w') (runloop w)) ∧
  (Error_bool (pending_error_ (flow w)) = true →
   Error_bool (pending_error_ (flow w')) = true ∧
   suffix (runloop w') (runloop w)).
Proof.
  destruct s; open_world w; intros Hrun; unfold_flow.
  all: run_all; simpl; split_and!; try reflexivity; intros; simplify_eq/=;
    split_and?; try done; try by apply suffix_cons_r.
Qed.

(** X5.  Errors are sticky.  Along every run, from any world: once
    [error_reported_] is set it stays set, no later [Read] or [Write]
    succeeds, and in the world reached both fail their assertion; once an
    error is stored in [pending_error_], some error stays stored. *)
Theorem errors_are_sticky script : ∀ w w',
  run script w = Done tt w' →
  (error_reported_ (flow w) = true →
   error_reported_ (flow w') = true ∧
   Forall (λ s, is_user_transfer s = false) script ∧
   ∀ buffer handler,
     Read buffer handler w' = Abort AssertionFailure ∧
     Write buffer handler w' = Abort AssertionFailure) ∧
  (Error_bool (pending_error_ (flow w)) = true →
   Error_bool (pending_error_ (flow w')) = true).
Proof.
  induction script as [|s rest IH]; intros w w' Hrun.
  - apply run_nil in Hrun. subst. split; [|done].
    intros He. split_and!; [done|constructor|].
    intros buffer handler. unfold Read, Write, BOOST_ASSERT, bind, get.
    rewrite He. done.
  - apply run_cons in Hrun as (w1 & Hstep & Hrest).
    apply exec_latches in Hstep as (_ & Hrep & Hpen).
    destruct (IH _ _ Hrest) as (IHrep & IHpen).
    split.
    + intros He. destruct (Hrep He) as (He1 & Hs & _).
      destruct (IHrep He1) as (? & ? & ?). split_and!; [done| |done].
      by constructor.
    + intros Hp. apply IHpen. by apply Hpen.
Qed.

(** X6.  After an error the pump stops.  Along every run, from any world in
    which [error_reported_] is set or an error is stored in
    [pending_error_]: no delivery is posted any more; the closures left in
    the runloop are among those that were there. *)
Theorem nothing_is_posted_after_an_error script : ∀ w w',
  run script w = Done tt w' →
  error_reported_ (flow w) = true ∨
    Error_bool (pending_error_ (flow w)) = true →
  suffix (runloop w') (runloop w).
Proof.
  induction script as [|s rest IH]; intros w w' Hrun Herr.
  - apply run_nil in Hrun. by subst.
  - apply run_cons in Hrun as (w1 & Hstep & Hrest).
    apply exec_latches in Hstep as (_ & Hrep & Hpen).
    destruct Herr as [He | Hp].
    + destruct (Hrep He) as (He1 & _ & Hsuf).
      etrans; [|exact Hsuf]. apply (IH _ _ Hrest). by left.
    + destruct (Hpen Hp) as (Hp1 & Hsuf).
      etrans; [|exact Hsuf]. apply (IH _ _ Hrest). by right.
Qed.

(** *** The endpoint *)

Lemma last_cons_option {A} (x : A) l :
  last (x :: l) = match last l with Some y => Some y | None => Some x end.
Proof.
  destruct l as [|y l]; [done|]. rewrite last_cons_cons.
  by destruct (last (y :: l)) eqn:E; [|apply last_None in E].
Qed.

Lemma run_connect_to script : ∀ w w',
  run script w = Done tt w' →
  connect_to_ (flow w') =
  match last (connect_endpoints script) with
  | Some e => Some e
  | None => connect_to_ (flow w)
  end.
Proof.
  induction script as [|s rest IH]; intros w w' Hrun.
  - apply run_nil in Hrun. by subst.
  - apply run_cons in Hrun as (w1 & Hstep & Hrest).
    apply exec_latches in Hstep as (Hc & _).
    rewrite (IH _ _ Hrest), Hc.
    destruct s; simpl; try done.
    rewrite last_cons_option. by destruct (last (connect_endpoints rest)).
Qed.

(** The state machine does not come back to [Init], where alone [Connect]
    is legal. *)
Lemma state_leaves_Init s v v' :
  step_effect s v v' →
  v_state v ≠ FlowStateMachine.Init →
  v_state v' ≠ FlowStateMachine.Init ∧ connect_endpoints [s] = [].
Proof.
  destruct v as [st n rd wr evs], v' as [st' n' rd' wr' evs'].
  destruct s; simpl; intros Heff Hst.
  - by destruct Heff as (-> & _).
  - destruct Heff as (s1 & Hb & Hs & _). simpl in Hs. subst st'.
    split; [|done]. destruct st; by simplify_eq/=.
  - destruct Heff as (s1 & Hb & Hs & _). simpl in Hs. subst st'.
    split; [|done]. destruct st; by simplify_eq/=.
  - by simplify_eq.
  - by simplify_eq.
  - by simplify_eq.
  - destruct Heff as [? | [(h & _ & He & _) | (h & _ & He & _)]];
      [by simplify_eq|..]; split; try done; destruct st; by simplify_eq/=.
  - destruct (connects n); [done|].
    destruct Heff as [? | (_ & _ & _ & _ & _ & Hc)];
      [unfold drop_connect in *; by simplify_eq/=|].
    simpl in Hc.
    destruct Hc as [(-> & _) | (_ & _ & _ & [-> | Hr])]; try done.
    split; [|done]. by destruct st'.
  - destruct (reads n) as [|p ?]; [done|].
    destruct Heff as [? | Heff]; [unfold drop_read in *; by simplify_eq/=|].
    destruct (is_handshake_read p).
    + destruct Heff as (_ & _ & _ & _ & _ & Hc). simpl in Hc.
      destruct Hc as [(-> & _) | (_ & _ & _ & [-> | Hr])]; try done.
      split; [|done]. by destruct st'.
    + destruct Heff as (Hs & _). simpl in Hs. by subst.
  - destruct (writes n) as [|p ?]; [done|].
    destruct Heff as [? | Heff]; [unfold drop_write in *; by simplify_eq/=|].
    destruct (is_handshake_write p).
    + destruct Heff as (_ & _ & _ & _ & _ & Hc). simpl in Hc.
      destruct Hc as [(-> & _) | (_ & _ & _ & [-> | Hr])]; try done.
      split; [|done]. by destruct st'.
    + destruct Heff as (Hs & _). simpl in Hs. by subst.
Qed.

Lemma connect_endpoints_cons s rest :
  connect_endpoints (s :: rest) = connect_endpoints [s] ++ connect_endpoints rest.
Proof. by destruct s. Qed.

Lemma run_connects script : ∀ w w',
  run script w = Done tt w' →
  length (connect_endpoints script) ≤ 1 ∧
  (state_machine_ (flow w) ≠ FlowStateMachine.Init →
   connect_endpoints script = []).
Proof.
  induction script as [|s rest IH]; intros w w' Hrun.
  - simpl. split; [lia|done].
  - apply run_cons in Hrun as (w1 & Hstep & Hrest).
    apply exec_effect in Hstep.
    destruct (IH _ _ Hrest) as (IHlen & IHnot).
    rewrite connect_endpoints_cons. split.
    + destruct s; simpl; try done.
      destruct Hstep as (_ & Hc & _). simpl in Hc.
      rewrite IHnot; [simpl; lia|]. by rewrite Hc.
    + intros Hst.
      destruct (state_leaves_Init _ _ _ Hstep Hst) as (Hst1 & ->).
      by apply IHnot.
Qed.

(** X8.  In every run from a new flow, [ConnectingTo] returns null until
    [Connect] is called and the endpoint given to [Connect] from then on,
    whatever happens afterwards; and no run calls [Connect] twice: the
    second call fails the assertion of the state machine. *)
Theorem ConnectingTo_returns_the_endpoint_of_Connect (t : T) script w :
  run script (initial t) = Done tt w →
  ConnectingTo w = Done (head (connect_endpoints script)) w ∧
  length (connect_endpoints script) ≤ 1.
Proof.
  intros Hrun. destruct (run_connects _ _ _ Hrun) as (Hlen & _).
  split; [|done]. unfold ConnectingTo, get.
  rewrite (run_connect_to _ _ _ Hrun). simpl.
  destruct (connect_endpoints script) as [|e [|? ?]]; simpl in *; [done..|lia].
Qed.

(** *** Slots and state machine *)

Lemma steady_slots v v' : steady v v' → slots_follow v → slots_follow v'.
Proof.
  intros (Hs & _ & _ & _ & Hr & Hw & _) [Hvr Hvw].
  unfold slots_follow. rewrite Hs. split.
  - destruct Hr as [[-> _] | (h & _ & -> & _)]; [done|]. done.
  - destruct Hw as [[-> _] | (h & _ & -> & _)]; [done|]. done.
Qed.

Lemma handshaking_slots v v' :
  handshaking v v' → v_state v = FlowStateMachine.Connecting →
  slots_follow v → slots_follow v'.
Proof.
  intros (Hr & Hw & _) Hs [Hvr Hvw]. unfold slots_follow.
  rewrite Hr, Hw. rewrite Hs in *. simpl in *. split; intros Ha.
  - by specialize (Hvr Ha).
  - by specialize (Hvw Ha).
Qed.

Lemma slots_step s v v' :
  step_effect s v v' → shape v → slots_follow v → slots_follow v'.
Proof.
  intros Heff Hshape Hv. apply shape_forms in Hshape.
  destruct v as [st n rd wr evs], v' as [st' n' rd' wr' evs'].
  destruct s; simpl in *.
  - destruct Heff as (-> & -> & _ & _ & _ & -> & -> & _).
    destruct Hv as [Hr Hw]. split; intros Ha; simpl in *.
    + by specialize (Hr Ha).
    + by specialize (Hw Ha).
  - destruct Heff as (s1 & Hb & Hst).
    apply (steady_slots _ _ Hst). destruct Hv as [Hr Hw].
    split; simpl in *; intros Ha.
    + destruct st; by simplify_eq/=.
    + specialize (Hw Ha). destruct st; by simplify_eq/=.
  - destruct Heff as (s1 & Hb & Hst).
    apply (steady_slots _ _ Hst). destruct Hv as [Hr Hw].
    split; simpl in *; intros Ha.
    + specialize (Hr Ha). destruct st; by simplify_eq/=.
    + destruct st; by simplify_eq/=.
  - by simplify_eq.
  - by simplify_eq.
  - by simplify_eq.
  - destruct Hv as [Hr Hw].
    destruct Heff as [? | [(h & -> & He & _ & -> & -> & _)
                          | (h & -> & He & _ & -> & -> & _)]];
      [by simplify_eq|..]; split; simpl in *; intros Ha; try done.
    + specialize (Hw Ha). destruct st; by simplify_eq/=.
    + specialize (Hr Ha). destruct st; by simplify_eq/=.
  - destruct (connects n) as [|p ps] eqn:Ec; [done|].
    destruct Heff as [-> | Hhs]; [done|].
    apply (handshaking_slots _ _ Hhs); [|done]. simpl.
    destruct st; try done; simpl in *;
      try (destruct Hshape as (? & ? & -> & _); done).
    by rewrite Hshape in Ec.
  - destruct (reads n) as [|p ps] eqn:Ec; [done|].
    destruct Heff as [-> | Heff]; [done|].
    destruct (is_handshake_read p) eqn:Hk; [|by apply (steady_slots _ _ Heff)].
    apply (handshaking_slots _ _ Heff); [|done]. simpl.
    destruct st; try done; simpl in *;
      try (destruct Hshape as (rs & ws & -> & [-> | (? & ? & ? & ->)] & _);
           simpl in Ec; simplify_eq; done).
    by rewrite Hshape in Ec.
  - destruct (writes n) as [|p ps] eqn:Ec; [done|].
    destruct Heff as [-> | Heff]; [done|].
    destruct (is_handshake_write p) eqn:Hk; [|by apply (steady_slots _ _ Heff)].
    apply (handshaking_slots _ _ Heff); [|done]. simpl.
    destruct st; try done; simpl in *;
      try (destruct Hshape as (rs & ws & -> & _ & [-> | (? & ? & ? & ->)]);
           simpl in Ec; simplify_eq; done).
    by rewrite Hshape in Ec.
Qed.

Lemma run_slots script : ∀ w w',
  run script w = Done tt w' →
  shape (view w) → slots_follow (view w) → slots_follow (view w').
Proof.
  induction script as [|s rest IH]; intros w w' Hrun Hs Hv.
  - apply run_nil in Hrun. by subst.
  - apply run_cons in Hrun as (w1 & Hstep & Hrest).
    apply exec_effect in Hstep.
    apply (IH w1); [done|by eapply shape_step|by eapply slots_step].
Qed.

(** X7.  One transfer of each kind at a time.  In every run from a new
    flow, at every instant: while a read handler is armed the state machine
    says that the flow is reading, and a further [Read] fails its
    assertion; likewise for a write handler and [Write]. *)
Theorem armed_slot_refuses_a_second_transfer (t : T) script w :
  run script (initial t) = Done tt w →
  (armed (read_handler_ (flow w)) = true →
   FlowStateMachine.IsReading (state_machine_ (flow w)) = true ∧
   ∀ buffer handler, Read buffer handler w = Abort AssertionFailure) ∧
  (armed (write_handler_ (flow w)) = true →
   FlowStateMachine.IsWriting (state_machine_ (flow w)) = true ∧
   ∀ buffer handler, Write buffer handler w = Abort AssertionFailure).
Proof.
  intros Hrun.
  destruct (run_slots _ _ _ Hrun (initial_shape t)) as [Hr Hw]; [done|].
  simpl in *. split; intros Ha.
  - specialize (Hr Ha). split; [done|]. intros buffer handler.
    unfold Read; unfold_prims.
    destruct (error_reported_ (flow w)); simpl; [done|].
    by destruct (state_machine_ (flow w)).
  - specialize (Hw Ha). split; [done|]. intros buffer handler.
    unfold Write; unfold_prims.
    destruct (error_reported_ (flow w)); simpl; [done|].
    by destruct (state_machine_ (flow w)).
Qed.

End Runs.

(** ** The handshake as a whole *)

Section HandshakeProofs.

Context {T : Type} `{TlsTunnel.Ops T}.
Implicit Types w : World T.

(** With no token canceled every token is live, whatever instance decides
    the membership. *)
Lemma live_in_empty (c : Cancelable)
    `{D : Decision (c ∈ (∅ : gset Cancelable))} :
  @bool_decide (c ∈ (∅ : gset Cancelable)) D = false.
Proof. apply bool_decide_eq_false_2, not_elem_of_empty. Qed.

Local Arguments HandShake : simpl never.

(** One cycle of [HandShake] at the head of the run. *)
Ltac cycle_once :=
  unfold bind at 1; unfold HandShake at 1; unfold_prims; simpl.

(** The world in normal form. *)
Ltac normalize_world :=
  cbv [set_flow set_data_flow_ set_runloop set_canceled set_fresh set_trace
       set_tunnel_ set_state_machine_ set_connect_to_ set_read_handler_
       set_write_handler_ set_connect_handler_ set_read_cancelable_
       set_write_cancelable_ set_connect_cancelable_
       set_next_read_cancelable_ set_next_write_cancelable_
       set_pending_error_ set_error_reported_
       flow data_flow_ runloop canceled fresh trace
       tunnel_ state_machine_ connect_to_ read_handler_ write_handler_
       connect_handler_ read_cancelable_ write_cancelable_
       connect_cancelable_ next_read_cancelable_ next_write_cancelable_
       pending_error_ error_reported_
       connects reads writes pr_capacity pr_callback pr_token
       pw_buffer pw_callback pw_token pc_endpoint pc_callback pc_token].

(** A completion at the next hop, up to the body of its continuation. *)
Ltac completion :=
  unfold exec, take_connect, take_read, take_write,
    run_ConnectCallback, run_ReadCallback, run_WriteCallback;
  unfold_prims; simpl;
  repeat (progress (normalize_world; rewrite ?live_in_empty; simpl)).

Ltac by_induction IH h Hf :=
  lazymatch goal with
  | |- ∃ _, match HandShake ?W with _ => _ end = _ ∧ _ =>
      let w' := fresh "w'" in
      let Hrun := fresh "Hrun" in
      let Hrest := fresh "Hrest" in
      destruct (IH W h) as (w' & Hrun & Hrest);
        [reflexivity..|exact Hf|];
      exists w'; split; [exact Hrun|exact Hrest]
  end.

(** The driver goes through the plan: from a world in which the handshake is
    under way and nothing is in flight, [HandShake] followed by the
    completions of the plan ends as the ending says. *)
Lemma drive plan ending : ∀ w h,
  state_machine_ (flow w) = FlowStateMachine.Connecting →
  connect_handler_ (flow w) = Some h →
  canceled w = ∅ →
  data_flow_ w = {| connects := []; reads := []; writes := [] |} →
  follows plan ending (tunnel_ (flow w)) = true →
  ∃ w',
    bind HandShake (λ _, run (handshake_script plan ending)) w = Done tt w' ∧
    state_machine_ (flow w') = ending_state ending ∧
    trace w' =
      trace w ++ [ConnectHandlerCalled h (ending_error ending) (Some h)] ∧
    connect_handler_ (flow w') =
      match ending with Succeeds => None | _ => Some h end ∧
    data_flow_ w' = {| connects := []; reads := []; writes := [] |} ∧
    runloop w' = runloop w ∧
    read_handler_ (flow w') = read_handler_ (flow w) ∧
    write_handler_ (flow w') = write_handler_ (flow w) ∧
    connect_to_ (flow w') = connect_to_ (flow w).
Proof.
  induction plan as [|r rest IH]; intros w h Hs Hh Hc Hn Hf.
  - destruct w as [[tn st ct rh wh ch rc wc cc nrc nwc pe er] n rl cs fr tr];
      simpl in *; subst.
    unfold ends_with in Hf.
    destruct (TlsTunnel.HandShake tn) as [action t1] eqn:Ea.
    destruct (TlsTunnel.ReadCipherTextData t1) as [c t2] eqn:Ec.
    simpl in Hf.
    destruct ending, action; try discriminate;
      try (apply negb_true_iff in Hf);
      cycle_once; rewrite Ea; simpl; rewrite ?Ec; simpl; rewrite ?Hf; simpl;
      unfold handshake_script; simpl; completion;
      eexists; split_and!; reflexivity.
  - destruct w as [[tn st ct rh wh ch rc wc cc nrc nwc pe er] n rl cs fr tr];
      simpl in *; subst.
    destruct (TlsTunnel.HandShake tn) as [action t1] eqn:Ea.
    destruct (TlsTunnel.ReadCipherTextData t1) as [c t2] eqn:Ec.
    destruct r as [|buffer], action; try discriminate.
    + apply andb_prop in Hf as [Hb Hf].
      cycle_once; rewrite Ea; simpl; rewrite Ec; simpl; rewrite Hb; simpl.
      unfold handshake_script; simpl; completion.
      by_induction IH h Hf.
    + apply andb_prop in Hf as [Hb Hf].
      cycle_once; rewrite Ea; simpl; rewrite Ec; simpl; rewrite Hb; simpl.
      unfold handshake_script; simpl; completion.
      by_induction IH h Hf.
    + apply andb_prop in Hf as [Hf Hrest].
      apply andb_prop in Hf as [Hf He].
      apply andb_prop in Hf as [Hb Hl].
      apply negb_true_iff in Hb, He.
      cycle_once; rewrite Ea; simpl; rewrite Ec; simpl; rewrite Hb; simpl.
      unfold handshake_script; simpl; completion.
      rewrite Hl; completion. rewrite He; completion.
      by_induction IH h Hrest.
Qed.

Ltac by_induction' IH r post ending h Hf :=
  lazymatch goal with
  | |- ∃ _, match HandShake ?W with _ => _ end = _ ∧ _ =>
      let w' := fresh "w'" in
      let Hrun := fresh "Hrun" in
      let Hrest := fresh "Hrest" in
      destruct (IH r post ending W h) as (w' & Hrun & Hrest);
        [reflexivity..|exact Hf|];
      exists w'; split; [exact Hrun|exact Hrest]
  end.

(** The driver at a round of the plan. *)
Lemma drive_to_round pre : ∀ r post ending w h,
  state_machine_ (flow w) = FlowStateMachine.Connecting →
  connect_handler_ (flow w) = Some h →
  canceled w = ∅ →
  data_flow_ w = {| connects := []; reads := []; writes := [] |} →
  follows (pre ++ r :: post) ending (tunnel_ (flow w)) = true →
  ∃ w',
    bind HandShake (λ _, run (map round_step pre)) w = Done tt w' ∧
    trace w' = trace w ∧
    runloop w' = runloop w ∧
    state_machine_ (flow w') = FlowStateMachine.Connecting ∧
    connect_cancelable_ (flow w') = connect_cancelable_ (flow w) ∧
    in_flight r (flight (after_rounds pre (tunnel_ (flow w))))
      (connect_cancelable_ (flow w)) (data_flow_ w').
Proof.
  induction pre as [|r0 pre IH]; intros r post ending w h Hs Hh Hc Hn Hf.
  - destruct w as [[tn st ct rh wh ch rc wc cc nrc nwc pe er] n rl cs fr tr];
      simpl in *; subst.
    unfold flight.
    destruct (TlsTunnel.HandShake tn) as [action t1] eqn:Ea.
    destruct (TlsTunnel.ReadCipherTextData t1) as [c t2] eqn:Ec.
    destruct r as [|buffer], action; try discriminate;
      apply andb_prop in Hf as [Hf _]; repeat apply andb_prop in Hf as [Hf _];
      try (apply negb_true_iff in Hf);
      cycle_once; rewrite Ea; simpl; rewrite Ec; simpl; rewrite Hf; simpl;
      eexists; unfold in_flight; simpl; split_and!; reflexivity.
  - destruct w as [[tn st ct rh wh ch rc wc cc nrc nwc pe er] n rl cs fr tr];
      simpl in *; subst.
    destruct (TlsTunnel.HandShake tn) as [action t1] eqn:Ea.
    destruct (TlsTunnel.ReadCipherTextData t1) as [c t2] eqn:Ec.
    assert (∀ r1, after_round tn r1 =
                  match r1 with
                  | Send => t2
                  | Receive buffer => TlsTunnel.WriteCipherTextData buffer t2
                  end) as ->
      by (intros r1; unfold after_round; rewrite Ea; simpl; by rewrite Ec).
    destruct r0 as [|buffer], action; try discriminate; simpl.
    + apply andb_prop in Hf as [Hb Hf].
      cycle_once; rewrite Ea; simpl; rewrite Ec; simpl; rewrite Hb; simpl.
      completion. by_induction' IH r post ending h Hf.
    + apply andb_prop in Hf as [Hb Hf].
      cycle_once; rewrite Ea; simpl; rewrite Ec; simpl; rewrite Hb; simpl.
      completion. by_induction' IH r post ending h Hf.
    + apply andb_prop in Hf as [Hf Hrest].
      apply andb_prop in Hf as [Hf He].
      apply andb_prop in Hf as [Hb Hl].
      apply negb_true_iff in Hb, He.
      cycle_once; rewrite Ea; simpl; rewrite Ec; simpl; rewrite Hb; simpl.
      completion. rewrite Hl; completion. rewrite He; completion.
      by_induction' IH r post ending h Hrest.
Qed.

(** [Connect] on a new flow, then the completion of the connect, is
    [HandShake] in the world [connecting]. *)
Lemma Connect_then_HandShake (t : T) endpoint handler script :
  run (CallConnect endpoint handler :: ConnectCompletes None :: script)
    (initial t) =
  bind HandShake (λ _, run script) (connecting endpoint handler t).
Proof.
  simpl. unfold Connect. completion. reflexivity.
Qed.

(** X1.  The handshake completes.  For every tunnel, endpoint, handler and
    plan of rounds that the tunnel follows to a success: on a new flow,
    [Connect], the completion of the connect and the completions of the
    rounds run without failure, the state machine is then Established,
    [ConnectingTo] returns the endpoint, the connect handler has been called
    exactly once, with no error, its slot is empty, and nothing is in flight
    at the next hop or posted to the runloop. *)
Theorem handshake_completes (t : T) endpoint handler plan :
  follows plan Succeeds (TlsTunnel.SetDomain (host endpoint) t) = true →
  ∃ w,
    run (CallConnect endpoint handler :: ConnectCompletes None ::
         handshake_script plan Succeeds) (initial t) = Done tt w ∧
    StateMachine w = Done FlowStateMachine.Established w ∧
    ConnectingTo w = Done (Some endpoint) w ∧
    trace w = [ConnectHandlerCalled handler None (Some handler)] ∧
    connect_handler_ (flow w) = None ∧
    data_flow_ w = {| connects := []; reads := []; writes := [] |} ∧
    runloop w = [].
Proof.
  intros Hf. rewrite Connect_then_HandShake.
  destruct (drive plan Succeeds (connecting endpoint handler t) handler)
    as (w & Hrun & Hs & Ht & Hh & Hn & Hr & _ & _ & Hc);
    try reflexivity; [exact Hf|].
  exists w. split_and!; try done.
  - unfold StateMachine, get. by rewrite Hs.
  - unfold ConnectingTo, get. by rewrite Hc.
Qed.

(** X2.  The flights go out in order, one at a time.  For every plan that
    the tunnel follows, at every round of it: when the rounds before have
    completed, the flow is still Connecting, no handler has been called,
    and exactly one operation is in flight at the next hop, of the kind of
    the round: a write of exactly the ciphertext that the tunnel hands out
    in that cycle, or a read of capacity 8192; its continuation captures
    [connect_cancelable_]. *)
Theorem handshake_flights_go_out_in_order (t : T) endpoint handler
    pre r post ending :
  follows (pre ++ r :: post) ending
    (TlsTunnel.SetDomain (host endpoint) t) = true →
  ∃ w,
    run (CallConnect endpoint handler :: ConnectCompletes None ::
         map round_step pre) (initial t) = Done tt w ∧
    trace w = [] ∧
    runloop w = [] ∧
    StateMachine w = Done FlowStateMachine.Connecting w ∧
    in_flight r
      (flight (after_rounds pre (TlsTunnel.SetDomain (host endpoint) t)))
      (connect_cancelable_ (flow w)) (data_flow_ w).
Proof.
  intros Hf. rewrite Connect_then_HandShake.
  destruct (drive_to_round pre r post ending
              (connecting endpoint handler t) handler)
    as (w & Hrun & Ht & Hr & Hs & Hc & Hn); try reflexivity; [exact Hf|].
  exists w. split_and!; try done.
  - unfold StateMachine, get. by rewrite Hs.
  - by rewrite Hc.
Qed.

(** X3.  A failed handshake is reported once.  If the connect of the next
    hop fails, the connect handler receives that error, the flow stays
    Connecting and the tunnel has only been given the domain.  If the
    tunnel answers Error in some cycle, or the next hop fails the write or
    the read in flight, the state machine is then Errored, the connect
    handler has been called exactly once, with the general error in the
    first case and with the error of the next hop otherwise, its slot still
    holds it, and nothing is in flight or posted. *)
Theorem handshake_failure_is_reported_once (t : T) endpoint handler :
  (∀ e, ∃ w,
     run [CallConnect endpoint handler; ConnectCompletes (Some e)]
       (initial t) = Done tt w ∧
     StateMachine w = Done FlowStateMachine.Connecting w ∧
     trace w = [ConnectHandlerCalled handler (Some e) (Some handler)] ∧
     tunnel_ (flow w) = TlsTunnel.SetDomain (host endpoint) t ∧
     data_flow_ w = {| connects := []; reads := []; writes := [] |}) ∧
  (∀ plan ending,
     ending ≠ Succeeds →
     follows plan ending (TlsTunnel.SetDomain (host endpoint) t) = true →
     ∃ w,
       run (CallConnect endpoint handler :: ConnectCompletes None ::
            handshake_script plan ending) (initial t) = Done tt w ∧
       StateMachine w = Done FlowStateMachine.Errored_ w ∧
       trace w =
         [ConnectHandlerCalled handler (ending_error ending) (Some handler)] ∧
       connect_handler_ (flow w) = Some handler ∧
       data_flow_ w = {| connects := []; reads := []; writes := [] |} ∧
       runloop w = []).
Proof.
  split.
  - intros e. eexists. simpl. unfold Connect. completion.
    unfold StateMachine, get. split_and!; reflexivity.
  - intros plan ending He Hf. rewrite Connect_then_HandShake.
    destruct (drive plan ending (connecting endpoint handler t) handler)
      as (w & Hrun & Hs & Ht & Hh & Hn & Hr & _); try reflexivity; [exact Hf|].
    exists w. split_and!; try done.
    + unfold StateMachine, get. rewrite Hs. by destruct ending.
    + rewrite Hh. by destruct ending.
Qed.

End HandshakeProofs.


(** ** Destruction *)

Section TokenProofs.
Context {T : Type} `{TlsTunnel.Ops T}.
Implicit Types w : World T.

(** The invariant [tokens_kept], as hypotheses and as a goal. *)
Ltac kept_hyps :=
  unfold tokens_kept, kept_connect, kept_read, kept_write, is_handshake_read,
    is_handshake_write in *;
  simpl in *;
  repeat match goal with
  | H : _ ∧ _ |- _ => destruct H
  | H : Forall _ (_ :: _) |- _ => apply Forall_cons in H
  | H : Forall _ [] |- _ => clear H
  end;
  simpl in *; subst.

Ltac kept_goal :=
  simpl in *; simplify_eq/=;
  unfold tokens_kept, kept_connect, kept_read, kept_write, is_handshake_read,
    is_handshake_write in *; simpl in *;
  split_and!; try assumption;
  repeat (apply Forall_cons; split); try apply Forall_nil;
  simpl; try assumption; try reflexivity; try congruence.

(** [ReportError] leaves the queues and the tokens alone; [Process] issues
    an operation of the steady state only when none is in flight, and
    stores its token; [HandShake] does so for the handshake. *)
Lemma ReportError_kept error first w d w' :
  ReportError error first w = Done d w' → tokens_kept w → tokens_kept w'.
Proof.
  open_world w.
  unfold ReportError, ReadReportError, WriteReportError; unfold_prims.
  intros Hrun Hk. kept_hyps. run_all; kept_goal.
Qed.

Lemma Process_kept w a w' :
  Process w = Done a w' → tokens_kept w → tokens_kept w'.
Proof.
  open_world w.
  unfold Process, ReportError, ReadReportError, WriteReportError,
    TryRead, TryWrite, TryReadNextHop, TryWriteNextHop; unfold_prims.
  intros Hrun Hk. kept_hyps. run_all; kept_goal.
Qed.

Lemma HandShake_kept w a w' :
  HandShake w = Done a w' →
  reads (data_flow_ w) = [] → writes (data_flow_ w) = [] →
  tokens_kept w → tokens_kept w'.
Proof.
  open_world w. unfold HandShake; unfold_prims.
  intros Hrun Hr Hw Hk. kept_hyps. run_all; kept_goal.
Qed.

Local Opaque Process HandShake ReportError.

(** The end of a path of a step. *)
Ltac kept_leaf :=
  simpl in *; simplify_eq/=;
  lazymatch goal with
  | H : Process _ = Done _ _ |- _ =>
      apply Process_kept in H; [exact H|kept_goal]
  | H : HandShake _ = Done _ _ |- _ =>
      apply HandShake_kept in H; [exact H|reflexivity|reflexivity|kept_goal]
  | H : ReportError _ _ _ = Done _ _ |- _ =>
      apply ReportError_kept in H; [exact H|kept_goal]
  | |- _ => kept_goal
  end.

(** Every path of a step, up to [Process], [HandShake] and [ReportError]. *)
Ltac steps :=
  unfold exec, Connect, Read, Write, CloseWrite, Destructor, Cancel,
    run_Posted, run_ConnectCallback, run_ReadCallback, run_WriteCallback,
    take_posted, take_connect, take_read, take_write in *;
  unfold_prims; run_all.

Lemma tokens_step s w w' :
  exec s w = Done tt w' → shape (view w) → tokens_kept w → tokens_kept w'.
Proof.
  intros Hrun Hshape Hk. apply shape_forms in Hshape.
  destruct w as [[tn st ct rh wh ch rc wc cc nrc nwc pe er] n rl cn fr tr].
  unfold view in *; simpl in *.
  destruct (running st) eqn:Hr.
  - assert (∃ rs ws,
        n = {| connects := []; reads := rs; writes := ws |} ∧
        (rs = [] ∨ ∃ n c t,
           rs = [{| pr_capacity := n; pr_callback := NextHopRead c;
                    pr_token := t |}]) ∧
        (ws = [] ∨ ∃ b c t,
           ws = [{| pw_buffer := b; pw_callback := NextHopWrite c;
                    pw_token := t |}])) as (rs & ws & -> & Hrs & Hws)
      by (destruct st; done).
    clear Hshape Hr.
    destruct Hrs as [-> | (cap & c & t & ->)],
      Hws as [-> | (b & c' & t' & ->)]; kept_hyps;
      destruct s; steps; kept_leaf.
  - destruct st; try discriminate; clear Hr.
    + subst n. kept_hyps. destruct s; steps; kept_leaf.
    + destruct Hshape as [-> | [(p & ->) | [(cap & c & t & ->)
                                          | (b & c & t & ->)]]];
        try destruct p as [ep k tk]; kept_hyps;
        destruct s; steps; kept_leaf.
Qed.

Lemma run_tokens script : ∀ w w',
  run script w = Done tt w' →
  shape (view w) → tokens_kept w → tokens_kept w'.
Proof.
  induction script as [|s rest IH]; intros w w' Hrun Hs Hk.
  - apply run_nil in Hrun. by subst.
  - apply run_cons in Hrun as (w1 & Hstep & Hrest).
    apply (IH w1); [done| |by eapply tokens_step].
    eapply shape_step; [|done]. by apply exec_effect.
Qed.

Lemma initial_tokens (t : T) : tokens_kept (initial t).
Proof. unfold tokens_kept. simpl. split_and!; constructor. Qed.

(** The destructor cancels every operation in flight and changes nothing
    else. *)
Lemma Destructor_cancels w :
  tokens_kept w →
  ∃ w', Destructor w = Done tt w' ∧
        flow w' = flow w ∧ data_flow_ w' = data_flow_ w ∧
        runloop w' = runloop w ∧ trace w' = trace w ∧
        all_canceled w'.
Proof.
  intros (Hc & Hr & Hw). eexists. split; [reflexivity|].
  unfold all_canceled. simpl. split_and!; try reflexivity.
  - eapply Forall_impl; [exact Hc|]. intros p Hp. eexists. split; [exact Hp|].
    rewrite !elem_of_union, !elem_of_singleton. tauto.
  - eapply Forall_impl; [exact Hr|]. intros p Hp. unfold kept_read in Hp.
    rewrite !elem_of_union, !elem_of_singleton.
    destruct (is_handshake_read p); tauto.
  - eapply Forall_impl; [exact Hw|]. intros p Hp. unfold kept_write in Hp.
    rewrite !elem_of_union, !elem_of_singleton.
    destruct (is_handshake_write p); tauto.
Qed.

(** The completion of a canceled operation only takes it out of the
    queue. *)
Lemma canceled_completion s w :
  is_completion s = true → all_canceled w →
  match exec s w with
  | Done _ w' =>
      all_canceled w' ∧ flow w' = flow w ∧ trace w' = trace w ∧
      runloop w' = runloop w
  | Abort f => f = NotEnabled
  end.
Proof.
  intros Hs (Hc & Hr & Hw).
  destruct w as [f [cs rs ws] rl cn fr tr]. unfold all_canceled in *.
  simpl in *.
  destruct s; try discriminate;
    unfold exec, take_connect, take_read, take_write, run_ConnectCallback,
      is_canceled, bind, ret, abort; simpl.
  - destruct cs as [|p cs]; [done|]. simpl.
    apply Forall_cons in Hc as [(c & Hp & Hin) Hc].
    destruct (bool_decide (pc_token p ∈ cn)); simpl; [done|].
    rewrite Hp. simpl. rewrite bool_decide_eq_true_2 by done. done.
  - destruct rs as [|p rs]; [done|]. simpl.
    apply Forall_cons in Hr as [Hin Hr].
    destruct (negb _); simpl; [done|].
    rewrite bool_decide_eq_true_2 by done. done.
  - destruct ws as [|p ws]; [done|]. simpl.
    apply Forall_cons in Hw as [Hin Hw].
    rewrite bool_decide_eq_true_2 by done. done.
Qed.

(** X4.  A destroyed flow ignores the next hop.  In every run from a new
    flow, the destructor cancels every operation that the flow has in flight
    at the next hop: the token captured by the continuation of a connect,
    the own token of a read or a write.  Whatever then completes there,
    however and in whatever order, no handler is called, no member of the
    flow changes and nothing is posted: a completion is either discarded or
    not enabled. *)
Theorem destroyed_flow_ignores_completions (t : T) script completions w0 w1 :
  run script (initial t) = Done tt w0 →
  exec Destroy w0 = Done tt w1 →
  Forall (λ s, is_completion s = true) completions →
  all_canceled w1 ∧
  match run completions w1 with
  | Done _ w =>
      flow w = flow w0 ∧ trace w = trace w0 ∧ runloop w = runloop w0
  | Abort f => f = NotEnabled
  end.
Proof.
  intros Hrun Hd Hall.
  assert (tokens_kept w0) as Hk
    by (eapply run_tokens; [exact Hrun|apply initial_shape|apply initial_tokens]).
  destruct (Destructor_cancels w0 Hk) as (w1' & Hd' & Hf & _ & Hr & Ht & Hdead).
  simpl in Hd. rewrite Hd' in Hd. simplify_eq.
  split; [exact Hdead|].
  rewrite <-Hf, <-Ht, <-Hr. clear Hrun Hk Hd' Hf Hr Ht.
  revert w1 Hdead. induction Hall as [|s rest Hs Hall IH]; intros w1 Hdead.
  - done.
  - simpl. unfold bind.
    pose proof (canceled_completion s w1 Hs Hdead) as Hstep.
    destruct (exec s w1) as [[] w2|f]; [|done].
    destruct Hstep as (Hdead2 & Hf & Ht & Hr).
    specialize (IH w2 Hdead2).
    destruct (run rest w2) as [[] w|f]; [|done].
    destruct IH as (? & ? & ?). split_and!; congruence.
Qed.

End TokenProofs.

(** ** Transfers *)

Section Transfers.
Context {T : Type} `{TlsTunnel.Ops T}.
Implicit Types w : World T.

(** X9.  Transfers are not answered within the call.  In any world with no
    error stored in [pending_error_], a [Read] that returns has called no
    handler: the trace is as before, the handler is in its slot, the token
    returned is new and is the one in [read_cancelable_], and the write slot
    is untouched; likewise for [Write].  Whatever the tunnel holds, the
    answer comes through the runloop or the next hop. *)
Theorem transfers_are_never_answered_inline w :
  pending_error_ (flow w) = None →
  (∀ buffer handler c w',
     Read buffer handler w = Done c w' →
     trace w' = trace w ∧ c = fresh w ∧
     read_handler_ (flow w') = Some handler ∧
     read_cancelable_ (flow w') = c ∧
     write_handler_ (flow w') = write_handler_ (flow w)) ∧
  (∀ buffer handler c w',
     Write buffer handler w = Done c w' →
     trace w' = trace w ∧ c = fresh w ∧
     write_handler_ (flow w') = Some handler ∧
     write_cancelable_ (flow w') = c ∧
     read_handler_ (flow w') = read_handler_ (flow w)).
Proof.
  destruct w as [[tn st ct rh wh ch rc wc cc nrc nwc pe er] [cs rs ws] rl cn fr tr].
  simpl. intros ->. split.
  - intros buffer handler c w' Hrun. unfold_flow.
    run_all; simpl in *; simplify_eq/=; split_and!; reflexivity.
  - intros buffer handler c w' Hrun. unfold_flow.
    run_all; simpl in *; simplify_eq/=; split_and!; reflexivity.
Qed.

(** X10.  [TryWrite], by what the tunnel says.  When the tunnel has no
    ciphertext left, a [Write] that is armed is completed at once: the
    completion is posted with the current write token, whether or not a
    write is still in flight at the next hop, and nothing is posted with no
    handler.  When ciphertext is left, nothing is posted and no handler is
    called, and one write of that ciphertext is issued unless the next hop
    is already writing. *)
Theorem TryWrite_posts_or_issues w :
  (TlsTunnel.FinishWritingCipherData (tunnel_ (flow w)) = true →
   TryWrite w =
   match write_handler_ (flow w) with
   | Some _ =>
       Done tt (set_runloop
                  (runloop w ++ [DeliverWrite (write_cancelable_ (flow w))]) w)
   | None => Done tt w
   end) ∧
  (TlsTunnel.FinishWritingCipherData (tunnel_ (flow w)) = false →
   ∃ w', TryWrite w = Done tt w' ∧
         runloop w' = runloop w ∧ trace w' = trace w ∧
         write_handler_ (flow w') = write_handler_ (flow w) ∧
         writes (data_flow_ w') =
           writes (data_flow_ w) ++
           (if NextHop_IsWriting (data_flow_ w) then []
            else [next_hop_write_of w])).
Proof.
  split; intros Hf.
  - unfold TryWrite; unfold_prims. simpl. rewrite Hf. simpl.
    destruct (write_handler_ (flow w)); simpl; [done|]. by rewrite Hf.
  - unfold TryWrite, TryWriteNextHop, next_hop_write_of; unfold_prims. simpl.
    rewrite Hf. simpl. rewrite Hf. simpl.
    destruct (writes (data_flow_ w)) eqn:Ew; simpl.
    + rewrite Hf. simpl.
      destruct (TlsTunnel.ReadCipherTextData (tunnel_ (flow w)))
        as [b t'] eqn:Eb.
      simpl. eexists. split_and!; try reflexivity. simpl. by rewrite Ew.
    + eexists. split_and!; try reflexivity. by rewrite app_nil_r.
Qed.

End Transfers.

(** ** The data paths *)

Section Lifecycles.
Context {T : Type} `{TlsTunnel.Ops T}.
Implicit Types w : World T.

(** The facts of a path: what the tunnel answered, and which tokens are
    live. *)
Ltac path_facts :=
  simpl in *; simplify_eq/=;
  repeat match goal with
  | E : bool_decide (_ ∈ _) = true |- _ => apply bool_decide_eq_true in E
  | E : _ = (_, _) |- _ => rewrite E in *
  end;
  simpl in *;
  repeat match goal with
  | E : ?x = true, H' : context [?x] |- _ =>
      lazymatch x with true => fail | false => fail | _ => idtac end;
      tryif constr_eq E H' then fail else rewrite E in H'
  | E : ?x = false, H' : context [?x] |- _ =>
      lazymatch x with true => fail | false => fail | _ => idtac end;
      tryif constr_eq E H' then fail else rewrite E in H'
  end;
  simpl in *.

(** The end of a path: it contradicts the hypotheses, or the facts hold
    in the world reached. *)
Ltac path_end :=
  path_facts;
  first [ done_path | idtac ]
with done_path :=
  first [ contradiction
        | discriminate
        | congruence
        | split_and!;
          first [ reflexivity | assumption | congruence | lia
                | repeat constructor; simpl; lia ] ].

(** [Write] on an idle flow: the plaintext goes into the tunnel and the
    ciphertext to the next hop. *)
Lemma Write_issues w buffer handler s1 r :
  error_reported_ (flow w) = false →
  pending_error_ (flow w) = None →
  read_handler_ (flow w) = None →
  runloop w = [] →
  writes (data_flow_ w) = [] →
  FlowStateMachine.WriteBegin (state_machine_ (flow w)) = Some s1 →
  TlsTunnel.FinishWritingCipherData
    (TlsTunnel.WritePlainTextData buffer (tunnel_ (flow w))) = false →
  Write buffer handler w = r →
  match r with
  | Done c w1 =>
      c = fresh w ∧ trace w1 = trace w ∧ runloop w1 = [] ∧
      canceled w1 = canceled w ∧
      tunnel_ (flow w1) =
        snd (TlsTunnel.ReadCipherTextData
               (TlsTunnel.WritePlainTextData buffer (tunnel_ (flow w)))) ∧
      state_machine_ (flow w1) = s1 ∧
      write_handler_ (flow w1) = Some handler ∧
      write_cancelable_ (flow w1) = fresh w ∧
      read_handler_ (flow w1) = None ∧
      error_reported_ (flow w1) = false ∧
      pending_error_ (flow w1) = None ∧
      map pw_buffer (writes (data_flow_ w1)) =
        [fst (TlsTunnel.ReadCipherTextData
                (TlsTunnel.WritePlainTextData buffer (tunnel_ (flow w))))] ∧
      map pw_callback (writes (data_flow_ w1)) = [NextHopWrite (fresh w)] ∧
      Forall (λ p, fresh w ≤ pw_token p) (writes (data_flow_ w1))
  | Abort _ => False
  end.
Proof.
  destruct w as [[tn st ct rh wh ch rc wc cc nrc nwc pe er] [cs rs ws] rl cn fr tr].
  simpl. intros -> -> -> -> -> Hb Hf1 Hrun.
  unfold FlowStateMachine.WriteBegin in Hb.
  unfold_flow. run_all; path_end.
Qed.

(** The inner write completes: with the tunnel drained and a write handler
    armed, the completion is posted, and nothing is called. *)
Lemma inner_write_completion_posts w p rest handler r :
  writes (data_flow_ w) = p :: rest →
  pw_callback p = NextHopWrite (write_cancelable_ (flow w)) →
  pw_token p ∉ canceled w →
  write_cancelable_ (flow w) ∉ canceled w →
  error_reported_ (flow w) = false →
  pending_error_ (flow w) = None →
  read_handler_ (flow w) = None →
  write_handler_ (flow w) = Some handler →
  TlsTunnel.FinishWritingCipherData (tunnel_ (flow w)) = true →
  exec (WriteCompletes None) w = r →
  match r with
  | Done _ w' =>
      trace w' = trace w ∧
      runloop w' = runloop w ++ [DeliverWrite (write_cancelable_ (flow w))] ∧
      canceled w' = canceled w ∧
      write_handler_ (flow w') = Some handler ∧
      write_cancelable_ (flow w') = write_cancelable_ (flow w) ∧
      state_machine_ (flow w') = state_machine_ (flow w)
  | Abort _ => False
  end.
Proof.
  destruct w as [[tn st ct rh wh ch rc wc cc nrc nwc pe er] [cs rs ws] rl cn fr tr].
  destruct p as [b k tok].
  simpl. intros -> -> Hl1 Hl2 -> -> -> -> Hf Hrun.
  unfold_flow. run_all; path_end.
Qed.

(** A posted write completion runs with a live token. *)
Lemma posted_write_completion_calls w c rest handler s' r :
  runloop w = DeliverWrite c :: rest →
  c ∉ canceled w →
  write_handler_ (flow w) = Some handler →
  FlowStateMachine.WriteEnd (state_machine_ (flow w)) = Some s' →
  exec RunloopTurn w = r →
  match r with
  | Done _ w' =>
      trace w' = trace w ++ [WriteHandlerCalled handler None None] ∧
      write_handler_ (flow w') = None ∧
      state_machine_ (flow w') = s' ∧
      runloop w' = rest
  | Abort _ => False
  end.
Proof.
  destruct w as [[tn st ct rh wh ch rc wc cc nrc nwc pe er] [cs rs ws] rl cn fr tr].
  simpl. intros -> Hl -> He Hrun.
  unfold FlowStateMachine.WriteEnd in He.
  unfold_flow. run_all; path_end.
Qed.

(** X11.  The write path.  On a flow with no error, no read armed, nothing
    posted and no write in flight, whose unused tokens are live: if the
    tunnel turns the plaintext into ciphertext that it hands out in one
    piece, then [Write] calls no handler and gives the next hop exactly
    that ciphertext; when the next hop completes the write, the completion
    is posted, still without a call; and the next turn of the runloop calls
    the handler once, with no error, with its slot emptied before the call,
    and takes the state machine back to where it was. *)
Theorem written_plaintext_goes_down_and_completes w buffer handler s1 :
  error_reported_ (flow w) = false →
  pending_error_ (flow w) = None →
  read_handler_ (flow w) = None →
  runloop w = [] →
  writes (data_flow_ w) = [] →
  (∀ c, fresh w ≤ c → c ∉ canceled w) →
  FlowStateMachine.WriteBegin (state_machine_ (flow w)) = Some s1 →
  TlsTunnel.FinishWritingCipherData
    (TlsTunnel.WritePlainTextData buffer (tunnel_ (flow w))) = false →
  TlsTunnel.FinishWritingCipherData
    (snd (TlsTunnel.ReadCipherTextData
            (TlsTunnel.WritePlainTextData buffer (tunnel_ (flow w))))) = true →
  ∃ w1 w2 w3,
    Write buffer handler w = Done (fresh w) w1 ∧
    trace w1 = trace w ∧
    map pw_buffer (writes (data_flow_ w1)) =
      [fst (TlsTunnel.ReadCipherTextData
              (TlsTunnel.WritePlainTextData buffer (tunnel_ (flow w))))] ∧
    exec (WriteCompletes None) w1 = Done tt w2 ∧
    trace w2 = trace w ∧
    runloop w2 = [DeliverWrite (fresh w)] ∧
    exec RunloopTurn w2 = Done tt w3 ∧
    trace w3 = trace w ++ [WriteHandlerCalled handler None None] ∧
    write_handler_ (flow w3) = None ∧
    state_machine_ (flow w3) = state_machine_ (flow w).
Proof.
  intros H1 H2 H3 H4 H5 Hlive H7 H8 H9.
  assert (FlowStateMachine.WriteEnd s1 = Some (state_machine_ (flow w))) as Hend.
  { revert H7. destruct (state_machine_ (flow w)); simpl; intros H7;
      try discriminate; injection H7 as <-; reflexivity. }
  pose proof (Write_issues w buffer handler s1 (Write buffer handler w)
                H1 H2 H3 H4 H5 H7 H8 eq_refl) as Hw.
  destruct (Write buffer handler w) as [c w1|]; [|destruct Hw].
  destruct Hw as (-> & Ht1 & Hr1 & Hc1 & Htn & Hs1 & Hh1 & Hwc & Hrh & He1 &
                  Hp1 & Hb & Hk & Htok).
  destruct (writes (data_flow_ w1)) as [|p [|? ?]] eqn:Ew; try discriminate.
  simpl in Hb, Hk. apply Forall_cons in Htok as [Htok _].
  pose proof (inner_write_completion_posts w1 p [] handler
                (exec (WriteCompletes None) w1) Ew) as Hc.
  rewrite Hwc, Hc1, Htn in Hc.
  specialize (Hc ltac:(congruence) (Hlive _ Htok) (Hlive _ (le_n _))
                He1 Hp1 Hrh Hh1 H9 eq_refl).
  destruct (exec (WriteCompletes None) w1) as [[] w2|] eqn:E2; [|destruct Hc].
  destruct Hc as (Ht2 & Hr2 & Hc2 & Hh2 & Hwc2 & Hs2).
  rewrite Hr1 in Hr2. simpl in Hr2.
  pose proof (posted_write_completion_calls w2 (fresh w) [] handler
                (state_machine_ (flow w)) (exec RunloopTurn w2) Hr2) as Hd.
  rewrite Hc2, Hs2, Hs1 in Hd.
  specialize (Hd (Hlive _ (le_n _)) Hh2 Hend eq_refl).
  destruct (exec RunloopTurn w2) as [[] w3|] eqn:E3; [|destruct Hd].
  destruct Hd as (Ht3 & Hh3 & Hs3 & _).
  exists w1, w2, w3. rewrite Ew. simpl.
  split_and!; first [reflexivity|assumption|congruence].
Qed.

(** [Read] on an idle flow with no plaintext buffered: the next hop is
    asked for bytes. *)
Lemma Read_issues w buffer handler s1 r :
  error_reported_ (flow w) = false →
  pending_error_ (flow w) = None →
  write_handler_ (flow w) = None →
  runloop w = [] →
  reads (data_flow_ w) = [] →
  FlowStateMachine.ReadBegin (state_machine_ (flow w)) = Some s1 →
  TlsTunnel.HasPlainTextDataToRead (tunnel_ (flow w)) = false →
  TlsTunnel.FinishWritingCipherData (tunnel_ (flow w)) = true →
  Read buffer handler w = r →
  match r with
  | Done c w1 =>
      c = fresh w ∧ trace w1 = trace w ∧ runloop w1 = [] ∧
      canceled w1 = canceled w ∧
      tunnel_ (flow w1) = tunnel_ (flow w) ∧
      state_machine_ (flow w1) = s1 ∧
      read_handler_ (flow w1) = Some handler ∧
      read_cancelable_ (flow w1) = fresh w ∧
      write_handler_ (flow w1) = None ∧
      error_reported_ (flow w1) = false ∧
      pending_error_ (flow w1) = None ∧
      map pr_capacity (reads (data_flow_ w1)) = [8192%N] ∧
      map pr_callback (reads (data_flow_ w1)) = [NextHopRead (fresh w)] ∧
      Forall (λ p, fresh w ≤ pr_token p) (reads (data_flow_ w1))
  | Abort _ => False
  end.
Proof.
  destruct w as [[tn st ct rh wh ch rc wc cc nrc nwc pe er] [cs rs ws] rl cn fr tr].
  simpl. intros -> -> -> -> -> Hb Hp Hf Hrun.
  unfold FlowStateMachine.ReadBegin in Hb.
  unfold_flow. run_all; path_end.
Qed.

(** The inner read completes with bytes: they are fed to the tunnel; if
    plaintext comes out, its delivery is posted, otherwise the read stays
    armed and the next hop is asked again. *)
Lemma inner_read_completion_feeds w p handler input r :
  reads (data_flow_ w) = [p] →
  pr_callback p = NextHopRead (read_cancelable_ (flow w)) →
  (N.of_nat (length input) <=? pr_capacity p)%N = true →
  pr_token p ∉ canceled w →
  read_cancelable_ (flow w) ∉ canceled w →
  error_reported_ (flow w) = false →
  pending_error_ (flow w) = None →
  write_handler_ (flow w) = None →
  read_handler_ (flow w) = Some handler →
  exec (ReadCompletes input None) w = r →
  match r with
  | Done _ w' =>
      trace w' = trace w ∧
      canceled w' = canceled w ∧
      read_handler_ (flow w') = Some handler ∧
      read_cancelable_ (flow w') = read_cancelable_ (flow w) ∧
      state_machine_ (flow w') = state_machine_ (flow w) ∧
      if TlsTunnel.HasPlainTextDataToRead
           (TlsTunnel.WriteCipherTextData input (tunnel_ (flow w)))
      then
        runloop w' =
          runloop w ++
          [DeliverRead
             (fst (TlsTunnel.ReadPlainTextData
                     (TlsTunnel.WriteCipherTextData input (tunnel_ (flow w)))))
             (read_cancelable_ (flow w))]
      else
        runloop w' = runloop w ∧
        map pr_capacity (reads (data_flow_ w')) = [8192%N]
  | Abort _ => False
  end.
Proof.
  destruct w as [[tn st ct rh wh ch rc wc cc nrc nwc pe er] [cs rs ws] rl cn fr tr].
  destruct p as [cap k tok].
  simpl. intros -> -> Hl Hl1 Hl2 -> -> -> -> Hrun.
  unfold_flow. run_all; path_end.
Qed.

(** A posted read delivery runs with a live token. *)
Lemma posted_read_delivery_calls w b c rest handler s' r :
  runloop w = DeliverRead b c :: rest →
  c ∉ canceled w →
  read_handler_ (flow w) = Some handler →
  FlowStateMachine.ReadEnd (state_machine_ (flow w)) = Some s' →
  exec RunloopTurn w = r →
  match r with
  | Done _ w' =>
      trace w' = trace w ++ [ReadHandlerCalled handler b None None] ∧
      read_handler_ (flow w') = None ∧
      state_machine_ (flow w') = s' ∧
      runloop w' = rest
  | Abort _ => False
  end.
Proof.
  destruct w as [[tn st ct rh wh ch rc wc cc nrc nwc pe er] [cs rs ws] rl cn fr tr].
  simpl. intros -> Hl -> He Hrun.
  unfold FlowStateMachine.ReadEnd in He.
  unfold_flow. run_all; path_end.
Qed.

(** X12.  The read path.  On a flow with no error, no write armed, nothing
    posted, no read in flight and nothing to send, whose unused tokens are
    live: with no plaintext buffered, [Read] calls no handler and asks the
    next hop for up to 8192 bytes; when these arrive they are fed to the
    tunnel, and if plaintext comes out, its delivery is posted, still
    without a call; the next turn of the runloop calls the handler once
    with exactly that plaintext and no error, with its slot emptied before
    the call, and takes the state machine back to where it was. *)
Theorem received_ciphertext_comes_up_as_plaintext w buffer handler s1 input :
  error_reported_ (flow w) = false →
  pending_error_ (flow w) = None →
  write_handler_ (flow w) = None →
  runloop w = [] →
  reads (data_flow_ w) = [] →
  (∀ c, fresh w ≤ c → c ∉ canceled w) →
  FlowStateMachine.ReadBegin (state_machine_ (flow w)) = Some s1 →
  TlsTunnel.HasPlainTextDataToRead (tunnel_ (flow w)) = false →
  TlsTunnel.FinishWritingCipherData (tunnel_ (flow w)) = true →
  (N.of_nat (length input) ≤ 8192)%N →
  TlsTunnel.HasPlainTextDataToRead
    (TlsTunnel.WriteCipherTextData input (tunnel_ (flow w))) = true →
  ∃ w1 w2 w3,
    Read buffer handler w = Done (fresh w) w1 ∧
    trace w1 = trace w ∧
    map pr_capacity (reads (data_flow_ w1)) = [8192%N] ∧
    exec (ReadCompletes input None) w1 = Done tt w2 ∧
    trace w2 = trace w ∧
    runloop w2 =
      [DeliverRead
         (fst (TlsTunnel.ReadPlainTextData
                 (TlsTunnel.WriteCipherTextData input (tunnel_ (flow w)))))
         (fresh w)] ∧
    exec RunloopTurn w2 = Done tt w3 ∧
    trace w3 =
      trace w ++
      [ReadHandlerCalled handler
         (fst (TlsTunnel.ReadPlainTextData
                 (TlsTunnel.WriteCipherTextData input (tunnel_ (flow w)))))
         None None] ∧
    read_handler_ (flow w3) = None ∧
    state_machine_ (flow w3) = state_machine_ (flow w).
Proof.
  intros H1 H2 H3 H4 H5 Hlive H7 H8 H9 Hlen H10.
  assert (FlowStateMachine.ReadEnd s1 = Some (state_machine_ (flow w))) as Hend.
  { revert H7. destruct (state_machine_ (flow w)); simpl; intros H7;
      try discriminate; injection H7 as <-; reflexivity. }
  pose proof (Read_issues w buffer handler s1 (Read buffer handler w)
                H1 H2 H3 H4 H5 H7 H8 H9 eq_refl) as Hw.
  destruct (Read buffer handler w) as [c w1|]; [|destruct Hw].
  destruct Hw as (-> & Ht1 & Hr1 & Hc1 & Htn & Hs1 & Hh1 & Hrc & Hwh & He1 &
                  Hp1 & Hcap & Hk & Htok).
  destruct (reads (data_flow_ w1)) as [|p [|? ?]] eqn:Er; try discriminate.
  simpl in Hcap, Hk. apply Forall_cons in Htok as [Htok _].
  pose proof (inner_read_completion_feeds w1 p handler input
                (exec (ReadCompletes input None) w1) Er) as Hc.
  rewrite Hrc, Hc1, Htn in Hc.
  assert ((N.of_nat (length input) <=? pr_capacity p)%N = true) as Hfit.
  { apply N.leb_le. congruence. }
  specialize (Hc ltac:(congruence) Hfit (Hlive _ Htok) (Hlive _ (le_n _))
                He1 Hp1 Hwh Hh1 eq_refl).
  destruct (exec (ReadCompletes input None) w1) as [[] w2|] eqn:E2;
    [|destruct Hc].
  rewrite H10 in Hc.
  destruct Hc as (Ht2 & Hc2 & Hh2 & Hrc2 & Hs2 & Hr2).
  rewrite Hr1 in Hr2. simpl in Hr2.
  pose proof (posted_read_delivery_calls w2 _ (fresh w) [] handler
                (state_machine_ (flow w)) (exec RunloopTurn w2) Hr2) as Hd.
  rewrite Hc2, Hs2, Hs1 in Hd.
  specialize (Hd (Hlive _ (le_n _)) Hh2 Hend eq_refl).
  destruct (exec RunloopTurn w2) as [[] w3|] eqn:E3; [|destruct Hd].
  destruct Hd as (Ht3 & Hh3 & Hs3 & _).
  exists w1, w2, w3. rewrite Er. simpl.
  split_and!; first [reflexivity|assumption|congruence].
Qed.

(** X13.  Short input keeps the read pending.  In the same situation, if
    the bytes that arrive give the tunnel no plaintext to hand out, no
    handler is called and nothing is posted: the handler stays in its slot
    and the next hop is asked again for up to 8192 bytes. *)
Theorem short_input_keeps_the_read_pending w buffer handler s1 input :
  error_reported_ (flow w) = false →
  pending_error_ (flow w) = None →
  write_handler_ (flow w) = None →
  runloop w = [] →
  reads (data_flow_ w) = [] →
  (∀ c, fresh w ≤ c → c ∉ canceled w) →
  FlowStateMachine.ReadBegin (state_machine_ (flow w)) = Some s1 →
  TlsTunnel.HasPlainTextDataToRead (tunnel_ (flow w)) = false →
  TlsTunnel.FinishWritingCipherData (tunnel_ (flow w)) = true →
  (N.of_nat (length input) ≤ 8192)%N →
  TlsTunnel.HasPlainTextDataToRead
    (TlsTunnel.WriteCipherTextData input (tunnel_ (flow w))) = false →
  ∃ w1 w2,
    Read buffer handler w = Done (fresh w) w1 ∧
    exec (ReadCompletes input None) w1 = Done tt w2 ∧
    trace w2 = trace w ∧
    runloop w2 = [] ∧
    read_handler_ (flow w2) = Some handler ∧
    map pr_capacity (reads (data_flow_ w2)) = [8192%N].
Proof.
  intros H1 H2 H3 H4 H5 Hlive H7 H8 H9 Hlen H10.
  pose proof (Read_issues w buffer handler s1 (Read buffer handler w)
                H1 H2 H3 H4 H5 H7 H8 H9 eq_refl) as Hw.
  destruct (Read buffer handler w) as [c w1|]; [|destruct Hw].
  destruct Hw as (-> & Ht1 & Hr1 & Hc1 & Htn & Hs1 & Hh1 & Hrc & Hwh & He1 &
                  Hp1 & Hcap & Hk & Htok).
  destruct (reads (data_flow_ w1)) as [|p [|? ?]] eqn:Er; try discriminate.
  simpl in Hcap, Hk. apply Forall_cons in Htok as [Htok _].
  pose proof (inner_read_completion_feeds w1 p handler input
                (exec (ReadCompletes input None) w1) Er) as Hc.
  rewrite Hrc, Hc1, Htn in Hc.
  assert ((N.of_nat (length input) <=? pr_capacity p)%N = true) as Hfit.
  { apply N.leb_le. congruence. }
  specialize (Hc ltac:(congruence) Hfit (Hlive _ Htok) (Hlive _ (le_n _))
                He1 Hp1 Hwh Hh1 eq_refl).
  destruct (exec (ReadCompletes input None) w1) as [[] w2|] eqn:E2;
    [|destruct Hc].
  rewrite H10 in Hc.
  destruct Hc as (Ht2 & Hc2 & Hh2 & Hrc2 & Hs2 & Hr2 & Hcap2).
  exists w1, w2.
  split_and!; first [reflexivity|assumption|congruence].
Qed.

End Lifecycles.

(** ** The handlers called and the handlers armed *)

Section Ledgers.

Context {T : Type} `{TlsTunnel.Ops T}.
Implicit Types w : World T.

(** *** The handlers called and the handlers armed, in order *)

Lemma slot_moved_exact {A} (slot slot' : option A) called called' :
  slot_moved slot slot' called called' →
  called' ++ option_list slot' = called ++ option_list slot.
Proof.
  intros [[-> ->] | (h & -> & -> & ->)]; [done|]. simpl. by rewrite app_nil_r.
Qed.

Lemma read_exact_step s v v' :
  step_effect s v v' → slots_follow v →
  read_calls (v_trace v') ++ option_list (v_read v') =
  (read_calls (v_trace v) ++ option_list (v_read v)) ++ read_armings [s].
Proof.
  intros Heff [Hr _].
  destruct s; simpl in *; rewrite ?app_nil_r.
  - destruct Heff as (_ & _ & _ & _ & _ & -> & _ & ->). done.
  - destruct Heff as (s1 & Hb & _ & _ & _ & _ & Hm & _).
    apply slot_moved_exact in Hm. simpl in Hm. rewrite Hm.
    destruct (v_read v) as [h'|]; [|by rewrite app_nil_r].
    specialize (Hr eq_refl). destruct (v_state v); simplify_eq/=.
  - destruct Heff as (s1 & _ & _ & _ & _ & _ & Hm & _).
    by apply slot_moved_exact in Hm.
  - by subst.
  - by subst.
  - by subst.
  - destruct Heff as [-> | [(h & -> & _ & _ & -> & _ & b & ->)
                           | (h & _ & _ & _ & _ & -> & ->)]]; [done|..].
    + rewrite read_calls_snoc. simpl. by rewrite app_nil_r.
    + by rewrite read_calls_snoc, app_nil_r.
  - destruct (connects (v_next v)); [done|].
    destruct Heff as [-> | (-> & _ & -> & _)]; done.
  - destruct (reads (v_next v)) as [|p ?]; [done|].
    destruct Heff as [-> | Heff]; [done|]. destruct (is_handshake_read p).
    + by destruct Heff as (-> & _ & -> & _).
    + destruct Heff as (_ & _ & _ & _ & Hm & _). by apply slot_moved_exact in Hm.
  - destruct (writes (v_next v)) as [|p ?]; [done|].
    destruct Heff as [-> | Heff]; [done|]. destruct (is_handshake_write p).
    + by destruct Heff as (-> & _ & -> & _).
    + destruct Heff as (_ & _ & _ & _ & Hm & _). by apply slot_moved_exact in Hm.
Qed.

Lemma write_exact_step s v v' :
  step_effect s v v' → slots_follow v →
  write_calls (v_trace v') ++ option_list (v_write v') =
  (write_calls (v_trace v) ++ option_list (v_write v)) ++ write_armings [s].
Proof.
  intros Heff [_ Hw].
  destruct s; simpl in *; rewrite ?app_nil_r.
  - destruct Heff as (_ & _ & _ & _ & _ & _ & -> & ->). done.
  - destruct Heff as (s1 & _ & _ & _ & _ & _ & _ & Hm & _).
    by apply slot_moved_exact in Hm.
  - destruct Heff as (s1 & Hb & _ & _ & _ & _ & _ & Hm & _).
    apply slot_moved_exact in Hm. simpl in Hm. rewrite Hm.
    destruct (v_write v) as [h'|]; [|by rewrite app_nil_r].
    specialize (Hw eq_refl). destruct (v_state v); simplify_eq/=.
  - by subst.
  - by subst.
  - by subst.
  - destruct Heff as [-> | [(h & _ & _ & _ & _ & -> & b & ->)
                           | (h & -> & _ & _ & -> & _ & ->)]]; [done|..].
    + by rewrite write_calls_snoc, app_nil_r.
    + rewrite write_calls_snoc. simpl. by rewrite app_nil_r.
  - destruct (connects (v_next v)); [done|].
    destruct Heff as [-> | (_ & -> & _ & -> & _)]; done.
  - destruct (reads (v_next v)) as [|p ?]; [done|].
    destruct Heff as [-> | Heff]; [done|]. destruct (is_handshake_read p).
    + by destruct Heff as (_ & -> & _ & -> & _).
    + destruct Heff as (_ & _ & _ & _ & _ & Hm & _).
      by apply slot_moved_exact in Hm.
  - destruct (writes (v_next v)) as [|p ?]; [done|].
    destruct Heff as [-> | Heff]; [done|]. destruct (is_handshake_write p).
    + by destruct Heff as (_ & -> & _ & -> & _).
    + destruct Heff as (_ & _ & _ & _ & _ & Hm & _).
      by apply slot_moved_exact in Hm.
Qed.

Lemma read_armings_cons s rest :
  read_armings (s :: rest) = read_armings [s] ++ read_armings rest.
Proof. by destruct s. Qed.

Lemma write_armings_cons s rest :
  write_armings (s :: rest) = write_armings [s] ++ write_armings rest.
Proof. by destruct s. Qed.

Lemma connect_armings_cons s rest :
  connect_armings (s :: rest) = connect_armings [s] ++ connect_armings rest.
Proof. by destruct s. Qed.

Lemma run_exact script : ∀ w w',
  run script w = Done tt w' →
  shape (view w) → slots_follow (view w) →
  read_calls (trace w') ++ option_list (read_handler_ (flow w')) =
    (read_calls (trace w) ++ option_list (read_handler_ (flow w))) ++
    read_armings script ∧
  write_calls (trace w') ++ option_list (write_handler_ (flow w')) =
    (write_calls (trace w) ++ option_list (write_handler_ (flow w))) ++
    write_armings script.
Proof.
  induction script as [|s rest IH]; intros w w' Hrun Hshape Hslots.
  - apply run_nil in Hrun. subst. simpl. by rewrite !app_nil_r.
  - apply run_cons in Hrun as (w1 & Hstep & Hrest).
    apply exec_effect in Hstep.
    destruct (IH _ _ Hrest) as (IHr & IHw).
    { by eapply shape_step. }
    { by eapply slots_step. }
    rewrite IHr, IHw, read_armings_cons, write_armings_cons, !app_assoc.
    pose proof (read_exact_step _ _ _ Hstep Hslots) as Hr.
    pose proof (write_exact_step _ _ _ Hstep Hslots) as Hw.
    simpl in Hr, Hw. by rewrite Hr, Hw.
Qed.

(** *** The connect handler *)

(** On every path of every step: the slot of the connect handler is written
    by [Connect] and emptied by [HandShake]; a connect handler that is
    called is the one in the slot; no token is ever made live again. *)
Lemma exec_connect_slot s w w' :
  exec s w = Done tt w' →
  (∀ h, connect_handler_ (flow w') = Some h →
        connect_handler_ (flow w) = Some h ∨ connect_armings [s] = [h]) ∧
  (connect_calls (trace w') = connect_calls (trace w) ∨
   ∃ h, connect_handler_ (flow w) = Some h ∧
        connect_calls (trace w') = connect_calls (trace w) ++ [h]) ∧
  canceled w ⊆ canceled w'.
Proof.
  destruct s; open_world w; intros Hrun; unfold_flow.
  all: run_all; simpl;
    rewrite ?connect_calls_snoc; simpl; rewrite ?app_nil_r;
    (split_and!;
      [intros; simplify_eq/=; auto
      |first [by left | right; eexists; split; first [reflexivity|eassumption]]
      |first [reflexivity | set_solver]]).
Qed.

Lemma run_connect_calls script : ∀ w w' B,
  run script w = Done tt w' →
  (∀ h, connect_handler_ (flow w) = Some h → h ∈ B) →
  (∀ h, h ∈ connect_calls (trace w) → h ∈ B) →
  (∀ h, connect_handler_ (flow w') = Some h → h ∈ B ++ connect_armings script) ∧
  (∀ h, h ∈ connect_calls (trace w') → h ∈ B ++ connect_armings script).
Proof.
  induction script as [|s rest IH]; intros w w' B Hrun Hslot Hcalls.
  - apply run_nil in Hrun. subst. simpl. by rewrite !app_nil_r.
  - apply run_cons in Hrun as (w1 & Hstep & Hrest).
    apply exec_connect_slot in Hstep as (Hs & Hc & _).
    rewrite connect_armings_cons, app_assoc.
    apply (IH _ _ _ Hrest).
    + intros h Hh. rewrite elem_of_app.
      destruct (Hs h Hh) as [Hold | ->]; [left; by apply Hslot|].
      right. by apply list_elem_of_singleton.
    + intros h Hh. rewrite elem_of_app. left.
      destruct Hc as [Hc | (h' & Hh' & Hc)]; rewrite Hc in Hh;
        [by apply Hcalls|].
      apply elem_of_app in Hh as [Hh | Hh]; [by apply Hcalls|].
      apply list_elem_of_singleton in Hh. subst. by apply Hslot.
Qed.

Lemma run_canceled script : ∀ w w',
  run script w = Done tt w' → canceled w ⊆ canceled w'.
Proof.
  induction script as [|s rest IH]; intros w w' Hrun.
  - apply run_nil in Hrun. by subst.
  - apply run_cons in Hrun as (w1 & Hstep & Hrest).
    apply exec_connect_slot in Hstep as (_ & _ & Hsub).
    etrans; [exact Hsub|]. by apply IH.
Qed.

End Ledgers.

(** ** Every armed handler is answered *)

Section AnswerProofs.

Context {T : Type} `{TlsTunnel.Ops T}.
Implicit Types w : World T.

(** A delivery is posted, or an operation is in flight. *)
Ltac on_its_way :=
  first [ left; rewrite ?existsb_app; simpl; rewrite ?orb_true_r; reflexivity
        | right; discriminate ].

(** The invariant at the end of a path of [Process]. *)
Ltac answer_goal :=
  simpl in *; simplify_eq/=;
  try match goal with
  | H : negb ?b = false, H' : ?b && true = false |- _ =>
      destruct b; discriminate
  end;
  unfold answer_on_its_way; simpl;
  intros ?; split; intros ?; simplify_eq/=;
    (split; [first [reflexivity|assumption]|on_its_way]).

(** Once [Process] returns without having reported an error, every armed
    handler has its answer on the way. *)
Lemma Process_answers w a w' : Process w = Done a w' → answer_on_its_way w'.
Proof.
  open_world w.
  unfold Process, ReportError, ReadReportError, WriteReportError,
    TryRead, TryWrite, TryReadNextHop, TryWriteNextHop; unfold_prims.
  intros Hrun. run_all; answer_goal.
Qed.

(** [ReportError] that finds no handler changes nothing. *)
Lemma ReportError_false error first w w' :
  ReportError error first w = Done false w' →
  w' = w ∧ read_handler_ (flow w) = None ∧ write_handler_ (flow w) = None.
Proof.
  open_world w.
  unfold ReportError, ReadReportError, WriteReportError; unfold_prims.
  intros Hrun. run_all; done.
Qed.

Lemma empty_after_insert (c : Cancelable) (X : gset Cancelable) :
  {[c]} ∪ X ≠ ∅.
Proof. set_solver. Qed.

Lemma nothing_canceled_before (X Y : gset Cancelable) : X ⊆ Y → Y = ∅ → X = ∅.
Proof. set_solver. Qed.

Local Opaque Process HandShake ReportError.

(** Every path of a step, up to [Process], [HandShake] and [ReportError]. *)
Ltac steps :=
  unfold exec, Connect, Read, Write, CloseWrite, Destructor, Cancel,
    run_Posted, run_ConnectCallback, run_ReadCallback, run_WriteCallback,
    take_posted, take_connect, take_read, take_write in *;
  unfold_prims; run_all.

(** No token is canceled: a path on which one is found canceled, or on
    which one is canceled, is not taken. *)
Ltac stale_in_empty :=
  match goal with
  | H : bool_decide (_ ∈ ∅) = true |- _ =>
      rewrite live_in_empty in H; discriminate H
  | H : {[_]} ∪ _ = ∅ |- _ => destruct (empty_after_insert _ _ H)
  end.

(** One cycle of the handshake driver that starts with nothing in flight
    and no call made leaves one operation in flight or one call made. *)
Lemma handshaking_answers w w' :
  handshaking (view w) (view w') →
  state_machine_ (flow w) = FlowStateMachine.Connecting →
  data_flow_ w = {| connects := []; reads := []; writes := [] |} →
  connect_calls (trace w) = [] →
  read_handler_ (flow w) = None → write_handler_ (flow w) = None →
  answer_on_its_way w' ∧ connect_on_its_way w'.
Proof.
  unfold handshaking, view; simpl.
  intros (Hr & Hw & _ & _ & Hc & Hcases) Hst Hn Hcalls Hrh Hwh.
  rewrite Hn in *. simpl in *. split.
  - intros _. rewrite Hr, Hw, Hrh, Hwh. simpl. split; discriminate.
  - unfold connect_on_its_way.
    destruct Hcases as
      [(Hs & Hcc & [(Hws & c & t & Hrs) | (Hrs & b & c & t & Hws)])
      | (Hrs & Hws & (h & Hcc) & Hs)];
      rewrite Hc, Hrs, Hws, Hcc, Hcalls; simpl.
    + rewrite Hs, Hst. simpl. split; [discriminate|done].
    + rewrite Hs, Hst. simpl. split; [discriminate|done].
    + split; done.
Qed.

(** The invariant of the connect handler at the end of a path. *)
Ltac connect_goal :=
  unfold connect_on_its_way; simpl;
  rewrite ?connect_calls_snoc, ?length_app; simpl;
  repeat match goal with
  | H : connect_calls _ = [] |- _ => rewrite !H
  end;
  split; intros ?; simpl in *;
  first [lia | congruence | (subst; simpl in *; congruence)].

(** The end of a path of a step: through [Process], through [HandShake],
    or with the world in hand. *)
Ltac answers_leaf :=
  simpl in *; simplify_eq/=;
  try stale_in_empty;
  try match goal with
  | HR : ReportError _ _ _ = Done ?d _ |- _ =>
      destruct d; simplify_eq/=;
      apply ReportError_false in HR as (-> & ? & ?); simpl in *; subst
  end;
  lazymatch goal with
  | HP : Process _ = Done _ _ |- _ =>
      let Ha := fresh "Ha" in
      let Hst := fresh "Hst" in
      let Hcalls := fresh "Hcalls" in
      pose proof (Process_answers _ _ _ HP) as Ha;
      apply Process_steady in HP;
      destruct HP as (Hst & _ & _ & _ & _ & _ & Hcalls);
      unfold view in *; simpl in *;
      split; [exact Ha|];
      unfold connect_on_its_way; rewrite Hst, Hcalls; connect_goal
  | HH : HandShake _ = Done _ _ |- _ =>
      apply HandShake_handshaking in HH;
      apply (handshaking_answers _ _ HH); first [reflexivity|assumption]
  | |- _ =>
      split;
      [unfold answer_on_its_way; simpl; intros _; split; intros ?;
       simplify_eq/=; tauto
      |connect_goal]
  end.

(** While no error is reported and no token is canceled, every step keeps
    the answers on their way. *)
Lemma answers_step s w w' :
  exec s w = Done tt w' →
  error_reported_ (flow w') = false → canceled w' = ∅ →
  shape (view w) → slots_follow (view w) →
  answer_on_its_way w → connect_on_its_way w →
  answer_on_its_way w' ∧ connect_on_its_way w'.
Proof.
  intros Hrun He' Hc' Hshape Hslots Hans Hcon.
  assert (error_reported_ (flow w) = false) as He.
  { destruct (error_reported_ (flow w)) eqn:E; [|done].
    apply exec_latches in Hrun as (_ & Hrep & _).
    destruct (Hrep E) as (Hrep' & _). congruence. }
  assert (canceled w = ∅) as Hc.
  { apply exec_connect_slot in Hrun as (_ & _ & Hsub).
    exact (nothing_canceled_before _ _ Hsub Hc'). }
  specialize (Hans He). destruct Hans as [Har Haw].
  destruct Hcon as [Hcr Hcc]. destruct Hslots as [Hsr Hsw].
  pose proof (shape_forms _ Hshape) as Hforms.
  destruct w as [[tn st ct rh wh ch rc wc cc nrc nwc pe er] n rl cn fr tr].
  unfold view in *; simpl in *. subst er cn.
  destruct (running st) eqn:Hr.
  - assert (∃ rs ws,
        n = {| connects := []; reads := rs; writes := ws |} ∧
        (rs = [] ∨ ∃ n c t,
           rs = [{| pr_capacity := n; pr_callback := NextHopRead c;
                    pr_token := t |}]) ∧
        (ws = [] ∨ ∃ b c t,
           ws = [{| pw_buffer := b; pw_callback := NextHopWrite c;
                    pw_token := t |}])) as (rs & ws & -> & Hrs & Hws)
      by (destruct st; done).
    specialize (Hcr eq_refl).
    assert (st ≠ FlowStateMachine.Connecting) as Hnc by (by intros ->).
    clear Hshape Hforms Hcc Hsr Hsw.
    destruct Hrs as [-> | (cap & c & t & ->)],
      Hws as [-> | (b & c' & t' & ->)];
      (destruct rh as [rh|]; [specialize (Har eq_refl) as [? Har]|clear Har]);
      (destruct wh as [wh|]; [specialize (Haw eq_refl) as [? Haw]|clear Haw]);
      subst;
      destruct s; steps; answers_leaf.
  - assert (rh = None ∧ wh = None) as [-> ->].
    { destruct st; try discriminate; simpl in *;
        destruct rh, wh; try done;
        try (by specialize (Hsr eq_refl)); by specialize (Hsw eq_refl). }
    clear Har Haw Hsr Hsw Hcr.
    destruct st; try discriminate; clear Hr.
    + subst n. unfold shape in Hshape; simpl in Hshape.
      destruct Hshape as (_ & _ & _ & Hcalls). clear Hcc.
      destruct s; steps; answers_leaf.
    + specialize (Hcc eq_refl). clear Hshape.
      destruct Hforms as [-> | [(p & ->) | [(cap & c & t & ->)
                                          | (b & c & t & ->)]]];
        try destruct p as [ep k tk]; simpl in Hcc;
        try (assert (connect_calls tr = []) as Hcalls
               by (apply nil_length_inv; lia));
        destruct s; steps; answers_leaf.
Qed.

Lemma run_error_reported script : ∀ w w',
  run script w = Done tt w' →
  error_reported_ (flow w) = true → error_reported_ (flow w') = true.
Proof.
  induction script as [|s rest IH]; intros w w' Hrun He.
  - apply run_nil in Hrun. by subst.
  - apply run_cons in Hrun as (w1 & Hstep & Hrest).
    apply exec_latches in Hstep as (_ & Hrep & _).
    destruct (Hrep He) as (He1 & _). by apply (IH _ _ Hrest).
Qed.

Lemma run_answers script : ∀ w w',
  run script w = Done tt w' →
  error_reported_ (flow w') = false → canceled w' = ∅ →
  shape (view w) → slots_follow (view w) →
  answer_on_its_way w → connect_on_its_way w →
  answer_on_its_way w' ∧ connect_on_its_way w'.
Proof.
  induction script as [|s rest IH]; intros w w' Hrun He Hc Hshape Hslots Ha Hcon.
  - apply run_nil in Hrun. by subst.
  - apply run_cons in Hrun as (w1 & Hstep & Hrest).
    assert (error_reported_ (flow w1) = false) as He1.
    { destruct (error_reported_ (flow w1)) eqn:E; [|done].
      pose proof (run_error_reported _ _ _ Hrest E). congruence. }
    assert (canceled w1 = ∅) as Hc1.
    { exact (nothing_canceled_before _ _ (run_canceled _ _ _ Hrest) Hc). }
    destruct (answers_step _ _ _ Hstep He1 Hc1 Hshape Hslots Ha Hcon)
      as (Ha1 & Hcon1).
    pose proof (exec_effect _ _ _ Hstep) as Heff.
    apply (IH _ _ Hrest He Hc); [|  |exact Ha1|exact Hcon1].
    + by eapply shape_step.
    + by eapply slots_step.
Qed.

(** *** The connect handler of a run *)

Lemma run_leaves_Init script : ∀ w w',
  run script w = Done tt w' →
  state_machine_ (flow w) ≠ FlowStateMachine.Init →
  state_machine_ (flow w') ≠ FlowStateMachine.Init.
Proof.
  induction script as [|s rest IH]; intros w w' Hrun Hst.
  - apply run_nil in Hrun. by subst.
  - apply run_cons in Hrun as (w1 & Hstep & Hrest).
    apply exec_effect in Hstep.
    destruct (state_leaves_Init _ _ _ Hstep Hst) as (Hst1 & _).
    by apply (IH _ _ Hrest).
Qed.

Lemma connect_armings_endpoints script :
  length (connect_armings script) = length (connect_endpoints script).
Proof.
  induction script as [|s rest IH]; [done|].
  rewrite connect_armings_cons, connect_endpoints_cons, !length_app, IH.
  by destruct s.
Qed.

Lemma run_in_Init script : ∀ w w',
  run script w = Done tt w' →
  state_machine_ (flow w') = FlowStateMachine.Init →
  connect_armings script = [].
Proof.
  induction script as [|s rest IH]; intros w w' Hrun Hst; [done|].
  apply run_cons in Hrun as (w1 & Hstep & Hrest).
  rewrite connect_armings_cons, (IH _ _ Hrest Hst), app_nil_r.
  destruct s; try done.
  apply exec_effect in Hstep. destruct Hstep as (_ & Hc & _). simpl in Hc.
  destruct (run_leaves_Init _ _ _ Hrest); [|done]. by rewrite Hc.
Qed.

Lemma initial_slots (t : T) : slots_follow (view (initial t)).
Proof. split; simpl; discriminate. Qed.

Lemma initial_answers (t : T) :
  answer_on_its_way (initial t) ∧ connect_on_its_way (initial t).
Proof.
  split.
  - intros _. split; simpl; discriminate.
  - split; simpl; discriminate.
Qed.

(** A run that has come to rest with no error reported and no token
    canceled has called every handler that was armed. *)
Lemma every_handler_is_called_at_rest (t : T) script w :
  run script (initial t) = Done tt w →
  error_reported_ (flow w) = false → canceled w = ∅ → quiescent w →
  read_calls (trace w) = read_armings script ∧
  write_calls (trace w) = write_armings script ∧
  connect_calls (trace w) = connect_armings script.
Proof.
  intros Hrun He Hc [Hn Hrl].
  destruct (initial_answers t) as (Ha0 & Hc0).
  destruct (run_answers _ _ _ Hrun He Hc (initial_shape t) (initial_slots t)
              Ha0 Hc0) as (Ha & Hcon).
  destruct (run_exact _ _ _ Hrun (initial_shape t) (initial_slots t))
    as (Hr & Hw).
  simpl in Hr, Hw.
  specialize (Ha He). destruct Ha as [Har Haw]. rewrite Hn, Hrl in *.
  simpl in *.
  assert (read_handler_ (flow w) = None) as Hrh.
  { destruct (read_handler_ (flow w)); [|done].
    destruct (Har eq_refl) as (_ & [? | ?]); done. }
  assert (write_handler_ (flow w) = None) as Hwh.
  { destruct (write_handler_ (flow w)); [|done].
    destruct (Haw eq_refl) as (_ & [? | ?]); done. }
  rewrite Hrh, Hwh in *. simpl in *. rewrite !app_nil_r in *.
  split_and!; [done..|].
  destruct (run_connect_calls _ _ _ [] Hrun) as (_ & Hin).
  { by simpl. }
  { simpl. intros h Hh. by apply elem_of_nil in Hh. }
  simpl in Hin.
  destruct (run_connects _ _ _ Hrun) as (Hlen & _).
  rewrite <-connect_armings_endpoints in Hlen.
  pose proof (run_shape _ _ _ Hrun (initial_shape t)) as Hshape.
  destruct Hcon as [Hcr Hcc].
  assert (length (connect_calls (trace w)) = 1 ∨
          (connect_calls (trace w) = [] ∧ connect_armings script = []))
    as [Hone | [-> ->]]; [|..|done].
  { destruct (state_machine_ (flow w)) eqn:Hst;
      try (left; by apply Hcr).
    - right. split; [|by eapply run_in_Init].
      unfold shape, view in Hshape. simpl in Hshape. rewrite Hst in Hshape.
      by destruct Hshape as (_ & _ & _ & ?).
    - left. specialize (Hcc eq_refl). rewrite Hn in Hcc. simpl in Hcc. lia. }
  destruct (connect_calls (trace w)) as [|h [|? ?]] eqn:Ecalls;
    simpl in Hone; try lia.
  specialize (Hin h ltac:(by apply list_elem_of_singleton)).
  destruct (connect_armings script) as [|h' [|? ?]]; simpl in Hlen; try lia.
  - by apply elem_of_nil in Hin.
  - apply list_elem_of_singleton in Hin. by subst.
Qed.

End AnswerProofs.

(** ** Handlers that call the flow: one step *)

Section ReentrancyProofs.

Context {T : Type} `{TlsTunnel.Ops T}.
Implicit Types w : World T.
Implicit Types body : M T unit.

Lemma length_snoc_eqb {A} (l : list A) x :
  (length (l ++ [x]) =? length l)%nat = false.
Proof. apply Nat.eqb_neq. rewrite length_app. simpl. lia. Qed.

(** The end of a path: both sides are the same, or a test on the length of
    the trace is settled. *)
Ltac same_end :=
  simpl in *;
  rewrite ?length_snoc_eqb, ?Nat.eqb_refl;
  first
    [ reflexivity
    | exfalso;
      match goal with
      | H : (length (_ ++ [_]) =? length _)%nat = true |- _ =>
          rewrite length_snoc_eqb in H; discriminate H
      | H : (length ?l =? length ?l)%nat = false |- _ =>
          rewrite Nat.eqb_refl in H; discriminate H
      end ].

(** The handler has been called before the slot of the connect handler is
    emptied: what it does commutes with that. *)
Ltac commuted Hbody :=
  match goal with
  | Hr : ?body ?W = _ |- _ =>
      let Hc := fresh "Hc" in
      pose proof (Hbody W) as Hc; unfold bind, modify in Hc;
      rewrite Hr in Hc; simpl in Hc; exact Hc
  end.

(** *** Deliveries posted to the runloop *)

Lemma run_Posted_calling_and body p w :
  run_Posted_calling body p w = and_when_called body (run_Posted p) w.
Proof.
  destruct p; open_world w;
    unfold run_Posted_calling, run_Posted, and_when_called; unfold_prims.
  all: split_matches; same_end.
Qed.

(** *** The connect handler *)

Lemma HandShake_calling_and body w :
  leaves_connect_slot body →
  HandShake_calling body w = and_when_called body HandShake w.
Proof.
  intros Hbody. open_world w.
  unfold HandShake_calling, HandShake, and_when_called; unfold_prims.
  split_matches; first [same_end | commuted Hbody].
Qed.

Local Opaque HandShake HandShake_calling.

(** The end of a path that goes into the handshake driver. *)
Ltac driver_end Hbody :=
  first
    [ same_end
    | rewrite HandShake_calling_and by exact Hbody;
      unfold and_when_called; simpl;
      repeat match goal with
      | Hq : HandShake _ = _ |- _ => rewrite Hq; clear Hq
      | Hl : (length _ =? length _)%nat = _ |- _ => rewrite Hl; clear Hl
      end;
      reflexivity ].

Lemma run_ConnectCallback_calling_and body k error w :
  leaves_connect_slot body →
  run_ConnectCallback_calling body k error w =
  and_when_called body (run_ConnectCallback k error) w.
Proof.
  intros Hbody. destruct k as [c]. open_world w.
  unfold run_ConnectCallback_calling, run_ConnectCallback, and_when_called;
    unfold_prims.
  split_matches; driver_end Hbody.
Qed.

Lemma run_WriteCallback_calling_and body c error w :
  leaves_connect_slot body →
  run_WriteCallback_calling body (HandShakeWrite c) error w =
  and_when_called body (run_WriteCallback (HandShakeWrite c) error) w.
Proof.
  intros Hbody. open_world w.
  unfold run_WriteCallback_calling, run_WriteCallback, and_when_called;
    unfold_prims.
  split_matches; driver_end Hbody.
Qed.

Lemma run_ReadCallback_calling_and body c buffer error w :
  leaves_connect_slot body →
  run_ReadCallback_calling body (HandShakeRead c) buffer error w =
  and_when_called body (run_ReadCallback (HandShakeRead c) buffer error) w.
Proof.
  intros Hbody. open_world w.
  unfold run_ReadCallback_calling, run_ReadCallback, and_when_called;
    unfold_prims.
  split_matches; driver_end Hbody.
Qed.

(** *** Steps that call no handler *)

Lemma Process_calling_quiet body w :
  Error_bool (pending_error_ (flow w)) = false ∨
    error_reported_ (flow w) = true →
  Process_calling body w = Process w.
Proof.
  intros Hq. unfold Process_calling, Process, bind, get. simpl.
  destruct (error_reported_ (flow w)); [done|].
  destruct Hq as [Hq | Hq]; [|done]. by rewrite Hq.
Qed.

Lemma Process_quiet_trace w a w' :
  Error_bool (pending_error_ (flow w)) = false ∨
    error_reported_ (flow w) = true →
  Process w = Done a w' → trace w' = trace w.
Proof.
  open_world w. simpl.
  unfold Process, ReportError, ReadReportError, WriteReportError,
    TryRead, TryWrite, TryReadNextHop, TryWriteNextHop; unfold_prims.
  intros Hq Hrun. run_all; simpl; first [reflexivity | by destruct Hq].
Qed.

Local Opaque Process Process_calling.

(** Every path of a step, up to [Process] and [HandShake]. *)
Ltac split_prefix :=
  repeat (simpl;
    match goal with
    | |- context [match ?x with _ => _ end] =>
        lazymatch x with
        | context [match _ with _ => _ end] => fail
        | Process _ => fail
        | Process_calling _ _ => fail
        | _ => destruct x eqn:?
        end
    end);
  simpl.

(** The end of a path that goes into [Process]. *)
Ltac quiet :=
  simpl;
  first [ left; assumption | right; assumption
        | left; reflexivity | right; reflexivity ].

Ltac pump_end :=
  first
    [ same_end
    | rewrite Process_calling_quiet by quiet;
      lazymatch goal with
      | |- context [Process ?W] =>
          let E := fresh "E" in
          destruct (Process W) as [[] ?|] eqn:E; simpl; [|reflexivity];
          apply Process_quiet_trace in E; [|quiet];
          simpl in E; rewrite E, Nat.eqb_refl; reflexivity
      end ].

Lemma inert_step_and body s w :
  match s with
  | CallConnect _ _ | CallCloseWrite _ | CallCancel _ | Destroy => True
  | _ => False
  end →
  exec_calling body s w = and_when_called body (exec s) w.
Proof.
  destruct s; try done; intros _; open_world w;
    unfold exec_calling, and_when_called, exec, Connect, CloseWrite,
      Destructor, Cancel; unfold_prims;
    split_matches; same_end.
Qed.

Lemma transfer_step_and body s w :
  is_user_transfer s = true →
  may_deliver_error s w = false →
  exec_calling body s w = and_when_called body (exec s) w.
Proof.
  destruct s; try done; intros _ Hq; open_world w;
    unfold may_deliver_error in Hq; simpl in Hq;
    unfold exec_calling, exec, Read_calling, Read, Write_calling, Write,
      and_when_called; unfold_prims.
  all: split_prefix; pump_end.
Qed.

Lemma steady_completion_and body s w :
  is_completion s = true →
  running (state_machine_ (flow w)) = true →
  shape (view w) →
  may_deliver_error s w = false →
  exec_calling body s w = and_when_called body (exec s) w.
Proof.
  intros Hs Hr Hshape Hq. apply shape_forms in Hshape.
  unfold may_deliver_error in Hq. rewrite Hr in Hq. simpl in Hq.
  destruct w as [[tn st ct rh wh ch rc wc cc nrc nwc pe er] n rl cn fr tr].
  unfold view in *; simpl in *.
  assert (∃ rs ws,
      n = {| connects := []; reads := rs; writes := ws |} ∧
      (rs = [] ∨ ∃ n c t,
         rs = [{| pr_capacity := n; pr_callback := NextHopRead c;
                  pr_token := t |}]) ∧
      (ws = [] ∨ ∃ b c t,
         ws = [{| pw_buffer := b; pw_callback := NextHopWrite c;
                  pw_token := t |}])) as (rs & ws & -> & Hrs & Hws)
    by (destruct st; done).
  clear Hshape Hr.
  destruct s as [| | | | | | |e|buffer e|e]; try discriminate; clear Hs.
  - unfold exec_calling, exec, and_when_called, take_connect, bind. done.
  - apply orb_false_elim in Hq as [He Hq].
    destruct e; [discriminate|]. clear He.
    apply andb_false_iff in Hq. rewrite negb_false_iff in Hq.
    destruct Hq as [Hq | Hq], Hrs as [-> | (cap & c & t & ->)];
      unfold exec_calling, exec, and_when_called, take_read,
        run_ReadCallback_calling, run_ReadCallback; unfold_prims;
      split_prefix; pump_end.
  - apply orb_false_elim in Hq as [He Hq].
    destruct e; [discriminate|]. clear He.
    apply andb_false_iff in Hq. rewrite negb_false_iff in Hq.
    destruct Hq as [Hq | Hq], Hws as [-> | (b & c & t & ->)];
      unfold exec_calling, exec, and_when_called, take_write,
        run_WriteCallback_calling, run_WriteCallback; unfold_prims;
      split_prefix; pump_end.
Qed.

Local Opaque run_ConnectCallback run_ConnectCallback_calling
  run_ReadCallback run_ReadCallback_calling
  run_WriteCallback run_WriteCallback_calling.

(** The end of a path that goes into a continuation of the handshake. *)
Ltac continuation_end Hbody :=
  first
    [ same_end
    | first [ rewrite run_ConnectCallback_calling_and by exact Hbody
            | rewrite run_ReadCallback_calling_and by exact Hbody
            | rewrite run_WriteCallback_calling_and by exact Hbody ];
      unfold and_when_called; simpl;
      repeat match goal with
      | Hq : run_ConnectCallback _ _ _ = _ |- _ => rewrite Hq; clear Hq
      | Hq : run_ReadCallback _ _ _ _ = _ |- _ => rewrite Hq; clear Hq
      | Hq : run_WriteCallback _ _ _ = _ |- _ => rewrite Hq; clear Hq
      | Hl : (length _ =? length _)%nat = _ |- _ => rewrite Hl; clear Hl
      end;
      reflexivity ].

Lemma handshake_completion_and body s w :
  leaves_connect_slot body →
  is_completion s = true →
  running (state_machine_ (flow w)) = false →
  shape (view w) →
  exec_calling body s w = and_when_called body (exec s) w.
Proof.
  intros Hbody Hs Hr Hshape. apply shape_forms in Hshape.
  destruct w as [[tn st ct rh wh ch rc wc cc nrc nwc pe er] n rl cn fr tr].
  unfold view in *; simpl in *.
  destruct st; try discriminate; clear Hr.
  - subst n.
    destruct s; try discriminate;
      unfold exec_calling, exec, and_when_called, take_connect, take_read,
        take_write, bind; done.
  - destruct Hshape as [-> | [(p & ->) | [(cap & c & t & ->)
                                        | (b & c & t & ->)]]];
      destruct s; try discriminate;
      unfold exec_calling, exec, and_when_called, take_connect, take_read,
        take_write; unfold_prims;
      split_prefix; continuation_end Hbody.
Qed.

End ReentrancyProofs.

(** ** The calls that a handler makes *)

Section CallbackProofs.

Context {T : Type} `{TlsTunnel.Ops T}.
Implicit Types w : World T.

(** No call that a handler may make looks at the slot of the connect
    handler or writes to it. *)
Lemma in_callback_leaves_connect_slot s :
  in_callback s = true → leaves_connect_slot (exec s).
Proof.
  intros Hs w. destruct s; try discriminate; open_world w; unfold_flow.
  all: split_matches; reflexivity.
Qed.

Lemma calls_leave_connect_slot calls :
  Forall (λ s, in_callback s = true) calls → leaves_connect_slot (run calls).
Proof.
  induction 1 as [|s calls Hs _ IH]; intros w; [done|].
  pose proof (in_callback_leaves_connect_slot s Hs w) as Hstep.
  unfold leaves_connect_slot in IH.
  simpl. unfold bind, modify in *. simpl in *.
  destruct (exec s w) as [[] w1|] eqn:E1; simpl in *.
  - rewrite <-Hstep. apply IH.
  - by rewrite <-Hstep.
Qed.

(** A handler that returns at once: the step is the step of the
    environment. *)
Lemma exec_calling_inert s w : exec_calling (ret tt) s w = exec s w.
Proof.
  destruct s; open_world w;
    unfold exec_calling, Read_calling, Write_calling, run_Posted_calling,
      run_ConnectCallback_calling, run_ReadCallback_calling,
      run_WriteCallback_calling, HandShake_calling, Process_calling,
      ReportError_calling, ReadReportError_calling, WriteReportError_calling;
    unfold_flow.
  all: split_matches; reflexivity.
Qed.

End CallbackProofs.

(** ** Handlers that call the flow: whole runs *)

Section ReentrantRunProofs.

Context {T : Type} `{TlsTunnel.Ops T}.
Implicit Types w : World T.

Lemma run_app_bind pre post w :
  run (pre ++ post) w = bind (run pre) (λ _, run post) w.
Proof.
  revert w. induction pre as [|s pre IH]; intros w; [done|].
  simpl. unfold bind in *. destruct (exec s w) as [[] w1|]; [|done]. apply IH.
Qed.

Lemma turn_step_and body w :
  exec_calling body RunloopTurn w = and_when_called body (exec RunloopTurn) w.
Proof.
  unfold exec_calling, exec, and_when_called, take_posted, bind.
  destruct (runloop w) as [|p rest]; [done|].
  rewrite run_Posted_calling_and. unfold and_when_called. done.
Qed.

(** A step in which the handler called makes [calls] before it returns is
    the step, followed by the calls if a handler is called. *)
Lemma reentrant_step calls s w :
  Forall (λ c, in_callback c = true) calls →
  shape (view w) →
  may_deliver_error s w = false →
  exec_calling (run calls) s w = and_when_called (run calls) (exec s) w.
Proof.
  intros Hcalls Hshape Hq.
  pose proof (calls_leave_connect_slot calls Hcalls) as Hbody.
  destruct (is_completion s) eqn:Hc.
  - destruct (running (state_machine_ (flow w))) eqn:Hr.
    + by apply steady_completion_and.
    + by apply handshake_completion_and.
  - destruct s; try discriminate.
    + by apply inert_step_and.
    + by apply transfer_step_and.
    + by apply transfer_step_and.
    + by apply inert_step_and.
    + by apply inert_step_and.
    + by apply inert_step_and.
    + apply turn_step_and.
Qed.

Lemma reentrant_step_played calls s w :
  Forall (λ c, in_callback c = true) calls →
  shape (view w) →
  calls = [] ∨ may_deliver_error s w = false →
  ∃ b : bool, exec_calling (run calls) s w = run (s :: if b then calls else []) w.
Proof.
  intros Hcalls Hshape [-> | Hq].
  - exists false. simpl. rewrite exec_calling_inert. unfold bind, ret.
    by destruct (exec s w) as [[] ?|].
  - rewrite reentrant_step by done. unfold and_when_called. simpl. unfold bind.
    destruct (exec s w) as [[] w1|]; [|by exists false].
    destruct (length (trace w1) =? length (trace w))%nat;
      [by exists false|by exists true].
Qed.

Lemma played_cons s calls (rest : list (Step * list Step)) b called :
  played ((s, calls) :: rest) (b :: called) =
  (s :: if b then calls else []) ++ played rest called.
Proof. done. Qed.

(** A run in which handlers call the flow outside of error deliveries is a
    run of the steps and the calls, one after the other. *)
Lemma reentrant_run script : ∀ w,
  shape (view w) →
  outside_error_deliveries script w →
  ∃ called, length called = length script ∧
            run_calling script w = run (played script called) w.
Proof.
  induction script as [|[s calls] rest IH]; intros w Hshape Hok.
  - by exists [].
  - destruct Hok as (Hcalls & Hq & Hrest).
    destruct (reentrant_step_played calls s w Hcalls Hshape Hq) as [b Hb].
    simpl. unfold bind at 1. rewrite Hb.
    destruct (run (s :: (if b then calls else [])) w) as [[] w1|f] eqn:E1.
    + destruct (IH w1) as (called & Hlen & Hrun).
      { eapply run_shape; [exact E1|exact Hshape]. }
      { apply Hrest. by rewrite Hb. }
      exists (b :: called). split; [simpl; by rewrite Hlen|].
      rewrite played_cons, run_app_bind. unfold bind. by rewrite E1.
    + exists (b :: replicate (length rest) false).
      split; [simpl; by rewrite length_replicate|].
      rewrite played_cons, run_app_bind. unfold bind. by rewrite E1.
Qed.

End ReentrantRunProofs.

(** ** Every arming and its call *)

Section Handlers.

Context {T : Type} `{TlsTunnel.Ops T}.
Implicit Types w : World T.

(** C1 (as amended).  In every run from a new flow, whatever the
    interleaving of user calls, runloop turns and completions at the next
    hop:
    - the read handlers called so far, in the order of the calls, followed
      by the handler still in its slot, are exactly the handlers armed by
      [Read], in the order of the armings; likewise for [Write]; so every
      arming is answered at most once, in order, and no other handler is
      called; the connect handler is armed at most once, called at most
      once, and the handler called is the one armed;
    - once nothing is in flight at the next hop and nothing is posted, if
      [error_reported_] is not set and no Cancelable has been canceled,
      every handler armed has been called exactly once;
    - a posted delivery or a continuation whose captured Cancelable is
      canceled returns without calling a handler and without changing the
      world;
    - a handler may call [Read], [Write], [CloseWrite] or [Cancel] before
      it returns: in every step other than those that may deliver an error
      to a read or write handler, the step with such a handler is the step,
      followed by the calls if a handler is called; so a run with such
      handlers is a run of the steps and the calls one after the other, to
      which the above applies. *)
Theorem each_handler_is_called_at_most_once (t : T) script w :
  run script (initial t) = Done tt w →
  read_calls (trace w) ++ option_list (read_handler_ (flow w)) =
    read_armings script ∧
  write_calls (trace w) ++ option_list (write_handler_ (flow w)) =
    write_armings script ∧
  (connect_calls (trace w) = [] ∨
   connect_calls (trace w) = connect_armings script) ∧
  length (connect_armings script) ≤ 1 ∧
  (error_reported_ (flow w) = false → canceled w = ∅ → quiescent w →
   read_calls (trace w) = read_armings script ∧
   write_calls (trace w) = write_armings script ∧
   connect_calls (trace w) = connect_armings script) ∧
  (∀ c, c ∈ canceled w →
     (∀ b, run_Posted (DeliverRead b c) w = Done tt w) ∧
     run_Posted (DeliverWrite c) w = Done tt w ∧
     (∀ e, run_ConnectCallback (ConnectDone c) e w = Done tt w) ∧
     (∀ b e, run_ReadCallback (HandShakeRead c) b e w = Done tt w) ∧
     (∀ b e, run_ReadCallback (NextHopRead c) b e w = Done tt w) ∧
     (∀ e, run_WriteCallback (HandShakeWrite c) e w = Done tt w) ∧
     (∀ e, run_WriteCallback (NextHopWrite c) e w = Done tt w)) ∧
  (∀ calls s,
     Forall (λ c, in_callback c = true) calls →
     may_deliver_error s w = false →
     exec_calling (run calls) s w =
     and_when_called (run calls) (exec s) w) ∧
  (∀ continuation,
     outside_error_deliveries continuation w →
     ∃ called, length called = length continuation ∧
               run_calling continuation w =
               run (played continuation called) w).
Proof.
  intros Hrun.
  pose proof (run_shape _ _ _ Hrun (initial_shape t)) as Hshape.
  destruct (run_exact _ _ _ Hrun (initial_shape t) (initial_slots t))
    as (Hr & Hw).
  destruct (run_connects _ _ _ Hrun) as (Hlen & _).
  rewrite <-connect_armings_endpoints in Hlen.
  split_and!.
  - exact Hr.
  - exact Hw.
  - destruct (run_connect_calls _ _ _ [] Hrun) as (_ & Hin).
    { by simpl. }
    { simpl. intros h Hh. by apply elem_of_nil in Hh. }
    simpl in Hin.
    apply shape_bounds in Hshape as (_ & _ & Hone). simpl in Hone.
    destruct (connect_calls (trace w)) as [|h [|? ?]] eqn:Ecalls;
      simpl in Hone; [by left| |lia].
    right.
    specialize (Hin h ltac:(by apply list_elem_of_singleton)).
    destruct (connect_armings script) as [|h' [|? ?]]; simpl in Hlen; try lia.
    + by apply elem_of_nil in Hin.
    + apply list_elem_of_singleton in Hin. by subst.
  - exact Hlen.
  - intros He Hc Hq.
    exact (every_handler_is_called_at_rest t script w Hrun He Hc Hq).
  - intros c Hc. by apply stale_closure_returns.
  - intros calls s Hcalls Hq. by apply reentrant_step.
  - intros continuation Hok. by apply reentrant_run.
Qed.

End Handlers.

(** ** The further theorems at concrete inputs *)

Section FurtherConcrete.

Import Scenario.

Lemma handshake_completes_witness :
  let plan := [Send; Receive (bytes "SH")] in
  follows plan Succeeds
    (TlsTunnel.SetDomain (host example_endpoint) exchange) = true ∧
  ∃ w,
    run (CallConnect example_endpoint 7 :: ConnectCompletes None ::
         handshake_script plan Succeeds) (initial exchange) = Done tt w ∧
    StateMachine w = Done FlowStateMachine.Established w ∧
    trace w = [ConnectHandlerCalled 7 None (Some 7)].
Proof.
  intros plan.
  assert (follows plan Succeeds
            (TlsTunnel.SetDomain (host example_endpoint) exchange) = true)
    as H1 by by_computation.
  destruct (handshake_completes exchange example_endpoint 7 plan H1)
    as (w & Hrun & Hs & _ & Ht & _).
  split; [exact H1|]. exists w. split_and!; [exact Hrun|exact Hs|exact Ht].
Defined.

Lemma handshake_flights_go_out_in_order_witness :
  follows ([Send] ++ Send :: []) Succeeds
    (TlsTunnel.SetDomain (host example_endpoint) hello) = true ∧
  flight (after_rounds [Send]
            (TlsTunnel.SetDomain (host example_endpoint) hello)) =
    bytes "CKE" ∧
  ∃ w,
    run (CallConnect example_endpoint 7 :: ConnectCompletes None ::
         map round_step [Send]) (initial hello) = Done tt w ∧
    in_flight Send
      (flight (after_rounds [Send]
                 (TlsTunnel.SetDomain (host example_endpoint) hello)))
      (connect_cancelable_ (flow w)) (data_flow_ w).
Proof.
  assert (follows ([Send] ++ Send :: []) Succeeds
            (TlsTunnel.SetDomain (host example_endpoint) hello) = true) as H1
    by by_computation.
  destruct (handshake_flights_go_out_in_order hello example_endpoint 7
              [Send] Send [] Succeeds H1)
    as (w & Hrun & _ & _ & _ & Hn).
  split_and!; [exact H1|by_computation|].
  exists w. split; [exact Hrun|exact Hn].
Defined.

Lemma handshake_failure_is_reported_once_witness :
  WriteFails (TransportError 32) ≠ Succeeds ∧
  follows [Send] (WriteFails (TransportError 32))
    (TlsTunnel.SetDomain (host example_endpoint) hello) = true ∧
  ∃ w,
    run (CallConnect example_endpoint 7 :: ConnectCompletes None ::
         handshake_script [Send] (WriteFails (TransportError 32)))
      (initial hello) = Done tt w ∧
    trace w = [ConnectHandlerCalled 7 broken_pipe (Some 7)].
Proof.
  assert (WriteFails (TransportError 32) ≠ Succeeds) as H1 by discriminate.
  assert (follows [Send] (WriteFails (TransportError 32))
            (TlsTunnel.SetDomain (host example_endpoint) hello) = true) as H2
    by by_computation.
  destruct (handshake_failure_is_reported_once hello example_endpoint 7)
    as (_ & Hfail).
  destruct (Hfail [Send] (WriteFails (TransportError 32)) H1 H2)
    as (w & Hrun & _ & Ht & _).
  split_and!; [exact H1|exact H2|].
  exists w. split; [exact Hrun|exact Ht].
Defined.

Lemma destroyed_flow_ignores_completions_witness :
  let script := connect ++ [CallRead [] 10; CallWrite (bytes "x") 11] in
  let completions := [ReadCompletes (bytes "ifmmp") None; WriteCompletes None] in
  let w0 := after script (quick false) in
  let w1 := after (script ++ [Destroy]) (quick false) in
  run script (initial (quick false)) = Done tt w0 ∧
  exec Destroy w0 = Done tt w1 ∧
  Forall (λ s, is_completion s = true) completions ∧
  length (reads (data_flow_ w1)) = 1 ∧
  length (writes (data_flow_ w1)) = 1 ∧
  match run completions w1 with
  | Done _ w =>
      flow w = flow w0 ∧ trace w = trace w0 ∧ runloop w = runloop w0
  | Abort f => f = NotEnabled
  end.
Proof.
  intros script completions w0 w1.
  assert (run script (initial (quick false)) = Done tt w0) as H1
    by by_computation.
  assert (exec Destroy w0 = Done tt w1) as H2 by by_computation.
  assert (Forall (λ s, is_completion s = true) completions) as H3
    by (repeat constructor).
  destruct (destroyed_flow_ignores_completions
              (quick false) script completions w0 w1 H1 H2 H3) as (_ & Hrun).
  split_and!;
    [exact H1|exact H2|exact H3|by_computation|by_computation|exact Hrun].
Defined.

Lemma errors_are_sticky_witness :
  let w := after read_fails_first (quick false) in
  let w' := after (read_fails_first ++ [WriteCompletes broken_pipe])
              (quick false) in
  run [WriteCompletes broken_pipe] w = Done tt w' ∧
  error_reported_ (flow w) = true ∧
  error_reported_ (flow w') = true ∧
  Read [] 12 w' = Abort AssertionFailure.
Proof.
  intros w w'.
  assert (run [WriteCompletes broken_pipe] w = Done tt w') as H1
    by by_computation.
  assert (error_reported_ (flow w) = true) as H2 by by_computation.
  destruct (errors_are_sticky [WriteCompletes broken_pipe] w w' H1)
    as (Hrep & _).
  destruct (Hrep H2) as (H3 & _ & Hfail).
  destruct (Hfail [] 12) as (Hread & _).
  split_and!; [exact H1|exact H2|exact H3|exact Hread].
Defined.

Lemma armed_slot_refuses_a_second_transfer_witness :
  let script := connect ++ [CallRead [] 10] in
  let w := after script (quick false) in
  run script (initial (quick false)) = Done tt w ∧
  armed (read_handler_ (flow w)) = true ∧
  FlowStateMachine.IsReading (state_machine_ (flow w)) = true ∧
  Read [] 11 w = Abort AssertionFailure.
Proof.
  intros script w.
  assert (run script (initial (quick false)) = Done tt w) as H1
    by by_computation.
  assert (armed (read_handler_ (flow w)) = true) as H2 by by_computation.
  destruct (armed_slot_refuses_a_second_transfer (quick false) script w H1)
    as (Hread & _).
  destruct (Hread H2) as (H3 & Hfail).
  split_and!; [exact H1|exact H2|exact H3|exact (Hfail [] 11)].
Defined.

Lemma ConnectingTo_returns_the_endpoint_of_Connect_witness :
  let script := connect ++ [CallRead [] 10] in
  let w := after script (quick false) in
  run script (initial (quick false)) = Done tt w ∧
  head (connect_endpoints script) = Some example_endpoint ∧
  ConnectingTo w = Done (head (connect_endpoints script)) w.
Proof.
  intros script w.
  assert (run script (initial (quick false)) = Done tt w) as H1
    by by_computation.
  destruct (ConnectingTo_returns_the_endpoint_of_Connect
              (quick false) script w H1) as (H2 & _).
  split_and!; [exact H1|by_computation|exact H2].
Defined.

Lemma transfers_are_never_answered_inline_witness :
  let w := after (second_read ++ [ReadCompletes (bytes "ifmmp") None])
             (quick true) in
  let w' := then_ (Read [] 11) w in
  pending_error_ (flow w) = None ∧
  Read [] 11 w = Done (fresh w) w' ∧
  trace w' = trace w ∧
  read_handler_ (flow w') = Some 11.
Proof.
  intros w w'.
  assert (pending_error_ (flow w) = None) as H1 by by_computation.
  assert (Read [] 11 w = Done (fresh w) w') as H2 by by_computation.
  destruct (transfers_are_never_answered_inline w H1) as (Hread & _).
  destruct (Hread [] 11 (fresh w) w' H2) as (H3 & _ & H4 & _).
  split_and!; [exact H1|exact H2|exact H3|exact H4].
Defined.

Lemma TryWrite_posts_or_issues_witness :
  let w := after (connect ++ [CallWrite (bytes "x") 11]) (quick false) in
  TlsTunnel.FinishWritingCipherData (tunnel_ (flow w)) = true ∧
  write_handler_ (flow w) = Some 11 ∧
  NextHop_IsWriting (data_flow_ w) = true ∧
  TryWrite w =
    match write_handler_ (flow w) with
    | Some _ =>
        Done tt (set_runloop
                   (runloop w ++ [DeliverWrite (write_cancelable_ (flow w))]) w)
    | None => Done tt w
    end.
Proof.
  intros w.
  assert (TlsTunnel.FinishWritingCipherData (tunnel_ (flow w)) = true) as H1
    by by_computation.
  destruct (TryWrite_posts_or_issues w) as (Hfin & _).
  split_and!; [exact H1|by_computation|by_computation|exact (Hfin H1)].
Defined.

(** With no token canceled, the tokens not yet handed out are live. *)
Lemma no_token_canceled (w : World ScriptedTunnel.t) :
  canceled w = ∅ → ∀ c, fresh w ≤ c → c ∉ canceled w.
Proof. intros -> c _. apply not_elem_of_empty. Qed.

Lemma written_plaintext_goes_down_and_completes_witness :
  let w := after connect (quick false) in
  fst (TlsTunnel.ReadCipherTextData
         (TlsTunnel.WritePlainTextData (bytes "hello") (tunnel_ (flow w)))) =
    bytes "ifmmp" ∧
  ∃ w1 w2 w3,
    Write (bytes "hello") 9 w = Done (fresh w) w1 ∧
    map pw_buffer (writes (data_flow_ w1)) =
      [fst (TlsTunnel.ReadCipherTextData
              (TlsTunnel.WritePlainTextData (bytes "hello")
                 (tunnel_ (flow w))))] ∧
    exec (WriteCompletes None) w1 = Done tt w2 ∧
    exec RunloopTurn w2 = Done tt w3 ∧
    trace w3 = trace w ++ [WriteHandlerCalled 9 None None].
Proof.
  intros w.
  assert (canceled w = ∅) as Hc by by_computation.
  destruct (written_plaintext_goes_down_and_completes w (bytes "hello") 9
              FlowStateMachine.Writing)
    as (w1 & w2 & w3 & H1 & _ & H2 & H3 & _ & _ & H4 & H5 & _);
    [by_computation|by_computation|by_computation|by_computation
    |by_computation|exact (no_token_canceled w Hc)|by_computation
    |by_computation|by_computation|].
  split; [by_computation|].
  exists w1, w2, w3.
  split_and!; [exact H1|exact H2|exact H3|exact H4|exact H5].
Defined.

Lemma received_ciphertext_comes_up_as_plaintext_witness :
  let w := after connect (quick false) in
  fst (TlsTunnel.ReadPlainTextData
         (TlsTunnel.WriteCipherTextData (bytes "ifmmp") (tunnel_ (flow w)))) =
    bytes "hello" ∧
  ∃ w1 w2 w3,
    Read [] 9 w = Done (fresh w) w1 ∧
    exec (ReadCompletes (bytes "ifmmp") None) w1 = Done tt w2 ∧
    trace w2 = trace w ∧
    exec RunloopTurn w2 = Done tt w3 ∧
    trace w3 =
      trace w ++
      [ReadHandlerCalled 9
         (fst (TlsTunnel.ReadPlainTextData
                 (TlsTunnel.WriteCipherTextData (bytes "ifmmp")
                    (tunnel_ (flow w)))))
         None None].
Proof.
  intros w.
  assert (canceled w = ∅) as Hc by by_computation.
  destruct (received_ciphertext_comes_up_as_plaintext w [] 9
              FlowStateMachine.Reading (bytes "ifmmp"))
    as (w1 & w2 & w3 & H1 & _ & _ & H2 & H3 & _ & H4 & H5 & _);
    [by_computation|by_computation|by_computation|by_computation
    |by_computation|exact (no_token_canceled w Hc)|by_computation
    |by_computation|by_computation|by vm_compute|by_computation|].
  split; [by_computation|].
  exists w1, w2, w3.
  split_and!; [exact H1|exact H2|exact H3|exact H4|exact H5].
Defined.

Lemma short_input_keeps_the_read_pending_witness :
  let w := after connect lingering in
  let input := bytes "ifm" in
  input ≠ [] ∧
  TlsTunnel.HasPlainTextDataToRead
    (TlsTunnel.WriteCipherTextData input (tunnel_ (flow w))) = false ∧
  ∃ w1 w2,
    Read [] 9 w = Done (fresh w) w1 ∧
    exec (ReadCompletes input None) w1 = Done tt w2 ∧
    trace w2 = trace w ∧
    runloop w2 = [] ∧
    read_handler_ (flow w2) = Some 9 ∧
    map pr_capacity (reads (data_flow_ w2)) = [8192%N].
Proof.
  intros w input.
  assert (canceled w = ∅) as Hc by by_computation.
  split; [discriminate|]. split; [by_computation|].
  destruct (short_input_keeps_the_read_pending w [] 9
              FlowStateMachine.Reading input)
    as (w1 & w2 & H1 & H2 & H3 & H4 & H5 & H6);
    [by_computation|by_computation|by_computation|by_computation
    |by_computation|exact (no_token_canceled w Hc)|by_computation
    |by_computation|by_computation|by vm_compute|by_computation|].
  exists w1, w2.
  split_and!; [exact H1|exact H2|exact H3|exact H4|exact H5|exact H6].
Defined.

Lemma nothing_is_posted_after_an_error_witness :
  let w := after write_fails_before_posted_delivery (quick false) in
  let w' := after (write_fails_before_posted_delivery ++ [RunloopTurn])
              (quick false) in
  run [RunloopTurn] w = Done tt w' ∧
  error_reported_ (flow w) = true ∧
  length (runloop w) = 2 ∧
  suffix (runloop w') (runloop w).
Proof.
  intros w w'.
  assert (run [RunloopTurn] w = Done tt w') as H1 by by_computation.
  assert (error_reported_ (flow w) = true) as H2 by by_computation.
  split_and!; [exact H1|exact H2|by_computation|].
  exact (nothing_is_posted_after_an_error [RunloopTurn] w w' H1 (or_introl H2)).
Defined.

(** C1, a counterexample in four parts.
    Not exactly once after an error: a read (handler 10) and a write
    (handler 11, token 9) are armed, each with an operation in flight.  The
    next-hop read fails and handler 10 receives the error; the next-hop
    write then succeeds, and [Process] returns at once because
    [error_reported_] is set.  Nothing is in flight or posted any more, the
    token of the write is live, and handler 11 has not been called.
    Not zero times after a cancel: a read (handler 10) is served and the
    tunnel asks for more input, so a next-hop read that captured the token
    of that read is in flight.  The user reads again (handler 11, token 10)
    and cancels the token returned.  The next-hop read fails: its
    continuation checks the token it captured, which is live, and
    [ReportError] calls handler 11 with the error.
    Not exactly once after the cancel of another token: in the same
    situation the user cancels the token of the read that has been served
    (token 7) and reads again (handler 11, token 10).  The next-hop read in
    flight delivers bytes: its continuation finds the token it captured
    canceled and returns.  Nothing is in flight or posted, no error is
    reported, token 10 is live, and handler 11 has not been called.
    Not at most once for a handler that calls the flow from within an error
    delivery: an error is kept in [pending_error_]; the user reads (handler
    11) and [Process] passes the error to the handler, which calls [Write]
    before it returns; the slot still holds handler 11 and
    [error_reported_] is not yet set, so the [Process] of that [Write]
    passes the error to handler 11 a second time. *)
Lemma armed_handler_is_left_uncalled_or_called_after_cancel :
  ¬ armed_write_is_delivered (quick false) ∧
  ¬ canceled_read_is_never_delivered (quick true) ∧
  ¬ armed_read_is_delivered (quick true) ∧
  ¬ calling_read_handler_is_called_once (quick true).
Proof.
  split_and!.
  - intros Hclaim.
    pose (w0 := after (connect ++ [CallRead [] 10]) (quick false)).
    pose (w1 := then_ (Write (bytes "x") 11) w0).
    pose (w2 := then_ (run [ReadCompletes [] reset; WriteCompletes None]) w1).
    assert (11 ∈ write_calls (trace w2)) as Hin.
    { apply (Hclaim (connect ++ [CallRead [] 10])
               [ReadCompletes [] reset; WriteCompletes None]
               (bytes "x") 11 9 w0 w1 w2).
      - by_computation.
      - by_computation.
      - by_computation.
      - by_computation.
      - decide_by_computation. }
    assert (11 ∉ write_calls (trace w2)) as Hnot by decide_by_computation.
    exact (Hnot Hin).
  - intros Hclaim.
    pose (w0 := after second_read (quick true)).
    pose (w1 := then_ (Read [] 11) w0).
    pose (w2 := then_ (run [CallCancel 10; ReadCompletes [] reset]) w1).
    assert (11 ∉ read_calls (trace w2)) as Hnot.
    { apply (Hclaim second_read [ReadCompletes [] reset] [] 11 10 w0 w1 w2).
      - by_computation.
      - by_computation.
      - decide_by_computation.
      - by_computation. }
    apply Hnot. decide_by_computation.
  - intros Hclaim.
    pose (w0 := after (second_read ++ [CallCancel 7]) (quick true)).
    pose (w1 := then_ (Read [] 11) w0).
    pose (w2 := then_ (run [ReadCompletes (bytes "ifmmp") None]) w1).
    assert (11 ∈ read_calls (trace w2)) as Hin.
    { apply (Hclaim (second_read ++ [CallCancel 7])
               [ReadCompletes (bytes "ifmmp") None] [] 11 10 w0 w1 w2).
      - by_computation.
      - by_computation.
      - by_computation.
      - by_computation.
      - decide_by_computation.
      - by_computation. }
    assert (11 ∉ read_calls (trace w2)) as Hnot by decide_by_computation.
    exact (Hnot Hin).
  - intros Hclaim.
    pose (w := after error_kept_with_plaintext_buffered (quick true)).
    pose (calls := [CallWrite (bytes "bye") 12]).
    pose (w' := then_ (Read_calling (run calls) [] 11) w).
    assert (length (filter (eq 11) (read_calls (trace w'))) ≤ 1) as Hle.
    { apply (Hclaim error_kept_with_plaintext_buffered calls [] 11 11 w w').
      - by_computation.
      - by repeat constructor.
      - decide_by_computation.
      - by_computation. }
    vm_compute in Hle. lia.
Qed.

(** The theorem on handlers, for a read that is served: at rest, the
    handlers called are the handlers armed; and for a handler that reads
    again from within the delivery: the turn of the runloop is the turn
    followed by the [Read]. *)
Lemma each_handler_is_called_at_most_once_witness :
  let served := connect ++ [CallRead [] 10; ReadCompletes (bytes "ifmmp") None] in
  let script := served ++ [RunloopTurn] in
  let w0 := after served (quick false) in
  let w := after script (quick false) in
  let w1 := then_ (run [RunloopTurn; CallRead [] 11]) w0 in
  run script (initial (quick false)) = Done tt w ∧
  error_reported_ (flow w) = false ∧ canceled w = ∅ ∧ quiescent w ∧
  read_calls (trace w) = [10] ∧
  write_calls (trace w) = [] ∧
  connect_calls (trace w) = [7] ∧
  run served (initial (quick false)) = Done tt w0 ∧
  may_deliver_error RunloopTurn w0 = false ∧
  exec_calling (run [CallRead [] 11]) RunloopTurn w0 = Done tt w1 ∧
  read_calls (trace w1) = [10] ∧
  read_handler_ (flow w1) = Some 11.
Proof.
  intros served script w0 w w1.
  assert (run script (initial (quick false)) = Done tt w) as H1
    by by_computation.
  assert (error_reported_ (flow w) = false) as H2 by by_computation.
  assert (canceled w = ∅) as H3 by by_computation.
  assert (quiescent w) as H4 by by_computation.
  assert (run served (initial (quick false)) = Done tt w0) as H5
    by by_computation.
  assert (may_deliver_error RunloopTurn w0 = false) as H6 by by_computation.
  destruct (each_handler_is_called_at_most_once (quick false) script w H1)
    as (_ & _ & _ & _ & Hrest & _).
  destruct (Hrest H2 H3 H4) as (Hr & Hw & Hc).
  destruct (each_handler_is_called_at_most_once (quick false) served w0 H5)
    as (_ & _ & _ & _ & _ & _ & Hstep & _).
  assert (Forall (λ c, in_callback c = true) [CallRead [] 11]) as H7
    by (by repeat constructor).
  split_and!;
    [exact H1|exact H2|exact H3|exact H4|exact Hr|exact Hw|exact Hc
    |exact H5|exact H6| |by_computation|by_computation].
  rewrite (Hstep [CallRead [] 11] RunloopTurn H7 H6). by_computation.
Defined.

End FurtherConcrete.
